(** * Neon Breacher: the game engine's simulation step

    A shallow embedding of [GameEngine] (game/GameEngine.ts): the entity
    model, the particle emitter, the per-frame [update], [resize], [start]
    and the loop driver, followed by the properties of the specification.

    Numbers.  Every JavaScript [number] that the engine uses as a coordinate,
    a speed, a size or a time is an exact rational ([Q]); the counters the
    engine only ever sets to integer literals and increments or decrements
    ([score], [countdownValue], [cooldown], [life], [enemyDirection], grid
    coordinates) are integers ([Z]).  Rounding of IEEE doubles is not
    modelled.

    Effects.  Calls to the two callbacks, to the sound manager, to the canvas
    and to [requestAnimationFrame] are appended to the log [calls]; the
    results of [Math.random()] come from an oracle, read at position
    [rngPos]. *)

From Stdlib Require Import QArith Qpower Qround Qminmax Lqa ZArith List Lia Bool.
From stdpp Require Import gmap strings.
Import ListNotations.

Open Scope Z_scope.
Open Scope Q_scope.

(** ** Comparisons of numbers, as booleans *)

Definition Qltb (a b : Q) : bool := negb (Qle_bool b a).
Definition Qleb (a b : Q) : bool := Qle_bool a b.

(** ** The entity model (types.ts) *)

(** The enumeration [GameState] of types.ts: the five states of a
    session. *)
Inductive GameState := START | COUNTDOWN | PLAYING | GAME_OVER | VICTORY.

(** The enumeration [Difficulty] of types.ts: three tiers. *)
Inductive Difficulty := EASY | MEDIUM | HARD.

(** The interface [Entity] of types.ts, with the fields of [Point] and
    [Size] that it extends: a position, a size, a velocity, a colour and an
    [active] flag. *)
Record Entity := mkEntity {
  x : Q; y : Q; width : Q; height : Q;
  dx : Q; dy : Q; color : string; active : bool }.

(** The interfaces [Player], [Enemy], [Bullet] and [Particle] of types.ts
    extend [Entity], with a shot cooldown, with grid coordinates, with the
    owner flag, and with the remaining and the initial life. *)
Record Player := mkPlayer { playerBase :> Entity; cooldown : Z }.
Record Enemy := mkEnemy { enemyBase :> Entity; row : Z; col : Z }.
Record Bullet := mkBullet { bulletBase :> Entity; isPlayerBullet : bool }.
Record Particle := mkParticle { particleBase :> Entity; life : Z; maxLife : Z }.

Definition setX (v : Q) (e : Entity) : Entity :=
  mkEntity v (y e) (width e) (height e) (dx e) (dy e) (color e) (active e).
Definition setY (v : Q) (e : Entity) : Entity :=
  mkEntity (x e) v (width e) (height e) (dx e) (dy e) (color e) (active e).
Definition setWidth (v : Q) (e : Entity) : Entity :=
  mkEntity (x e) (y e) v (height e) (dx e) (dy e) (color e) (active e).
Definition setDx (v : Q) (e : Entity) : Entity :=
  mkEntity (x e) (y e) (width e) (height e) v (dy e) (color e) (active e).
Definition setDy (v : Q) (e : Entity) : Entity :=
  mkEntity (x e) (y e) (width e) (height e) (dx e) v (color e) (active e).
Definition setActive (v : bool) (e : Entity) : Entity :=
  mkEntity (x e) (y e) (width e) (height e) (dx e) (dy e) (color e) v.

Definition onPlayer (f : Entity -> Entity) (p : Player) : Player :=
  mkPlayer (f p) (cooldown p).
Definition setCooldown (v : Z) (p : Player) : Player := mkPlayer p v.
Definition onEnemy (f : Entity -> Entity) (e : Enemy) : Enemy :=
  mkEnemy (f e) (row e) (col e).
Definition onBullet (f : Entity -> Entity) (b : Bullet) : Bullet :=
  mkBullet (f b) (isPlayerBullet b).
Definition onParticle (f : Entity -> Entity) (p : Particle) : Particle :=
  mkParticle (f p) (life p) (maxLife p).
Definition setLife (v : Z) (p : Particle) : Particle :=
  mkParticle p v (maxLife p).

(** ** Effects *)

(** What the engine asks of its collaborators, in the order it asks. *)
Inductive Call :=
| onScoreUpdate (newScore : Z)
| onStateUpdate (newState : GameState)
| soundResume
| playShoot
| playExplosion
| paint
| requestAnimationFrame.

(** The built-ins of the host that the engine reads: the successive results
    of [Math.random()], and [Math.PI], [Math.cos], [Math.sin]. *)
Record Runtime := mkRuntime {
  randomAt : nat -> Q;
  Math_PI : Q;
  Math_cos : Q -> Q;
  Math_sin : Q -> Q }.

(** [Math.random()] returns a number in [0, 1); [Math.PI] is positive. *)
Definition RuntimeOk (rt : Runtime) : Prop :=
  (forall n, 0 <= randomAt rt n /\ randomAt rt n < 1) /\ 0 < Math_PI rt.

(** ** The engine *)

(** The fields of [GameEngine]; [gwidth] and [gheight] are its [width] and
    [height] (the names are taken by the entities), [calls] and [rngPos] are
    the effect log and the number of [Math.random()] results consumed. *)
Record GameEngine := mkGameEngine {
  gwidth : Q; gheight : Q; state : GameState; player : Player;
  enemies : list Enemy; bullets : list Bullet; particles : list Particle;
  score : Z; keys : gmap string bool;
  enemyDirection : Z; enemySpeed : Q; difficulty : Difficulty;
  countdownValue : Z; lastFrameTime : Q; countdownTimer : Q;
  calls : list Call; rngPos : nat }.

Definition set_gwidth (v : Q) (g : GameEngine) : GameEngine :=
  {| gwidth := v; gheight := gheight g; state := state g; player := player g;
     enemies := enemies g; bullets := bullets g; particles := particles g; score := score g;
     keys := keys g; enemyDirection := enemyDirection g; enemySpeed := enemySpeed g; difficulty := difficulty g;
     countdownValue := countdownValue g; lastFrameTime := lastFrameTime g; countdownTimer := countdownTimer g; calls := calls g;
     rngPos := rngPos g |}.

Definition set_gheight (v : Q) (g : GameEngine) : GameEngine :=
  {| gwidth := gwidth g; gheight := v; state := state g; player := player g;
     enemies := enemies g; bullets := bullets g; particles := particles g; score := score g;
     keys := keys g; enemyDirection := enemyDirection g; enemySpeed := enemySpeed g; difficulty := difficulty g;
     countdownValue := countdownValue g; lastFrameTime := lastFrameTime g; countdownTimer := countdownTimer g; calls := calls g;
     rngPos := rngPos g |}.

Definition set_state (v : GameState) (g : GameEngine) : GameEngine :=
  {| gwidth := gwidth g; gheight := gheight g; state := v; player := player g;
     enemies := enemies g; bullets := bullets g; particles := particles g; score := score g;
     keys := keys g; enemyDirection := enemyDirection g; enemySpeed := enemySpeed g; difficulty := difficulty g;
     countdownValue := countdownValue g; lastFrameTime := lastFrameTime g; countdownTimer := countdownTimer g; calls := calls g;
     rngPos := rngPos g |}.

Definition set_player (v : Player) (g : GameEngine) : GameEngine :=
  {| gwidth := gwidth g; gheight := gheight g; state := state g; player := v;
     enemies := enemies g; bullets := bullets g; particles := particles g; score := score g;
     keys := keys g; enemyDirection := enemyDirection g; enemySpeed := enemySpeed g; difficulty := difficulty g;
     countdownValue := countdownValue g; lastFrameTime := lastFrameTime g; countdownTimer := countdownTimer g; calls := calls g;
     rngPos := rngPos g |}.

Definition set_enemies (v : list Enemy) (g : GameEngine) : GameEngine :=
  {| gwidth := gwidth g; gheight := gheight g; state := state g; player := player g;
     enemies := v; bullets := bullets g; particles := particles g; score := score g;
     keys := keys g; enemyDirection := enemyDirection g; enemySpeed := enemySpeed g; difficulty := difficulty g;
     countdownValue := countdownValue g; lastFrameTime := lastFrameTime g; countdownTimer := countdownTimer g; calls := calls g;
     rngPos := rngPos g |}.

Definition set_bullets (v : list Bullet) (g : GameEngine) : GameEngine :=
  {| gwidth := gwidth g; gheight := gheight g; state := state g; player := player g;
     enemies := enemies g; bullets := v; particles := particles g; score := score g;
     keys := keys g; enemyDirection := enemyDirection g; enemySpeed := enemySpeed g; difficulty := difficulty g;
     countdownValue := countdownValue g; lastFrameTime := lastFrameTime g; countdownTimer := countdownTimer g; calls := calls g;
     rngPos := rngPos g |}.

Definition set_particles (v : list Particle) (g : GameEngine) : GameEngine :=
  {| gwidth := gwidth g; gheight := gheight g; state := state g; player := player g;
     enemies := enemies g; bullets := bullets g; particles := v; score := score g;
     keys := keys g; enemyDirection := enemyDirection g; enemySpeed := enemySpeed g; difficulty := difficulty g;
     countdownValue := countdownValue g; lastFrameTime := lastFrameTime g; countdownTimer := countdownTimer g; calls := calls g;
     rngPos := rngPos g |}.

Definition set_score (v : Z) (g : GameEngine) : GameEngine :=
  {| gwidth := gwidth g; gheight := gheight g; state := state g; player := player g;
     enemies := enemies g; bullets := bullets g; particles := particles g; score := v;
     keys := keys g; enemyDirection := enemyDirection g; enemySpeed := enemySpeed g; difficulty := difficulty g;
     countdownValue := countdownValue g; lastFrameTime := lastFrameTime g; countdownTimer := countdownTimer g; calls := calls g;
     rngPos := rngPos g |}.

Definition set_enemyDirection (v : Z) (g : GameEngine) : GameEngine :=
  {| gwidth := gwidth g; gheight := gheight g; state := state g; player := player g;
     enemies := enemies g; bullets := bullets g; particles := particles g; score := score g;
     keys := keys g; enemyDirection := v; enemySpeed := enemySpeed g; difficulty := difficulty g;
     countdownValue := countdownValue g; lastFrameTime := lastFrameTime g; countdownTimer := countdownTimer g; calls := calls g;
     rngPos := rngPos g |}.

Definition set_enemySpeed (v : Q) (g : GameEngine) : GameEngine :=
  {| gwidth := gwidth g; gheight := gheight g; state := state g; player := player g;
     enemies := enemies g; bullets := bullets g; particles := particles g; score := score g;
     keys := keys g; enemyDirection := enemyDirection g; enemySpeed := v; difficulty := difficulty g;
     countdownValue := countdownValue g; lastFrameTime := lastFrameTime g; countdownTimer := countdownTimer g; calls := calls g;
     rngPos := rngPos g |}.

Definition set_difficulty (v : Difficulty) (g : GameEngine) : GameEngine :=
  {| gwidth := gwidth g; gheight := gheight g; state := state g; player := player g;
     enemies := enemies g; bullets := bullets g; particles := particles g; score := score g;
     keys := keys g; enemyDirection := enemyDirection g; enemySpeed := enemySpeed g; difficulty := v;
     countdownValue := countdownValue g; lastFrameTime := lastFrameTime g; countdownTimer := countdownTimer g; calls := calls g;
     rngPos := rngPos g |}.

Definition set_countdownValue (v : Z) (g : GameEngine) : GameEngine :=
  {| gwidth := gwidth g; gheight := gheight g; state := state g; player := player g;
     enemies := enemies g; bullets := bullets g; particles := particles g; score := score g;
     keys := keys g; enemyDirection := enemyDirection g; enemySpeed := enemySpeed g; difficulty := difficulty g;
     countdownValue := v; lastFrameTime := lastFrameTime g; countdownTimer := countdownTimer g; calls := calls g;
     rngPos := rngPos g |}.

Definition set_lastFrameTime (v : Q) (g : GameEngine) : GameEngine :=
  {| gwidth := gwidth g; gheight := gheight g; state := state g; player := player g;
     enemies := enemies g; bullets := bullets g; particles := particles g; score := score g;
     keys := keys g; enemyDirection := enemyDirection g; enemySpeed := enemySpeed g; difficulty := difficulty g;
     countdownValue := countdownValue g; lastFrameTime := v; countdownTimer := countdownTimer g; calls := calls g;
     rngPos := rngPos g |}.

Definition set_countdownTimer (v : Q) (g : GameEngine) : GameEngine :=
  {| gwidth := gwidth g; gheight := gheight g; state := state g; player := player g;
     enemies := enemies g; bullets := bullets g; particles := particles g; score := score g;
     keys := keys g; enemyDirection := enemyDirection g; enemySpeed := enemySpeed g; difficulty := difficulty g;
     countdownValue := countdownValue g; lastFrameTime := lastFrameTime g; countdownTimer := v; calls := calls g;
     rngPos := rngPos g |}.

Definition set_calls (v : list Call) (g : GameEngine) : GameEngine :=
  {| gwidth := gwidth g; gheight := gheight g; state := state g; player := player g;
     enemies := enemies g; bullets := bullets g; particles := particles g; score := score g;
     keys := keys g; enemyDirection := enemyDirection g; enemySpeed := enemySpeed g; difficulty := difficulty g;
     countdownValue := countdownValue g; lastFrameTime := lastFrameTime g; countdownTimer := countdownTimer g; calls := v;
     rngPos := rngPos g |}.

Definition set_rngPos (v : nat) (g : GameEngine) : GameEngine :=
  {| gwidth := gwidth g; gheight := gheight g; state := state g; player := player g;
     enemies := enemies g; bullets := bullets g; particles := particles g; score := score g;
     keys := keys g; enemyDirection := enemyDirection g; enemySpeed := enemySpeed g; difficulty := difficulty g;
     countdownValue := countdownValue g; lastFrameTime := lastFrameTime g; countdownTimer := countdownTimer g; calls := calls g;
     rngPos := v |}.

Definition emit (c : Call) (g : GameEngine) : GameEngine :=
  set_calls (calls g ++ [c]) g.

Definition Math_random (rt : Runtime) (g : GameEngine) : Q * GameEngine :=
  (randomAt rt (rngPos g), set_rngPos (S (rngPos g)) g).

(** [keys[code]] as a condition: a missing key is [undefined], which is
    falsy. *)
Definition keyDown (g : GameEngine) (code : string) : bool :=
  default false (keys g !! code).

(** [Array.prototype.forEach] with a callback that mutates the objects it is
    given and the state around them: the callback returns the state and the
    object as it leaves them, and the array keeps its objects in place. *)
Fixpoint forEach {S A : Type} (f : S -> A -> S * A) (s : S) (l : list A)
  : S * list A :=
  match l with
  | [] => (s, [])
  | a :: l' =>
      let '(s1, a') := f s a in
      let '(s2, l'') := forEach f s1 l' in
      (s2, a' :: l'')
  end.

(** Game constants. *)
Definition PLAYER_SPEED : Q := 5.
Definition BULLET_SPEED : Q := 7.
Definition ENEMY_SPEED_BASE : Q := 1.
Definition ENEMY_DROP : Q := 20.
Definition PARTICLE_LIFE : Z := 45.

(** ** [resize], [resetToMenu], [resetEntities] *)

(** The canvas is not modelled beyond its size, which [resize] keeps equal
    to the engine's. *)
Definition resize (w h : Q) (g : GameEngine) : GameEngine :=
  let g := set_gwidth w g in
  let g := set_gheight h g in
  (* Reposition player if out of bounds *)
  let g :=
    if Qltb (gwidth g) (x (player g))
    then set_player (onPlayer (setX (gwidth g - width (player g))) (player g)) g
    else g in
  set_player (onPlayer (setY (gheight g - 60)) (player g)) g.

(** [draw] paints the canvas from the current state; of the painting only
    the [Math.random()] results it consumes for the thrust flame are kept. *)
Definition draw (rt : Runtime) (g : GameEngine) : GameEngine :=
  let g :=
    match state g with
    | PLAYING | COUNTDOWN =>
        let '(flicker, g) := Math_random rt g in
        if Qltb 0.2 flicker then snd (Math_random rt g) else g
    | _ => g
    end in
  emit paint g.

Definition resetToMenu (rt : Runtime) (g : GameEngine) : GameEngine :=
  let g := set_state START g in
  let g := set_bullets [] g in
  let g := set_particles [] g in
  let g := set_enemies [] g in
  draw rt g.

Definition newEnemy (startX : Q) (r c : nat) : Enemy :=
  mkEnemy
    (mkEntity (startX + inject_Z (Z.of_nat c) * (30 + 20))
              (60 + inject_Z (Z.of_nat r) * (20 + 20))
              30 20 0 0 "#39ff14" true)
    (Z.of_nat r) (Z.of_nat c).

Definition resetEntities (g : GameEngine) : GameEngine :=
  let g := set_bullets [] g in
  let g := set_particles [] g in
  let g := set_enemies [] g in
  let g := set_player (onPlayer (setX (gwidth g / 2 - 20)) (player g)) g in
  let g := set_player (onPlayer (setActive true) (player g)) g in
  let g := set_enemySpeed ENEMY_SPEED_BASE g in
  let g := set_enemyDirection 1%Z g in
  (* Create enemies grid *)
  let rows := 4%nat in
  let cols := 8%nat in
  let startX := (gwidth g - 8 * (30 + 20)) / 2 in
  set_enemies
    (enemies g ++
     flat_map (fun r => map (fun c => newEnemy startX r c) (seq 0 cols))
              (seq 0 rows)) g.

(** ** The particle emitter *)

Definition fireColors : list string :=
  ["#ffffff"; "#ffff00"; "#ffaa00"; "#ff4400"]%string.

(** [fireColors[Math.floor(r * fireColors.length)]]; the index is in range
    for every [r] in [0, 1). *)
Definition pickFireColor (r : Q) : string :=
  nth (Z.to_nat (Qfloor (r * inject_Z (Z.of_nat (length fireColors)))))
      fireColors ""%string.

(** One round of the loop of [spawnParticles]. *)
Definition spawnParticle (rt : Runtime) (px py : Q) (baseColor : string)
    (g : GameEngine) : GameEngine :=
  let '(r, g) := Math_random rt g in
  let angle := r * Math_PI rt * 2 in
  let '(r, g) := Math_random rt g in
  let speed := r * 4 + 1 in
  let '(r, g) := Math_random rt g in
  let '(color, g) :=
    if Qltb 0.3 r
    then let '(r, g) := Math_random rt g in (pickFireColor r, g)
    else (baseColor, g) in
  let '(r, g) := Math_random rt g in
  set_particles
    (particles g ++
     [mkParticle
        (mkEntity px py (r * 5 + 2) 0
                  (Math_cos rt angle * speed) (Math_sin rt angle * speed)
                  color true)
        PARTICLE_LIFE PARTICLE_LIFE]) g.

Fixpoint spawnParticles (rt : Runtime) (px py : Q) (baseColor : string)
    (count : nat) (g : GameEngine) : GameEngine :=
  match count with
  | O => g
  | S n => spawnParticles rt px py baseColor n (spawnParticle rt px py baseColor g)
  end.

(** ** Difficulty *)

Record Multipliers := mkMultipliers { speed : Q; freq : Q }.

Definition getDifficultyMultipliers (g : GameEngine) : Multipliers :=
  match difficulty g with
  | EASY => mkMultipliers (1 / 3) (1 / 3)
  | MEDIUM => mkMultipliers (2 / 3) (2 / 3)
  | HARD => mkMultipliers 1 1
  end.

(** ** The simulation step *)

(** The bounding-box test of the collision code, [a] against [b]. *)
Definition overlaps (a b : Entity) : bool :=
  Qltb (x a) (x b + width b) && Qltb (x b) (x a + width a) &&
  Qltb (y a) (y b + height b) && Qltb (y b) (y a + height a).

(** COUNTDOWN. *)
Definition updateCountdown (dt : Q) (g : GameEngine) : GameEngine :=
  let g := set_countdownTimer (countdownTimer g + dt) g in
  if Qleb 1000 (countdownTimer g)
  then
    let g := set_countdownValue (countdownValue g - 1)%Z g in
    let g := set_countdownTimer 0 g in
    if (countdownValue g <=? 0)%Z
    then let g := set_state PLAYING g in emit (onStateUpdate (state g)) g
    else g
  else g.

(** Player movement and clamp. *)
Definition movePlayer (g : GameEngine) : GameEngine :=
  let g :=
    if keyDown g "ArrowLeft" || keyDown g "KeyA"
    then set_player (onPlayer (setX (x (player g) - PLAYER_SPEED)) (player g)) g
    else g in
  let g :=
    if keyDown g "ArrowRight" || keyDown g "KeyD"
    then set_player (onPlayer (setX (x (player g) + PLAYER_SPEED)) (player g)) g
    else g in
  set_player
    (onPlayer
       (setX (Qmax 0 (Qmin (gwidth g - width (player g)) (x (player g)))))
       (player g)) g.

(** Player shooting. *)
Definition playerShoot (g : GameEngine) : GameEngine :=
  let g :=
    if (0 <? cooldown (player g))%Z
    then set_player (setCooldown (cooldown (player g) - 1)%Z (player g)) g
    else g in
  if (keyDown g "Space" || keyDown g "ArrowUp" || keyDown g "KeyW")
     && (cooldown (player g) <=? 0)%Z
  then
    let g :=
      set_bullets
        (bullets g ++
         [mkBullet
            (mkEntity (x (player g) + width (player g) / 2) (y (player g))
                      3 10 0 (- BULLET_SPEED) "#ff00ff" true)
            true]) g in
    let g := emit playShoot g in
    set_player (setCooldown 15%Z (player g)) g
  else g.

(** Bullet motion: the callback of the first [bullets.forEach]. *)
Definition moveBullet (h : Q) (b : Bullet) : Bullet :=
  let b := onBullet (setY (y b + dy b)) b in
  if Qltb (y b) 0 || Qltb h (y b) then onBullet (setActive false) b else b.

Definition updateBullets (g : GameEngine) : GameEngine :=
  set_bullets (map (moveBullet (gheight g)) (bullets g)) g.

Definition livingEnemies (g : GameEngine) : list Enemy :=
  List.filter (fun e : Enemy => active e) (enemies g).

(** The callback of the first [livingEnemies.forEach]; the state it
    threads is the engine and the local [hitWall]. *)
Definition enemyTick (rt : Runtime) (multipliers : Multipliers)
    (s : GameEngine * bool) (e : Enemy) : (GameEngine * bool) * Enemy :=
  let '(g, hitWall) := s in
  let e := onEnemy (setX (x e + enemySpeed g * inject_Z (enemyDirection g))) e in
  (* Check wall collision *)
  let hitWall :=
    if (Qleb (x e) 0 && (enemyDirection g =? -1)%Z)
       || (Qleb (gwidth g) (x e + width e) && (enemyDirection g =? 1)%Z)
    then true else hitWall in
  (* Check collision with player or bottom *)
  let g :=
    if Qleb (y (player g)) (y e + height e)
    then
      let g := emit playExplosion g in
      let g := set_state GAME_OVER g in
      emit (onStateUpdate (state g)) g
    else g in
  (* Random shooting affected by difficulty *)
  let baseFreq := 0.001 * (1 + inject_Z (score g) / 500) in
  let '(r, g) := Math_random rt g in
  let g :=
    if Qltb r (baseFreq * freq multipliers)
    then
      set_bullets
        (bullets g ++
         [mkBullet
            (mkEntity (x e + width e / 2) (y e + height e) 3 10 0
                      ((BULLET_SPEED / 1.5) * speed multipliers)
                      "#ff3333" true)
            false]) g
    else g in
  ((g, hitWall), e).

(** [livingEnemies] holds the very objects of [enemies], so a
    [livingEnemies.forEach] mutates the enemies in place, in order, and
    leaves the inactive ones alone; no callback of such a loop changes an
    [active] flag, so the test at the visit is the test of the [filter]. *)
Definition onLiving {S : Type} (f : S -> Enemy -> S * Enemy)
    (s : S) (e : Enemy) : S * Enemy :=
  if active e then f s e else (s, e).

Definition dropEnemy (s : unit) (e : Enemy) : unit * Enemy :=
  (s, onEnemy (setY (y e + ENEMY_DROP)) e).

(** Enemy motion, wall test, loss by contact, enemy fire, then the descent
    of the formation. *)
Definition enemyLogic (rt : Runtime) (multipliers : Multipliers)
    (g : GameEngine) : GameEngine :=
  let '((g, hitWall), es) :=
    forEach (onLiving (enemyTick rt multipliers)) (g, false) (enemies g) in
  let g := set_enemies es g in
  if hitWall
  then
    let g := set_enemyDirection (enemyDirection g * -1)%Z g in
    let g := set_enemies (snd (forEach (onLiving dropEnemy) tt (enemies g))) g in
    (* Increase speed slightly *)
    set_enemySpeed (enemySpeed g + 0.2) g
  else g.

(** The callback of [this.enemies.forEach] inside the collision loop, for
    the player bullet [b]; the state it threads is the engine and [b]. *)
Definition hitEnemy (rt : Runtime) (s : GameEngine * Bullet) (e : Enemy)
  : (GameEngine * Bullet) * Enemy :=
  let '(g, b) := s in
  if negb (active e) then (s, e)
  else if overlaps b e
  then
    let e := onEnemy (setActive false) e in
    let b := onBullet (setActive false) b in
    let g := emit playExplosion g in
    let g := spawnParticles rt (x e + width e / 2) (y e + height e / 2)
                            (color e) 25 g in
    let g := set_score (score g + 100)%Z g in
    let g := emit (onScoreUpdate (score g)) g in
    ((g, b), e)
  else (s, e).

(** The callback of [this.bullets.forEach] in collision detection.  The
    inner loop runs over [this.enemies] and mutates its objects in place. *)
Definition collideBullet (rt : Runtime) (g : GameEngine) (b : Bullet)
  : GameEngine * Bullet :=
  if negb (active b) then (g, b)
  else if isPlayerBullet b
  then
    (* Check vs Enemies *)
    let '((g, b), es) := forEach (hitEnemy rt) (g, b) (enemies g) in
    (set_enemies es g, b)
  else
    (* Check vs Player *)
    if overlaps b (player g)
    then
      let b := onBullet (setActive false) b in
      let g := emit playExplosion g in
      let g := spawnParticles rt (x (player g) + width (player g) / 2)
                              (y (player g) + height (player g) / 2)
                              (color (player g)) 40 g in
      let g := set_state GAME_OVER g in
      let g := emit (onStateUpdate (state g)) g in
      (g, b)
    else (g, b).

Definition collisions (rt : Runtime) (g : GameEngine) : GameEngine :=
  let '(g, bs) := forEach (collideBullet rt) g (bullets g) in
  set_bullets bs g.

(** The callback of [this.particles.forEach]. *)
Definition tickParticle (p : Particle) : Particle :=
  let p := onParticle (setX (x p + dx p)) p in
  let p := onParticle (setY (y p + dy p)) p in
  let p := setLife (life p - 1)%Z p in
  (* Drag/Friction for physics feel *)
  let p := onParticle (setDx (dx p * 0.95)) p in
  let p := onParticle (setDy (dy p * 0.95)) p in
  (* Shrink over time *)
  let p := onParticle (setWidth (width p * 0.96)) p in
  if (life p <=? 0)%Z || Qltb (width p) 0.2
  then onParticle (setActive false) p else p.

Definition updateParticles (g : GameEngine) : GameEngine :=
  set_particles (map tickParticle (particles g)) g.

(** Cleanup arrays. *)
Definition cleanup (g : GameEngine) : GameEngine :=
  let g := set_bullets (List.filter (fun b : Bullet => active b) (bullets g)) g in
  set_particles (List.filter (fun p : Particle => active p) (particles g)) g.

(** PLAYING, up to and including the movement of the bullets. *)
Definition beforeEnemies (g : GameEngine) : GameEngine :=
  updateBullets (playerShoot (movePlayer g)).

(** PLAYING, from the victory test on. *)
Definition afterBullets (rt : Runtime) (multipliers : Multipliers)
    (g : GameEngine) : GameEngine :=
  match livingEnemies g with
  | [] =>
      let g := set_state VICTORY g in
      emit (onStateUpdate (state g)) g
  | _ :: _ =>
      cleanup (updateParticles (collisions rt (enemyLogic rt multipliers g)))
  end.

Definition update (rt : Runtime) (dt : Q) (g : GameEngine) : GameEngine :=
  match state g with
  | COUNTDOWN => updateCountdown dt g
  | PLAYING =>
      let multipliers := getDifficultyMultipliers g in
      afterBullets rt multipliers (beforeEnemies g)
  | START | GAME_OVER | VICTORY => g
  end.

(** ** The loop driver *)

(** One run of [loop]; [now] is the reading of [performance.now()]. *)
Definition loop (rt : Runtime) (now : Q) (g : GameEngine) : GameEngine :=
  let dt := now - lastFrameTime g in
  let g := set_lastFrameTime now g in
  let g := update rt dt g in
  let g := draw rt g in
  match state g with
  | PLAYING | COUNTDOWN => emit requestAnimationFrame g
  | GAME_OVER | VICTORY => draw rt g
  | START => g
  end.

(** [start]; [t0] and [t1] are the readings of [performance.now()] in
    [start] itself and in the run of [loop] that it makes. *)
Definition start (rt : Runtime) (d : Difficulty) (t0 t1 : Q)
    (g : GameEngine) : GameEngine :=
  let g := emit soundResume g in
  let g := set_difficulty d g in
  let g := set_state COUNTDOWN g in
  let g := emit (onStateUpdate (state g)) g in
  let g := set_score 0%Z g in
  let g := emit (onScoreUpdate (score g)) g in
  let g := resetEntities g in
  (* Init countdown *)
  let g := set_countdownValue 3%Z g in
  let g := set_countdownTimer 0 g in
  let g := set_lastFrameTime t0 g in
  loop rt t1 g.

(** The constructor, for a canvas of the given size. *)
Definition newGameEngine (canvasWidth canvasHeight : Q) : GameEngine :=
  {| gwidth := canvasWidth; gheight := canvasHeight; state := START;
     player :=
       mkPlayer
         (mkEntity (canvasWidth / 2 - 20) (canvasHeight - 60) 40 30 0 0
                   "#00ffff" true) 0%Z;
     enemies := []; bullets := []; particles := [];
     score := 0%Z; keys := ∅;
     enemyDirection := 1%Z; enemySpeed := 1; difficulty := HARD;
     countdownValue := 3%Z; lastFrameTime := 0; countdownTimer := 0;
     calls := []; rngPos := 0%nat |}.

(** ** Auxiliary definitions for the proofs *)

(** The fields that no step of PLAYING after the player's own moves
    writes. *)
Definition surroundings (g : GameEngine) :=
  (gwidth g, gheight g, player g, keys g, difficulty g,
   countdownValue g, lastFrameTime g, countdownTimer g).

(** What the collision loop leaves alone, besides the surroundings. *)
Definition formation (g : GameEngine) :=
  (surroundings g, enemyDirection g, enemySpeed g).

(** What the motion of the enemies leaves alone. *)
Definition tally (g : GameEngine) :=
  (surroundings g, score g, particles g).

(** [start] up to its call of [loop]. *)
Definition startSetup (d : Difficulty) (t0 : Q) (g : GameEngine) : GameEngine :=
  let g := emit soundResume g in
  let g := set_difficulty d g in
  let g := set_state COUNTDOWN g in
  let g := emit (onStateUpdate (state g)) g in
  let g := set_score 0%Z g in
  let g := emit (onScoreUpdate (score g)) g in
  let g := resetEntities g in
  let g := set_countdownValue 3%Z g in
  let g := set_countdownTimer 0 g in
  set_lastFrameTime t0 g.

(** A host for the examples: every [Math.random()] returns [r]; the
    trigonometric functions are crude stand-ins, on which no example
    depends. *)
Definition constantRuntime (r : Q) : Runtime :=
  mkRuntime (fun _ => r) (355 / 113) (fun a => 1 - a * a / 2) (fun a => a).

(** Bullets fired by enemies. *)
Definition enemyOwned (b : Bullet) : bool := negb (isPlayerBullet b).

(** A number that [Math.random()] can return. *)
Definition unitDraw (r : Q) : Prop := 0 <= r /\ r < 1.

(** What one round of [spawnParticles] builds from its draws: [u] for the
    angle, [v] for the speed, [c] for the colour test, [k] for the palette
    index (drawn only when the test passes) and [w] for the radius. *)
Definition spawnedBy (rt : Runtime) (px py : Q) (baseColor : string)
    (p : Particle) : Prop :=
  x p = px /\ y p = py /\ height p = 0 /\ active p = true
  /\ life p = 45%Z /\ maxLife p = 45%Z
  /\ exists u v c k w,
       unitDraw u /\ unitDraw v /\ unitDraw c /\ unitDraw k /\ unitDraw w
       /\ dx p = Math_cos rt (u * Math_PI rt * 2) * (v * 4 + 1)
       /\ dy p = Math_sin rt (u * Math_PI rt * 2) * (v * 4 + 1)
       /\ width p = w * 5 + 2
       /\ color p = (if Qltb 0.3 c then pickFireColor k else baseColor).






(** The engine at the moment [update] enters collision detection, in a
    call that gets that far. *)
Definition atCollisions (rt : Runtime) (g : GameEngine) : GameEngine :=
  enemyLogic rt (getDifficultyMultipliers g) (beforeEnemies g).

(** The height and the [active] flag of an enemy. *)
Definition standing (e : Enemy) : Q * bool := (y e, active e).

(** The height of an enemy after the descent of the formation. *)
Definition dropped (e : Enemy) : Q := if active e then y e + 20 else y e.

(** The enemies that the player bullet [b] hits, and what a hit leaves of
    an enemy. *)
Definition hitBy (b : Bullet) (e : Enemy) : bool := active e && overlaps b e.

Definition struck (b : Bullet) (e : Enemy) : Enemy :=
  if hitBy b e then onEnemy (setActive false) e else e.

(** The calls made for [k] hits in a row, from the score [s] on. *)
Fixpoint killCalls (s : Z) (k : nat) : list Call :=
  match k with
  | O => []
  | S k' =>
      playExplosion :: onScoreUpdate (s + 100) :: killCalls (s + 100) k'
  end.

(** The arguments of the calls of the score callback in a log. *)
Fixpoint scoreUpdates (cs : list Call) : list Z :=
  match cs with
  | [] => []
  | onScoreUpdate n :: cs' => n :: scoreUpdates cs'
  | _ :: cs' => scoreUpdates cs'
  end.

(** An engine in PLAYING whose formation stands at the left wall, moving
    left: the grid of [resetEntities] on a surface 400 wide starts at
    x = 0. *)
Definition wallState : GameEngine :=
  set_enemyDirection (-1)%Z
    (set_state PLAYING (resetEntities (newGameEngine 400 600))).

Definition cornerEnemy : Enemy := newEnemy ((400 - 8 * (30 + 20)) / 2) 0 0.

(** An engine in PLAYING with two overlapping enemies and one player
    bullet that, once moved, overlaps both. *)
Definition stackedEnemies : list Enemy :=
  [mkEnemy (mkEntity 100 100 30 20 0 0 "#39ff14" true) 0 0;
   mkEnemy (mkEntity 110 105 30 20 0 0 "#39ff14" true) 0 1].

Definition risingBullet (py : Q) : Bullet :=
  mkBullet (mkEntity 115 py 3 10 0 (- BULLET_SPEED) "#ff00ff" true) true.

Definition stackedState : GameEngine :=
  set_bullets [risingBullet 117]
    (set_enemies stackedEnemies (set_state PLAYING (newGameEngine 800 600))).

(** A session played up to PLAYING: [start], then three seconds. *)
Definition sessionEngine : GameEngine :=
  let rt := constantRuntime (1 / 2) in
  update rt 1000
    (update rt 1000 (update rt 1000 (start rt HARD 0 0 (newGameEngine 800 600)))).

(** An enemy bullet on its way down to the player of [sessionEngine],
    who stands at (380, 540) and is 40 by 30. *)
Definition enemyShot (py : Q) : Bullet :=
  mkBullet (mkEntity 390 py 3 10 0 (BULLET_SPEED / 1.5) "#ff3333" true) false.


(** Every enemy but the first, which is the one at (200, 60), shot down. *)
Definition lastEnemyStanding (es : list Enemy) : list Enemy :=
  match es with
  | [] => []
  | e :: es' => e :: map (onEnemy (setActive false)) es'
  end.

(** The session with one enemy left, a player bullet under it and an enemy
    bullet two moves away from the box of the player. *)
Definition lastEnemySession : GameEngine :=
  set_bullets
    [mkBullet (mkEntity 210 75 3 10 0 (- BULLET_SPEED) "#ff00ff" true) true;
     enemyShot 522]
    (set_enemies (lastEnemyStanding (enemies sessionEngine)) sessionEngine).

(** A run of [update] calls, one per elapsed time of [dts]. *)
Definition updates (rt : Runtime) (dts : list Q) (g : GameEngine) : GameEngine :=
  fold_left (fun h dt => update rt dt h) dts g.

(** The handler of [keydown] that the engine installs:
    [this.keys[e.code] = true]. *)
Definition keydown (code : string) (g : GameEngine) : GameEngine :=
  {| gwidth := gwidth g; gheight := gheight g; state := state g;
     player := player g; enemies := enemies g; bullets := bullets g;
     particles := particles g; score := score g;
     keys := <[code := true]> (keys g);
     enemyDirection := enemyDirection g; enemySpeed := enemySpeed g;
     difficulty := difficulty g; countdownValue := countdownValue g;
     lastFrameTime := lastFrameTime g; countdownTimer := countdownTimer g;
     calls := calls g; rngPos := rngPos g |}.

(** [lastEnemySession] one call later: the last enemy has just been shot
    down, the state is still PLAYING, and the enemy bullet and the
    particles of the explosion are in flight. *)
Definition clearedSession : GameEngine :=
  update (constantRuntime (1 / 2)) 16 lastEnemySession.

(** The session, formation intact, with the player 2 short of an end of its
    range and the key that moves it by 5 towards that end held: the range
    is [0, 760] on the surface 800 wide. *)
Definition rightEdgeSession : GameEngine :=
  keydown "ArrowRight"
    (set_player (onPlayer (setX 758) (player sessionEngine)) sessionEngine).

Definition leftEdgeSession : GameEngine :=
  keydown "KeyA"
    (set_player (onPlayer (setX 2) (player sessionEngine)) sessionEngine).

(** ** Auxiliary definitions for the further properties *)

(** The number of active enemies of a formation. *)
Definition activeCount (es : list Enemy) : nat :=
  length (List.filter (fun e : Enemy => active e) es).

(** The grid cell of an enemy, which nothing rewrites. *)
Definition gridCell (e : Enemy) : Z * Z := (row e, col e).

(** The number of calls of [playShoot] in a log. *)
Fixpoint shots (cs : list Call) : nat :=
  match cs with
  | [] => O
  | playShoot :: cs' => S (shots cs')
  | _ :: cs' => shots cs'
  end.

(** The condition on the keys under which the player fires. *)
Definition fireKeyDown (g : GameEngine) : bool :=
  keyDown g "Space" || keyDown g "ArrowUp" || keyDown g "KeyW".

(** [n] rounds of the particle loop on one particle. *)
Fixpoint ticks (n : nat) (p : Particle) : Particle :=
  match n with
  | O => p
  | S n' => ticks n' (tickParticle p)
  end.

(** What [update] never rewrites of an enemy: its grid cell, its size and
    its colour. *)
Definition enemyShape (e : Enemy) : Z * Z * Q * Q * string :=
  (row e, col e, width e, height e, color e).

(** [e'] is [e] at a later time: the same enemy, active only if [e] was. *)
Definition laterEnemy (e e' : Enemy) : Prop :=
  enemyShape e' = enemyShape e /\ (active e' = true -> active e = true).

(** The session with a single enemy that has come down to the player's
    line, far to the left of the player. *)
Definition landedEnemy : Enemy :=
  mkEnemy (mkEntity 10 520 30 20 0 0 "#39ff14" true) 3 0.

Definition landedSession : GameEngine :=
  set_enemies [landedEnemy] sessionEngine.

(** The bullet that the player fires: it leaves from the middle of the
    top edge of the ship. *)
Definition noseBullet (p : Player) : Bullet :=
  mkBullet
    (mkEntity (x p + width p / 2) (y p) 3 10 0 (- BULLET_SPEED) "#ff00ff" true)
    true.

(** Whether a call of [update] in PLAYING fires for the player. *)
Definition fires (g : GameEngine) : bool :=
  fireKeyDown g && (cooldown (player g) <=? 1)%Z.

(** A particle as it is a moment after its emission. *)
Definition freshSpark : Particle :=
  mkParticle (mkEntity 100 100 4.5 0 3 0 "#ffaa00" true) 45 45.

(** A particle whose radius is at the limit under which the particle loop
    drops it. *)
Definition dimSpark : Particle :=
  mkParticle (mkEntity 100 100 0.2 0 3 0 "#ffaa00" true) 45 45.

(** The bound under which a draw makes an enemy fire. *)
Definition fireThreshold (m : Multipliers) (g : GameEngine) : Q :=
  0.001 * (1 + inject_Z (score g) / 500) * freq m.

(** A bullet as an enemy fires it under the multipliers [m]. *)
Definition firedBy (m : Multipliers) (b : Bullet) : Prop :=
  isPlayerBullet b = false /\ active b = true
  /\ width b = 3 /\ height b = 10 /\ dx b = 0
  /\ dy b = (BULLET_SPEED / 1.5) * speed m.

(** The session with the fire key held. *)
Definition firingSession : GameEngine :=
  {| gwidth := gwidth sessionEngine; gheight := gheight sessionEngine;
     state := state sessionEngine; player := player sessionEngine;
     enemies := enemies sessionEngine; bullets := bullets sessionEngine;
     particles := particles sessionEngine; score := score sessionEngine;
     keys := <["Space"%string := true]> (keys sessionEngine);
     enemyDirection := enemyDirection sessionEngine;
     enemySpeed := enemySpeed sessionEngine;
     difficulty := difficulty sessionEngine;
     countdownValue := countdownValue sessionEngine;
     lastFrameTime := lastFrameTime sessionEngine;
     countdownTimer := countdownTimer sessionEngine;
     calls := calls sessionEngine; rngPos := rngPos sessionEngine |}.

(** The wall test of the enemy loop, made on an enemy once it has moved;
    [w] is the width of the surface, [s] and [d] the speed and the direction
    of the formation. *)
Definition touchesWall (w s : Q) (d : Z) (e : Enemy) : bool :=
  (Qleb (x e + s * inject_Z d) 0 && (d =? -1)%Z)
  || (Qleb w (x e + s * inject_Z d + width e) && (d =? 1)%Z).

(** Whether some active enemy touches a wall in this call. *)
Definition formationTouchesWall (g : GameEngine) : bool :=
  existsb (fun e : Enemy =>
             active e
             && touchesWall (gwidth g) (enemySpeed g) (enemyDirection g) e)
          (enemies g).

(** Where the enemy loop and the descent leave an enemy. *)
Definition marched (g : GameEngine) (e : Enemy) : Q * Q :=
  if active e
  then (x e + enemySpeed g * inject_Z (enemyDirection g),
        if formationTouchesWall g then y e + ENEMY_DROP else y e)
  else (x e, y e).

(** The position of an enemy. *)
Definition place (e : Enemy) : Q * Q := (x e, y e).

(** The grid that [resetEntities] builds on a surface of width [w]. *)
Definition grid (w : Q) : list Enemy :=
  flat_map (fun r => map (fun c => newEnemy ((w - 8 * (30 + 20)) / 2) r c)
                         (seq 0 8))
           (seq 0 4).

(** An enemy as [resetEntities] places it on a surface of width [w]. *)
Definition wellPlaced (w : Q) (e : Enemy) : Prop :=
  active e = true /\ width e = 30 /\ height e = 20
  /\ 60 <= y e /\ y e + height e <= 200
  /\ (400 <= w -> 0 <= x e /\ x e + width e <= w).

(** The movement keys as numbers: 1 when a key of the pair is held. *)
Definition leftHeld (g : GameEngine) : Q :=
  if keyDown g "ArrowLeft" || keyDown g "KeyA" then 1 else 0.
Definition rightHeld (g : GameEngine) : Q :=
  if keyDown g "ArrowRight" || keyDown g "KeyD" then 1 else 0.

(** The bullet that the enemy [e] fires when the formation moves with
    speed [s] in direction [d]: it leaves from the middle of the bottom
    edge of the enemy, once the enemy has moved. *)
Definition muzzleBullet (m : Multipliers) (s : Q) (d : Z) (e : Enemy) : Bullet :=
  mkBullet
    (mkEntity (x e + s * inject_Z d + width e / 2) (y e + height e) 3 10 0
              ((BULLET_SPEED / 1.5) * speed m) "#ff3333" true)
    false.

(** [b] is a bullet that an active enemy of [g] fires in a call of [update]
    on [g]. *)
Definition shotFrom (m : Multipliers) (g : GameEngine) (b : Bullet) : Prop :=
  exists e : Enemy,
    In e (enemies g) /\ active e = true
    /\ b = muzzleBullet m (enemySpeed g) (enemyDirection g) e.

(** [b] is a bullet that a call of [update] on [g] has moved, a bullet of
    [g] or the one the player fires in the call, and it lies vertically on
    the surface. *)
Definition movedOnSurface (g : GameEngine) (b : Bullet) : Prop :=
  (0 <= y b /\ y b <= gheight g)
  /\ exists b0 : Bullet,
       b = moveBullet (gheight g) b0
       /\ (In b0 (bullets g) \/ b0 = noseBullet (player (movePlayer g))).

(** The session with four bullets in flight: a player bullet in mid-field
    and one about to leave through the top, an enemy bullet in mid-field
    and one about to leave through the bottom of the surface, 600 high. *)
Definition crossfireSession : GameEngine :=
  set_bullets
    [mkBullet (mkEntity 400 300 3 10 0 (- BULLET_SPEED) "#ff00ff" true) true;
     mkBullet (mkEntity 400 3 3 10 0 (- BULLET_SPEED) "#ff00ff" true) true;
     mkBullet (mkEntity 100 400 3 10 0 (BULLET_SPEED / 1.5) "#ff3333" true)
              false;
     mkBullet (mkEntity 100 598 3 10 0 (BULLET_SPEED / 1.5) "#ff3333" true)
              false]
    sessionEngine.

(** What the purge of [update] leaves of a bullet that is active: one that
    an enemy has fired in the call, or one that the call has moved and that
    lies on the surface. *)
Definition bulletInPlay (m : Multipliers) (g : GameEngine) (b : Bullet) : Prop :=
  active b = true -> shotFrom m g b \/ movedOnSurface g b.

(** ** The component (components/NeonInvaders.tsx) *)

(** [handleResize]: the surface is the window less a margin of 32, at most
    800 by 600; the component paints itself only when the loop is not
    running. *)
Definition handleResize (rt : Runtime) (innerWidth innerHeight : Q)
    (g : GameEngine) : GameEngine :=
  let maxWidth := Qmin (innerWidth - 32) 800 in
  let maxHeight := Qmin (innerHeight - 32) 600 in
  let g := resize maxWidth maxHeight g in
  match state g with
  | PLAYING | COUNTDOWN => g
  | _ => draw rt g
  end.

(** The effect that keeps the high score: its result is the new value of
    [highScore] and what it writes to the local storage, if anything. *)
Definition highScoreEffect (gameState : GameState) (score highScore : Z)
  : Z * option Z :=
  match gameState with
  | GAME_OVER | VICTORY =>
      if (highScore <? score)%Z then (score, Some score) else (highScore, None)
  | _ => (highScore, None)
  end.

(** * Properties *)

(** ** Numbers *)

Lemma Qltb_lt a b : Qltb a b = true <-> a < b.
Proof.
  unfold Qltb. rewrite negb_true_iff, <- not_true_iff_false, Qle_bool_iff.
  split; [apply Qnot_le_lt | apply Qlt_not_le].
Qed.

Lemma Qltb_ge a b : Qltb a b = false <-> b <= a.
Proof.
  unfold Qltb. rewrite negb_false_iff. apply Qle_bool_iff.
Qed.

Lemma Qleb_le a b : Qleb a b = true <-> a <= b.
Proof. apply Qle_bool_iff. Qed.

Lemma Qleb_gt a b : Qleb a b = false <-> b < a.
Proof.
  unfold Qleb. rewrite <- not_true_iff_false, Qle_bool_iff.
  split; [apply Qnot_le_lt | apply Qlt_not_le].
Qed.

Lemma Qmax_min_clamp (lo hi v : Q) :
  lo <= hi -> lo <= Qmax lo (Qmin hi v) /\ Qmax lo (Qmin hi v) <= hi.
Proof.
  intros Hlh. split.
  - apply Q.le_max_l.
  - apply Q.max_lub; [exact Hlh | apply Q.le_min_l].
Qed.

(** ** What the steps leave alone *)

Lemma forEach_inv {S A : Type} (P : S -> Prop) (f : S -> A -> S * A) :
  (forall s a, P s -> P (fst (f s a))) ->
  forall l s, P s -> P (fst (forEach f s l)).
Proof.
  intros Hf l. induction l as [|a l IH]; intros s Hs; simpl; [exact Hs|].
  specialize (Hf s a Hs). destruct (f s a) as [s1 a'].
  specialize (IH s1 Hf). destruct (forEach f s1 l) as [s2 l'']. exact IH.
Qed.

Lemma forEach_length {S A : Type} (f : S -> A -> S * A) l s :
  length (snd (forEach f s l)) = length l.
Proof.
  revert s. induction l as [|a l IH]; intros s; simpl; [reflexivity|].
  destruct (f s a) as [s1 a']. specialize (IH s1).
  destruct (forEach f s1 l) as [s2 l'']. simpl in *. now rewrite IH.
Qed.

(** The emitter appends to [particles] and advances [rngPos], nothing
    else. *)
Lemma spawnParticle_shape rt px py base g :
  exists p n,
    spawnParticle rt px py base g
    = set_rngPos n (set_particles (particles g ++ [p]) g).
Proof.
  unfold spawnParticle, Math_random. cbn.
  destruct (Qltb 0.3 (randomAt rt (S (S (rngPos g))))); cbn;
    eexists; eexists; reflexivity.
Qed.

Lemma spawnParticles_shape rt px py base count g :
  exists new n,
    spawnParticles rt px py base count g
    = set_rngPos n (set_particles (particles g ++ new) g)
    /\ length new = count.
Proof.
  revert g. induction count as [|k IH]; intros g; simpl.
  - exists [], (rngPos g). rewrite app_nil_r. destruct g; split; reflexivity.
  - destruct (spawnParticle_shape rt px py base g) as (p & n & ->).
    destruct (IH (set_rngPos n (set_particles (particles g ++ [p]) g)))
      as (new & n' & -> & Hlen).
    exists (p :: new), n'. cbn. rewrite <- app_assoc. cbn.
    split; [reflexivity | now rewrite Hlen].
Qed.

#[global] Arguments spawnParticles : simpl never.

Lemma spawnParticles_formation rt px py base count g :
  formation (spawnParticles rt px py base count g) = formation g.
Proof.
  destruct (spawnParticles_shape rt px py base count g) as (new & n & -> & _).
  reflexivity.
Qed.

Lemma hitEnemy_formation rt s e :
  formation (fst (fst (hitEnemy rt s e))) = formation (fst s).
Proof.
  destruct s as [g b]. unfold hitEnemy.
  destruct (negb (active e)); [reflexivity|].
  destruct (overlaps b e); [|reflexivity].
  match goal with |- context [spawnParticles ?r ?a ?b ?c ?n ?h] =>
    destruct (spawnParticles_shape r a b c n h) as (new & k & -> & _) end.
  reflexivity.
Qed.

Lemma collideBullet_formation rt g b :
  formation (fst (collideBullet rt g b)) = formation g.
Proof.
  unfold collideBullet.
  destruct (negb (active b)); [reflexivity|].
  destruct (isPlayerBullet b).
  - pose proof (forEach_inv (fun s => formation (fst s) = formation g)
                  (hitEnemy rt)) as H.
    specialize (H ltac:(intros s a Hs; cbv beta in *; now rewrite hitEnemy_formation)
                  (enemies g) (g, b) eq_refl).
    destruct (forEach (hitEnemy rt) (g, b) (enemies g)) as [[g' b'] es].
    cbn in *. rewrite <- H. reflexivity.
  - destruct (overlaps b (player g)); [|reflexivity].
    match goal with |- context [spawnParticles ?r ?a ?b ?c ?n ?h] =>
      destruct (spawnParticles_shape r a b c n h) as (new & k & -> & _) end.
    reflexivity.
Qed.

Lemma collisions_formation rt g :
  formation (collisions rt g) = formation g.
Proof.
  unfold collisions.
  pose proof (forEach_inv (fun s => formation s = formation g)
                (collideBullet rt)) as H.
  specialize (H ltac:(intros s a Hs; cbv beta in *; now rewrite collideBullet_formation)
                (bullets g) g eq_refl).
  destruct (forEach (collideBullet rt) g (bullets g)) as [g' bs].
  cbn in *. rewrite <- H. reflexivity.
Qed.

Lemma enemyTick_frame rt m s e :
  (tally (fst (fst (enemyTick rt m s e))),
   enemyDirection (fst (fst (enemyTick rt m s e))),
   enemySpeed (fst (fst (enemyTick rt m s e))))
  = (tally (fst s), enemyDirection (fst s), enemySpeed (fst s)).
Proof.
  destruct s as [g hw]. unfold enemyTick, Math_random, emit. cbn.
  repeat match goal with |- context [if ?c then _ else _] => destruct c end;
    reflexivity.
Qed.

Lemma enemyLoop_frame rt m g hw es :
  let g' := fst (fst (forEach (onLiving (enemyTick rt m)) (g, hw) es)) in
  tally g' = tally g /\ enemyDirection g' = enemyDirection g
  /\ enemySpeed g' = enemySpeed g.
Proof.
  pose proof (forEach_inv
    (fun s => (tally (fst s), enemyDirection (fst s), enemySpeed (fst s))
              = (tally g, enemyDirection g, enemySpeed g))
    (onLiving (enemyTick rt m))) as H.
  assert (Hstep : forall s a,
    (tally (fst s), enemyDirection (fst s), enemySpeed (fst s))
      = (tally g, enemyDirection g, enemySpeed g) ->
    (tally (fst (fst (onLiving (enemyTick rt m) s a))),
     enemyDirection (fst (fst (onLiving (enemyTick rt m) s a))),
     enemySpeed (fst (fst (onLiving (enemyTick rt m) s a))))
      = (tally g, enemyDirection g, enemySpeed g)).
  { intros s a Hs. unfold onLiving. destruct (active a); [|exact Hs].
    now rewrite enemyTick_frame. }
  specialize (H Hstep es (g, hw) eq_refl). cbv beta zeta in *.
  unfold tally, surroundings in *. repeat split; congruence.
Qed.

Lemma enemyLogic_tally rt m g : tally (enemyLogic rt m g) = tally g.
Proof.
  unfold enemyLogic.
  pose proof (enemyLoop_frame rt m g false (enemies g)) as (H & _ & _).
  destruct (forEach (onLiving (enemyTick rt m)) (g, false) (enemies g))
    as [[g' hw] es].
  cbn in H. destruct hw; cbn; rewrite <- H; reflexivity.
Qed.

Lemma collisions_surroundings rt g :
  surroundings (collisions rt g) = surroundings g.
Proof.
  pose proof (collisions_formation rt g) as H.
  unfold formation in H. congruence.
Qed.

Lemma enemyLogic_surroundings rt m g :
  surroundings (enemyLogic rt m g) = surroundings g.
Proof.
  pose proof (enemyLogic_tally rt m g) as H.
  unfold tally in H. congruence.
Qed.

Lemma afterBullets_surroundings rt m g :
  surroundings (afterBullets rt m g) = surroundings g.
Proof.
  unfold afterBullets. destruct (livingEnemies g); [reflexivity|].
  change (surroundings (collisions rt (enemyLogic rt m g)) = surroundings g).
  now rewrite collisions_surroundings, enemyLogic_surroundings.
Qed.

(** ** The countdown *)

Lemma update_countdown_wait rt dt g :
  state g = COUNTDOWN -> countdownTimer g + dt < 1000 ->
  update rt dt g = set_countdownTimer (countdownTimer g + dt) g.
Proof.
  intros Hs Hlt. unfold update, updateCountdown. rewrite Hs.
  cbv beta zeta.
  replace (countdownTimer (set_countdownTimer (countdownTimer g + dt) g))
    with (countdownTimer g + dt) by reflexivity.
  apply Qleb_gt in Hlt. now rewrite Hlt.
Qed.

Lemma update_countdown_tick rt dt g :
  state g = COUNTDOWN -> 1000 <= countdownTimer g + dt ->
  update rt dt g =
    let g1 := set_countdownTimer 0
                (set_countdownValue (countdownValue g - 1)%Z g) in
    if (countdownValue g - 1 <=? 0)%Z
    then emit (onStateUpdate PLAYING) (set_state PLAYING g1)
    else g1.
Proof.
  intros Hs Hge. unfold update, updateCountdown. rewrite Hs.
  cbv beta zeta.
  replace (countdownTimer (set_countdownTimer (countdownTimer g + dt) g))
    with (countdownTimer g + dt) by reflexivity.
  apply Qleb_le in Hge. rewrite Hge.
  destruct g; reflexivity.
Qed.

Lemma draw_countdown rt g :
  state (draw rt g) = state g
  /\ countdownValue (draw rt g) = countdownValue g
  /\ countdownTimer (draw rt g) = countdownTimer g
  /\ calls (draw rt g) = calls g ++ [paint].
Proof.
  unfold draw, Math_random.
  destruct (state g) eqn:Hs; cbv beta iota zeta;
    try (destruct (Qltb 0.2 (randomAt rt (rngPos g))));
    cbn [state countdownValue countdownTimer calls emit set_calls set_rngPos
         snd fst]; rewrite ?Hs; auto.
Qed.

Lemma start_loop rt d t0 t1 g :
  start rt d t0 t1 g = loop rt t1 (startSetup d t0 g).
Proof. reflexivity. Qed.

Lemma loop_countdown_wait rt now g :
  state g = COUNTDOWN ->
  countdownTimer g + (now - lastFrameTime g) < 1000 ->
  let g' := loop rt now g in
  state g' = COUNTDOWN /\ countdownValue g' = countdownValue g
  /\ countdownTimer g' = countdownTimer g + (now - lastFrameTime g).
Proof.
  intros Hs Hlt. unfold loop. cbv zeta.
  set (gs := set_lastFrameTime now g).
  assert (Hst : state gs = COUNTDOWN) by exact Hs.
  rewrite (update_countdown_wait rt _ gs Hst) by exact Hlt.
  set (gu := set_countdownTimer _ gs).
  destruct (draw_countdown rt gu) as (Ds & Dv & Dt & _).
  assert (Hus : state gu = COUNTDOWN) by exact Hs.
  rewrite Ds, Hus. cbn [state countdownValue countdownTimer emit set_calls].
  rewrite Dv, Dt. split; [congruence | split; reflexivity].
Qed.

Lemma start_countdown rt d t0 t1 g :
  t0 <= t1 -> t1 < t0 + 1000 ->
  let g0 := start rt d t0 t1 g in
  state g0 = COUNTDOWN /\ countdownValue g0 = 3%Z
  /\ countdownTimer g0 = 0 + (t1 - t0).
Proof.
  intros H0 H1. cbv zeta. rewrite start_loop.
  apply (loop_countdown_wait rt t1 (startSetup d t0 g) eq_refl).
  change (0 + (t1 - t0) < 1000). lra.
Qed.

Lemma countdown_step rt dt g :
  state g = COUNTDOWN -> 1000 <= countdownTimer g + dt ->
  let g' := update rt dt g in
  countdownValue g' = (countdownValue g - 1)%Z /\ countdownTimer g' = 0
  /\ (if (countdownValue g - 1 <=? 0)%Z
      then state g' = PLAYING /\ calls g' = calls g ++ [onStateUpdate PLAYING]
      else state g' = COUNTDOWN /\ calls g' = calls g).
Proof.
  intros Hs Hge. cbv zeta. rewrite (update_countdown_tick rt dt g Hs Hge).
  cbv zeta. destruct (countdownValue g - 1 <=? 0)%Z; cbn; auto.
Qed.

(** C4.  [start(difficulty)] leaves [countdownValue] at 3 and the state
    COUNTDOWN; three calls [update(1000)] after it end in PLAYING, and the
    state callback is invoked with PLAYING in the third call, the one in
    which the counter reaches 0, and in no other.  The two readings [t0],
    [t1] of the clock made by [start] and by its first run of [loop] are
    less than a second apart. *)
Theorem start_then_three_seconds rt d t0 t1 g :
  t0 <= t1 -> t1 < t0 + 1000 ->
  let g0 := start rt d t0 t1 g in
  let g1 := update rt 1000 g0 in
  let g2 := update rt 1000 g1 in
  let g3 := update rt 1000 g2 in
  (countdownValue g0 = 3%Z /\ state g0 = COUNTDOWN)
  /\ (countdownValue g1 = 2%Z /\ state g1 = COUNTDOWN /\ calls g1 = calls g0)
  /\ (countdownValue g2 = 1%Z /\ state g2 = COUNTDOWN /\ calls g2 = calls g0)
  /\ (countdownValue g3 = 0%Z /\ state g3 = PLAYING
      /\ calls g3 = calls g0 ++ [onStateUpdate PLAYING]).
Proof.
  intros H0 H1.
  destruct (start_countdown rt d t0 t1 g H0 H1) as (S0 & V0 & T0).
  cbv zeta. set (g0 := start rt d t0 t1 g) in *.
  assert (G0 : 1000 <= countdownTimer g0 + 1000) by (rewrite T0; lra).
  destruct (countdown_step rt 1000 g0 S0 G0) as (V1 & T1 & E1).
  rewrite V0 in V1, E1. cbn in V1, E1. destruct E1 as [S1 C1].
  set (g1 := update rt 1000 g0) in *.
  assert (G1 : 1000 <= countdownTimer g1 + 1000) by (rewrite T1; lra).
  destruct (countdown_step rt 1000 g1 S1 G1) as (V2 & T2 & E2).
  rewrite V1 in V2, E2. cbn in V2, E2. destruct E2 as [S2 C2].
  set (g2 := update rt 1000 g1) in *.
  assert (G2 : 1000 <= countdownTimer g2 + 1000) by (rewrite T2; lra).
  destruct (countdown_step rt 1000 g2 S2 G2) as (V3 & T3 & E3).
  rewrite V2 in V3, E3. cbn in V3, E3. destruct E3 as [S3 C3].
  repeat split; try assumption; congruence.
Qed.

Lemma start_then_three_seconds_witness :
  let rt := constantRuntime (1 / 2) in
  let g0 := start rt HARD 0 0 (newGameEngine 800 600) in
  countdownValue g0 = 3%Z /\ state g0 = COUNTDOWN
  /\ state (update rt 1000 (update rt 1000 (update rt 1000 g0))) = PLAYING.
Proof.
  pose proof (start_then_three_seconds (constantRuntime (1 / 2)) HARD 0 0
                (newGameEngine 800 600)) as H.
  cbv zeta in *.
  destruct H as ((V0 & S0) & _ & _ & (_ & S3 & _)); [lra | lra |].
  auto.
Defined.

Lemma update_idle rt dt g :
  state g = START \/ state g = GAME_OVER \/ state g = VICTORY ->
  update rt dt g = g.
Proof.
  intros [H | [H | H]]; unfold update; rewrite H; reflexivity.
Qed.

(** C8.  In START, GAME_OVER and VICTORY, [update] returns the engine as it
    was given: every field, the log of callback and sound calls and the
    position in the random source included. *)
Theorem update_idle_is_identity rt dt g :
  state g = START \/ state g = GAME_OVER \/ state g = VICTORY ->
  update rt dt g = g.
Proof. apply update_idle. Qed.

Lemma update_idle_is_identity_witness :
  update (constantRuntime (1 / 2)) 16 (newGameEngine 800 600)
  = newGameEngine 800 600.
Proof.
  apply update_idle_is_identity. left. reflexivity.
Defined.

(** C9.  In COUNTDOWN one call of [update] lowers [countdownValue] by at
    most one, whatever [deltaTimeMs] is, and when it does the accumulated
    timer is set to 0; while the counter stays positive the state stays
    COUNTDOWN and no callback is invoked.  A single [update(3000)] on a
    countdown at 3 leaves it at 2, in COUNTDOWN. *)
Theorem countdown_decrements_at_most_once rt dt g :
  state g = COUNTDOWN ->
  let g' := update rt dt g in
  ((countdownValue g' = countdownValue g
    /\ countdownTimer g' = countdownTimer g + dt)
   \/ (countdownValue g' = (countdownValue g - 1)%Z
       /\ countdownTimer g' = 0))
  /\ ((1 < countdownValue g)%Z ->
      state g' = COUNTDOWN /\ calls g' = calls g)
  /\ (dt = 3000 -> countdownValue g = 3%Z -> 0 <= countdownTimer g ->
      countdownValue g' = 2%Z /\ state g' = COUNTDOWN).
Proof.
  intros Hs. cbv zeta.
  destruct (Qlt_le_dec (countdownTimer g + dt) 1000) as [Hlt | Hge].
  - rewrite (update_countdown_wait rt dt g Hs Hlt).
    split; [left; split; reflexivity|].
    split; [intros _; split; [exact Hs | reflexivity]|].
    intros -> _ Hpos. exfalso. lra.
  - destruct (countdown_step rt dt g Hs Hge) as (V & T & E).
    split; [right; split; assumption|].
    split.
    + intros Hcv.
      destruct (countdownValue g - 1 <=? 0)%Z eqn:Hz; [lia | exact E].
    + intros _ Hcv _. rewrite Hcv in V, E. cbn in V, E.
      split; [exact V | apply E].
Qed.

Lemma countdown_decrements_at_most_once_witness :
  let rt := constantRuntime (1 / 2) in
  let g := start rt HARD 0 0 (newGameEngine 800 600) in
  countdownValue (update rt 3000 g) = 2%Z
  /\ state (update rt 3000 g) = COUNTDOWN.
Proof.
  cbv zeta.
  pose proof (countdown_decrements_at_most_once (constantRuntime (1 / 2)) 3000
                (start (constantRuntime (1 / 2)) HARD 0 0
                       (newGameEngine 800 600)) eq_refl) as (_ & _ & H).
  apply H; [reflexivity | reflexivity | vm_compute; discriminate].
Defined.

(** ** The player's own moves *)

Lemma movePlayer_shape g :
  exists v,
    movePlayer g =
    set_player
      (onPlayer (setX (Qmax 0 (Qmin (gwidth g - width (player g)) v)))
                (player g)) g.
Proof.
  unfold movePlayer.
  destruct (keyDown g "ArrowLeft" || keyDown g "KeyA");
    cbv zeta;
    match goal with |- context [if ?c then _ else _] =>
      let b := fresh "b" in
      assert (exists b, c = b) as [b ->] by (eexists; reflexivity);
      destruct b
    end;
    eexists; reflexivity.
Qed.

Lemma playerShoot_shape g :
  exists cd bs cs,
    playerShoot g =
    set_player (setCooldown cd (player g)) (set_calls cs (set_bullets bs g))
    /\ ((bs = bullets g /\ cs = calls g)
        \/ (exists b, bs = bullets g ++ [b] /\ isPlayerBullet b = true
                      /\ cs = calls g ++ [playShoot])).
Proof.
  unfold playerShoot.
  destruct (0 <? cooldown (player g))%Z; cbv zeta;
    match goal with |- context [if ?c then _ else _] =>
      let b := fresh "b" in
      assert (exists b, c = b) as [b ->] by (eexists; reflexivity);
      destruct b
    end.
  1,3: eexists; eexists; eexists; split;
       [reflexivity | right; eexists; repeat split; reflexivity].
  - exists (cooldown (player g) - 1)%Z, (bullets g), (calls g).
    split; [destruct g; reflexivity | left; split; reflexivity].
  - exists (cooldown (player g)), (bullets g), (calls g).
    split; [destruct g as [? ? ? [? ?]]; reflexivity | left; split; reflexivity].
Qed.

Lemma beforeEnemies_shape g :
  exists v cd bs cs,
    beforeEnemies g =
    set_player
      (mkPlayer (setX (Qmax 0 (Qmin (gwidth g - width (player g)) v))
                      (player g)) cd)
      (set_calls cs (set_bullets (map (moveBullet (gheight g)) bs) g))
    /\ ((bs = bullets g /\ cs = calls g)
        \/ (exists b, bs = bullets g ++ [b] /\ isPlayerBullet b = true
                      /\ cs = calls g ++ [playShoot])).
Proof.
  unfold beforeEnemies, updateBullets.
  destruct (movePlayer_shape g) as (v & ->).
  match goal with |- context [playerShoot ?h] =>
    destruct (playerShoot_shape h) as (cd & bs & cs & -> & H) end.
  exists v, cd, bs, cs. split; [reflexivity | exact H].
Qed.

Lemma update_playing rt dt g :
  state g = PLAYING ->
  update rt dt g
  = afterBullets rt (getDifficultyMultipliers g) (beforeEnemies g).
Proof. intros H. unfold update. now rewrite H. Qed.

(** C7.  After a call of [update] made in PLAYING the player's [x] is in
    [0, width - player.width], whatever keys are held, provided the surface
    is at least as wide as the player; the call changes neither width. *)
Theorem player_stays_on_surface rt dt g :
  state g = PLAYING ->
  width (player g) <= gwidth g ->
  let g' := update rt dt g in
  0 <= x (player g')
  /\ x (player g') <= gwidth g' - width (player g')
  /\ gwidth g' = gwidth g /\ width (player g') = width (player g).
Proof.
  intros Hs Hw. cbv zeta. rewrite (update_playing rt dt g Hs).
  pose proof (afterBullets_surroundings rt (getDifficultyMultipliers g)
                (beforeEnemies g)) as Hsur.
  destruct (beforeEnemies_shape g) as (v & cd & bs & cs & Hb & _).
  rewrite Hb in Hsur. unfold surroundings in Hsur. cbn in Hsur.
  injection Hsur as Hgw _ Hpl _ _ _ _ _. rewrite <- Hb in Hgw, Hpl.
  rewrite Hgw, Hpl. cbn.
  assert (Hlo : 0 <= gwidth g - width (player g)) by lra.
  destruct (Qmax_min_clamp 0 (gwidth g - width (player g)) v Hlo) as [A B].
  repeat split; assumption.
Qed.

Lemma player_stays_on_surface_witness :
  let rt := constantRuntime (1 / 2) in
  let r := update rt 16 rightEdgeSession in
  let l := update rt 16 leftEdgeSession in
  (state rightEdgeSession = PLAYING
   /\ width (player rightEdgeSession) <= gwidth rightEdgeSession
   /\ keyDown rightEdgeSession "ArrowRight" = true
   /\ forallb (fun e : Enemy => active e) (enemies rightEdgeSession) = true
   /\ length (enemies rightEdgeSession) = 32%nat
   /\ x (player rightEdgeSession) == 758
   /\ x (player r) == 760 /\ state r = PLAYING
   /\ 0 <= x (player r) /\ x (player r) <= gwidth r - width (player r))
  /\ (state leftEdgeSession = PLAYING
      /\ width (player leftEdgeSession) <= gwidth leftEdgeSession
      /\ keyDown leftEdgeSession "KeyA" = true
      /\ x (player leftEdgeSession) == 2
      /\ x (player l) == 0 /\ state l = PLAYING
      /\ 0 <= x (player l) /\ x (player l) <= gwidth l - width (player l)).
Proof.
  cbv zeta.
  assert (Hsr : state rightEdgeSession = PLAYING) by (vm_compute; reflexivity).
  assert (Hwr : width (player rightEdgeSession) <= gwidth rightEdgeSession)
    by (vm_compute; discriminate).
  assert (Hsl : state leftEdgeSession = PLAYING) by (vm_compute; reflexivity).
  assert (Hwl : width (player leftEdgeSession) <= gwidth leftEdgeSession)
    by (vm_compute; discriminate).
  destruct (player_stays_on_surface (constantRuntime (1 / 2)) 16
              rightEdgeSession Hsr Hwr) as (A & B & _).
  destruct (player_stays_on_surface (constantRuntime (1 / 2)) 16
              leftEdgeSession Hsl Hwl) as (C & D & _).
  split.
  - split; [exact Hsr|]. split; [exact Hwr|].
    split; [vm_compute; reflexivity|]. split; [vm_compute; reflexivity|].
    split; [vm_compute; reflexivity|]. split; [vm_compute; reflexivity|].
    split; [vm_compute; reflexivity|]. split; [vm_compute; reflexivity|].
    split; [exact A | exact B].
  - split; [exact Hsl|]. split; [exact Hwl|].
    split; [vm_compute; reflexivity|]. split; [vm_compute; reflexivity|].
    split; [vm_compute; reflexivity|]. split; [vm_compute; reflexivity|].
    split; [exact C | exact D].
Defined.

(** ** [resize] *)

Lemma resize_effect w h g :
  let g' := resize w h g in
  gwidth g' = w /\ gheight g' = h /\ y (player g') = h - 60
  /\ (w < x (player g) -> x (player g') = w - width (player g))
  /\ (x (player g) <= w -> x (player g') = x (player g)).
Proof.
  cbv zeta. unfold resize. cbv zeta.
  replace (Qltb (gwidth (set_gheight h (set_gwidth w g)))
                (x (player (set_gheight h (set_gwidth w g)))))
    with (Qltb w (x (player g))) by reflexivity.
  destruct (Qltb w (x (player g))) eqn:E.
  - apply Qltb_lt in E. repeat split; try reflexivity.
    intros Hle. exfalso. lra.
  - apply Qltb_ge in E. repeat split; try reflexivity.
    intros Hlt. exfalso. lra.
Qed.

(** C2.  In a session started on an 800 by 600 surface the player stands
    at x = 380 and is 40 wide.  [resize(400, 600)] sets the dimensions and
    y = 540, but leaves x at 380, beyond [width - player.width] = 360: the
    guard of [resize] compares x with the width, not with the width less
    the player's. *)
Theorem resize_leaves_player_overhanging :
  let g' := resize 400 600 sessionEngine in
  x (player sessionEngine) == 380
  /\ gwidth g' = 400 /\ gheight g' = 600
  /\ y (player g') == 540
  /\ x (player g') == 380
  /\ ~ x (player g') <= gwidth g' - width (player g').
Proof.
  cbv zeta.
  split; [vm_compute; reflexivity|].
  split; [reflexivity|]. split; [reflexivity|].
  split; [vm_compute; reflexivity|].
  split; [vm_compute; reflexivity|].
  vm_compute. intros H. apply H. reflexivity.
Qed.

(** ** Victory *)

Lemma no_living_enemies (es : list Enemy) :
  Forall (fun e : Enemy => active e = false) es ->
  List.filter (fun e : Enemy => active e) es = [].
Proof.
  induction 1 as [|e es He _ IH]; simpl; [reflexivity|].
  now rewrite He.
Qed.

Lemma moveBullet_owner h b : isPlayerBullet (moveBullet h b) = isPlayerBullet b.
Proof.
  unfold moveBullet. cbv zeta.
  match goal with |- context [if ?c then _ else _] => destruct c end;
    reflexivity.
Qed.

Lemma enemyOwned_moved h bs :
  List.filter enemyOwned (map (moveBullet h) bs)
  = map (moveBullet h) (List.filter enemyOwned bs).
Proof.
  induction bs as [|b bs IH]; simpl; [reflexivity|].
  assert (E : enemyOwned (moveBullet h b) = enemyOwned b)
    by (unfold enemyOwned; now rewrite moveBullet_owner).
  rewrite E. destruct (enemyOwned b); simpl; now rewrite IH.
Qed.

(** C3.  If every enemy is inactive when [update] is called in PLAYING,
    the call sets the state to VICTORY and invokes the state callback with
    VICTORY as its last act; the only enemy-owned bullets after it are the
    ones there were before, moved; no [Math.random()] is drawn, and the
    enemies, their speed and direction, the score and the particles are as
    they were. *)
Theorem cleared_formation_is_victory rt dt g :
  state g = PLAYING ->
  Forall (fun e : Enemy => active e = false) (enemies g) ->
  let g' := update rt dt g in
  state g' = VICTORY
  /\ (calls g' = calls g ++ [onStateUpdate VICTORY]
      \/ calls g' = calls g ++ [playShoot; onStateUpdate VICTORY])
  /\ List.filter enemyOwned (bullets g')
     = map (moveBullet (gheight g)) (List.filter enemyOwned (bullets g))
  /\ rngPos g' = rngPos g /\ enemies g' = enemies g
  /\ enemyDirection g' = enemyDirection g /\ enemySpeed g' = enemySpeed g
  /\ score g' = score g /\ particles g' = particles g.
Proof.
  intros Hs Hdead. cbv zeta. rewrite (update_playing rt dt g Hs).
  destruct (beforeEnemies_shape g) as (v & cd & bs & cs & -> & Hshot).
  unfold afterBullets, livingEnemies.
  cbn [enemies set_player set_calls set_bullets].
  rewrite (no_living_enemies _ Hdead). cbv zeta.
  cbn [state calls bullets rngPos enemies enemyDirection enemySpeed score
       particles emit set_state set_calls set_player set_bullets].
  split; [reflexivity|].
  destruct Hshot as [[-> ->] | (b & -> & Hb & ->)].
  - repeat split; [now left | apply enemyOwned_moved].
  - repeat split.
    + right. now rewrite <- app_assoc.
    + rewrite enemyOwned_moved. f_equal.
      rewrite List.filter_app. simpl.
      assert (E : enemyOwned b = false) by (unfold enemyOwned; now rewrite Hb).
      rewrite E. apply app_nil_r.
Qed.

Lemma cleared_formation_is_victory_witness :
  let g := clearedSession in
  let g' := update (constantRuntime (1 / 2)) 16 g in
  state g = PLAYING
  /\ length (enemies g) = 32%nat
  /\ Forall (fun e : Enemy => active e = false) (enemies g)
  /\ length (List.filter enemyOwned (bullets g)) = 1%nat
  /\ length (particles g) = 25%nat
  /\ state g' = VICTORY
  /\ calls g' = calls g ++ [onStateUpdate VICTORY]
  /\ List.filter enemyOwned (bullets g')
     = map (moveBullet (gheight g)) (List.filter enemyOwned (bullets g))
  /\ particles g' = particles g.
Proof.
  cbv zeta.
  assert (Hs : state clearedSession = PLAYING) by (vm_compute; reflexivity).
  assert (Hd : Forall (fun e : Enemy => active e = false)
                 (enemies clearedSession)).
  { apply List.Forall_forall. intros e He.
    assert (Hall : forallb (fun e : Enemy => negb (active e))
                     (enemies clearedSession) = true)
      by (vm_compute; reflexivity).
    rewrite forallb_forall in Hall. specialize (Hall e He). clear He.
    destruct (active e); [discriminate Hall | reflexivity]. }
  destruct (cleared_formation_is_victory (constantRuntime (1 / 2)) 16
              clearedSession Hs Hd)
    as (A & _ & C & _ & _ & _ & _ & _ & E).
  split; [exact Hs|]. split; [vm_compute; reflexivity|].
  split; [exact Hd|]. split; [vm_compute; reflexivity|].
  split; [vm_compute; reflexivity|]. split; [exact A|].
  split; [vm_compute; reflexivity|]. split; [exact C | exact E].
Defined.

(** ** The particle emitter *)

Lemma spawnParticle_spec rt px py base g :
  RuntimeOk rt ->
  exists p n,
    spawnParticle rt px py base g
    = set_rngPos n (set_particles (particles g ++ [p]) g)
    /\ spawnedBy rt px py base p.
Proof.
  intros [Hr _]. unfold spawnParticle, Math_random. cbn.
  destruct (Qltb 0.3 (randomAt rt (S (S (rngPos g))))) eqn:E; cbn;
    eexists; eexists; (split; [reflexivity|]);
    unfold spawnedBy; cbn; repeat (split; [reflexivity|]).
  - exists (randomAt rt (rngPos g)), (randomAt rt (S (rngPos g))),
      (randomAt rt (S (S (rngPos g)))), (randomAt rt (S (S (S (rngPos g))))),
      (randomAt rt (S (S (S (S (rngPos g)))))).
    rewrite E. unfold unitDraw. repeat split; try apply Hr.
  - exists (randomAt rt (rngPos g)), (randomAt rt (S (rngPos g))),
      (randomAt rt (S (S (rngPos g)))), (randomAt rt (rngPos g)),
      (randomAt rt (S (S (S (rngPos g))))).
    rewrite E. unfold unitDraw. repeat split; try apply Hr.
Qed.

Lemma spawnParticles_spec rt px py base count g :
  RuntimeOk rt ->
  exists new n,
    spawnParticles rt px py base count g
    = set_rngPos n (set_particles (particles g ++ new) g)
    /\ length new = count
    /\ Forall (spawnedBy rt px py base) new.
Proof.
  intros Hrt. revert g. induction count as [|k IH]; intros g.
  - change (spawnParticles rt px py base 0 g) with g.
    exists [], (rngPos g). rewrite app_nil_r.
    split; [destruct g; reflexivity | split; [reflexivity | constructor]].
  - change (spawnParticles rt px py base (S k) g)
      with (spawnParticles rt px py base k (spawnParticle rt px py base g)).
    destruct (spawnParticle_spec rt px py base g Hrt) as (p & n & -> & Hp).
    destruct (IH (set_rngPos n (set_particles (particles g ++ [p]) g)))
      as (new & n' & -> & Hlen & Hall).
    exists (p :: new), n'. cbn. rewrite <- app_assoc. cbn.
    split; [reflexivity | split; [now rewrite Hlen | now constructor]].
Qed.














Lemma constantRuntime_ok : RuntimeOk (constantRuntime (1 / 2)).
Proof.
  split; [intros n; split; vm_compute; congruence | reflexivity].
Qed.




(** ** Loops over arrays *)

Lemma forEach_map {S A B : Type} (h k : A -> B) (f : S -> A -> S * A) :
  (forall s a, h (snd (f s a)) = k a) ->
  forall l s, map h (snd (forEach f s l)) = map k l.
Proof.
  intros Hf l. induction l as [|a l IH]; intros s; simpl; [reflexivity|].
  specialize (Hf s a). destruct (f s a) as [s1 a'].
  specialize (IH s1). destruct (forEach f s1 l) as [s2 l''].
  simpl in *. now rewrite Hf, IH.
Qed.

(** A property [Q] of the state that the visit of [a] establishes and no
    visit destroys holds after a loop over an array that holds [a]; [I] is
    an invariant of the loop on which the visit of [a] may rely. *)
Lemma forEach_reaches {S A : Type} (I Q : S -> Prop) (f : S -> A -> S * A)
    (a : A) :
  (forall s b, I s -> I (fst (f s b))) ->
  (forall s b, Q s -> Q (fst (f s b))) ->
  (forall s, I s -> Q (fst (f s a))) ->
  forall l s, In a l -> I s -> Q (fst (forEach f s l)).
Proof.
  intros HI HQ Ha l. induction l as [|b l IH]; intros s Hin Hs; [destruct Hin|].
  simpl.
  pose proof (HI s b Hs) as HI1.
  destruct Hin as [-> | Hin].
  - pose proof (Ha s Hs) as HQ1. destruct (f s a) as [s1 a'].
    pose proof (forEach_inv Q f HQ l s1 HQ1) as HQ2.
    destruct (forEach f s1 l) as [s2 l'']. exact HQ2.
  - destruct (f s b) as [s1 b'].
    specialize (IH s1 Hin HI1). destruct (forEach f s1 l) as [s2 l''].
    exact IH.
Qed.

(** ** The motion of the enemies *)

Lemma enemyTick_standing rt m s e :
  standing (snd (onLiving (enemyTick rt m) s e)) = standing e.
Proof.
  unfold onLiving. destruct (active e) eqn:Ha; [|reflexivity].
  destruct s as [g hw]. unfold enemyTick, Math_random. cbv zeta.
  unfold standing. simpl. now rewrite Ha.
Qed.

Lemma dropEnemy_dropped s e :
  standing (snd (onLiving dropEnemy s e)) = (dropped e, active e).
Proof.
  unfold onLiving, dropped, standing. destruct (active e) eqn:Ha; simpl.
  - now rewrite Ha.
  - now rewrite Ha.
Qed.

Lemma enemyTick_hits_left_wall rt m g hw (e : Enemy) :
  active e = true -> x e == 0 ->
  enemyDirection g = (-1)%Z -> 0 <= enemySpeed g ->
  snd (fst (onLiving (enemyTick rt m) (g, hw) e)) = true.
Proof.
  intros Ha Hx Hd Hsp. unfold onLiving. rewrite Ha.
  unfold enemyTick, Math_random. cbv zeta.
  cbn [x onEnemy setX enemyBase fst snd].
  rewrite Hd.
  assert (Hle : Qleb (x e + enemySpeed g * inject_Z (-1)) 0 = true).
  { apply Qleb_le. change (inject_Z (-1)) with (-1). lra. }
  rewrite Hle. reflexivity.
Qed.


Lemma enemyTick_keeps_flag rt m (s : GameEngine * bool) (e : Enemy) :
  snd s = true -> snd (fst (onLiving (enemyTick rt m) s e)) = true.
Proof.
  destruct s as [g hw]. simpl. intros ->.
  unfold onLiving. destruct (active e); [|reflexivity].
  unfold enemyTick, Math_random. cbv zeta. cbn [fst snd].
  match goal with |- (if ?c then _ else _) = _ => destruct c end; reflexivity.
Qed.

Lemma dropped_standing (es es' : list Enemy) :
  map standing es' = map standing es -> map dropped es' = map dropped es.
Proof.
  intros H.
  assert (E : forall l : list Enemy,
             map dropped l
             = map (fun p : Q * bool => if snd p then fst p + 20 else fst p)
                   (map standing l))
    by (intros l; rewrite map_map; reflexivity).
  now rewrite (E es), (E es'), H.
Qed.

Lemma enemyLogic_wall rt m g (e0 : Enemy) :
  In e0 (enemies g) -> active e0 = true -> x e0 == 0 ->
  enemyDirection g = (-1)%Z -> 0 <= enemySpeed g ->
  let g' := enemyLogic rt m g in
  enemyDirection g' = 1%Z
  /\ enemySpeed g' = enemySpeed g + 0.2
  /\ map (fun e : Enemy => y e) (enemies g') = map dropped (enemies g).
Proof.
  intros Hin Ha Hx Hd Hsp. cbv zeta. unfold enemyLogic.
  pose proof (enemyLoop_frame rt m g false (enemies g)) as (_ & Fd & Fs).
  pose proof (forEach_map standing standing (onLiving (enemyTick rt m))
                (enemyTick_standing rt m) (enemies g) (g, false)) as Hst.
  assert (Hhw : snd (fst (forEach (onLiving (enemyTick rt m)) (g, false)
                                  (enemies g))) = true).
  { apply (forEach_reaches
             (fun s : GameEngine * bool =>
                enemyDirection (fst s) = (-1)%Z
                /\ enemySpeed (fst s) = enemySpeed g)
             (fun s : GameEngine * bool => snd s = true)
             (onLiving (enemyTick rt m)) e0).
    - intros [h w] b [I1 I2]. simpl in I1, I2.
      pose proof (enemyLoop_frame rt m h w [b]) as (_ & F1 & F2).
      simpl in F1, F2. destruct (onLiving (enemyTick rt m) (h, w) b) as [[h' w'] b'].
      simpl in *. split; congruence.
    - intros s b. apply enemyTick_keeps_flag.
    - intros [h w] [I1 I2]. simpl in I1, I2.
      apply enemyTick_hits_left_wall; try assumption. now rewrite I2.
    - exact Hin.
    - split; [exact Hd | reflexivity]. }
  destruct (forEach (onLiving (enemyTick rt m)) (g, false) (enemies g))
    as [[g2 hw] es2].
  simpl in Fd, Fs, Hst, Hhw. subst hw. cbv zeta.
  cbn [enemyDirection enemySpeed enemies set_enemies set_enemyDirection
       set_enemySpeed].
  rewrite Fd, Fs, Hd. split; [reflexivity | split; [reflexivity|]].
  pose proof (forEach_map standing (fun e : Enemy => (dropped e, active e))
                (onLiving dropEnemy) dropEnemy_dropped es2 tt) as Hdr.
  apply (f_equal (map fst)) in Hdr. rewrite !map_map in Hdr. simpl in Hdr.
  etransitivity; [exact Hdr|]. now apply dropped_standing.
Qed.

(** ** Collision detection: a player bullet *)

Lemma hitEnemy_step rt g b (e : Enemy) :
  hitBy b e = true ->
  exists g1,
    hitEnemy rt (g, b) e
    = ((g1, onBullet (setActive false) b), onEnemy (setActive false) e)
    /\ score g1 = (score g + 100)%Z
    /\ calls g1 = calls g ++ [playExplosion; onScoreUpdate (score g + 100)]
    /\ (exists new, particles g1 = particles g ++ new /\ length new = 25%nat)
    /\ state g1 = state g /\ bullets g1 = bullets g /\ enemies g1 = enemies g.
Proof.
  unfold hitBy. intros H. apply andb_prop in H as [Ha Ho].
  unfold hitEnemy. rewrite Ha, Ho. cbv zeta. cbn [negb].
  match goal with |- context [spawnParticles ?r ?a ?c ?d ?n ?h] =>
    destruct (spawnParticles_shape r a c d n h) as (new & k & -> & Hlen) end.
  eexists. split; [reflexivity|].
  cbn. rewrite <- app_assoc. repeat split. exists new. split; [reflexivity | exact Hlen].
Qed.

Lemma hitEnemy_miss rt g b (e : Enemy) :
  hitBy b e = false -> hitEnemy rt (g, b) e = ((g, b), e).
Proof.
  unfold hitBy, hitEnemy. destruct (active e); simpl; [|reflexivity].
  now intros ->.
Qed.

Lemma hitEnemy_loop rt es : forall g b,
  let r := forEach (hitEnemy rt) (g, b) es in
  let k := length (List.filter (hitBy b) es) in
  snd r = map (struck b) es
  /\ snd (fst r) = (if (0 <? k)%nat then onBullet (setActive false) b else b)
  /\ score (fst (fst r)) = (score g + 100 * Z.of_nat k)%Z
  /\ calls (fst (fst r)) = calls g ++ killCalls (score g) k
  /\ (exists new, particles (fst (fst r)) = particles g ++ new
                  /\ length new = (25 * k)%nat)
  /\ state (fst (fst r)) = state g /\ bullets (fst (fst r)) = bullets g
  /\ enemies (fst (fst r)) = enemies g.
Proof.
  induction es as [|e es IH]; intros g b; cbv zeta.
  - simpl. rewrite app_nil_r. repeat split; try reflexivity; try lia.
    exists []. now rewrite app_nil_r.
  - change (forEach (hitEnemy rt) (g, b) (e :: es))
      with (let '(s1, a') := hitEnemy rt (g, b) e in
            let '(s2, l'') := forEach (hitEnemy rt) s1 es in (s2, a' :: l'')).
    cbn [List.filter map]. unfold struck at 1. destruct (hitBy b e) eqn:Hh.
    + destruct (hitEnemy_step rt g b e Hh)
        as (g1 & -> & Hsc & Hca & (new1 & Hpa & Hl1) & Hst & Hbu & Hen).
      specialize (IH g1 (onBullet (setActive false) b)). cbv zeta in IH.
      change (hitBy (onBullet (setActive false) b)) with (hitBy b) in IH.
      change (struck (onBullet (setActive false) b)) with (struck b) in IH.
      destruct (forEach (hitEnemy rt) (g1, onBullet (setActive false) b) es)
        as [[g2 b2] es2].
      simpl in *.
      destruct IH as (E1 & E2 & E3 & E4 & (new2 & E5 & Hl2) & E6 & E7 & E8).
      repeat split.
      * now rewrite E1.
      * rewrite E2. now destruct (0 <? length (List.filter (hitBy b) es))%nat.
      * rewrite E3, Hsc. lia.
      * rewrite E4, Hca, Hsc, <- app_assoc. reflexivity.
      * exists (new1 ++ new2). rewrite E5, Hpa, <- app_assoc.
        split; [reflexivity | rewrite length_app; lia].
      * congruence.
      * congruence.
      * congruence.
    + rewrite (hitEnemy_miss rt g b e Hh).
      specialize (IH g b). cbv zeta in IH.
      destruct (forEach (hitEnemy rt) (g, b) es) as [[g2 b2] es2].
      simpl in *.
      destruct IH as (E1 & E2 & E3 & E4 & E5 & E6 & E7 & E8).
      repeat split; try assumption. now rewrite E1.
Qed.

Lemma collideBullet_player rt g (b : Bullet) :
  active b = true -> isPlayerBullet b = true ->
  let r := collideBullet rt g b in
  let k := length (List.filter (hitBy b) (enemies g)) in
  enemies (fst r) = map (struck b) (enemies g)
  /\ snd r = (if (0 <? k)%nat then onBullet (setActive false) b else b)
  /\ score (fst r) = (score g + 100 * Z.of_nat k)%Z
  /\ calls (fst r) = calls g ++ killCalls (score g) k
  /\ (exists new, particles (fst r) = particles g ++ new
                  /\ length new = (25 * k)%nat)
  /\ state (fst r) = state g /\ bullets (fst r) = bullets g.
Proof.
  intros Ha Hp. cbv zeta. unfold collideBullet. rewrite Ha, Hp. cbn [negb].
  pose proof (hitEnemy_loop rt (enemies g) g b) as H. cbv zeta in H.
  destruct (forEach (hitEnemy rt) (g, b) (enemies g)) as [[g2 b2] es2].
  simpl in *. destruct H as (E1 & E2 & E3 & E4 & E5 & E6 & E7 & _).
  repeat split; assumption.
Qed.


Lemma struck_standing_height b (e : Enemy) : y (struck b e) = y e.
Proof. unfold struck. now destruct (hitBy b e). Qed.

Lemma collideBullet_cases rt g (b : Bullet) :
  let r := collideBullet rt g b in
  (enemies (fst r) = enemies g \/ enemies (fst r) = map (struck b) (enemies g))
  /\ (state (fst r) = state g \/ state (fst r) = GAME_OVER)
  /\ bullets (fst r) = bullets g.
Proof.
  cbv zeta. destruct (active b) eqn:Ha.
  - destruct (isPlayerBullet b) eqn:Hp.
    + destruct (collideBullet_player rt g b Ha Hp)
        as (E1 & _ & _ & _ & _ & E6 & E7).
      auto.
    + unfold collideBullet. rewrite Ha, Hp. cbn [negb].
      destruct (overlaps b (player g)); [|auto].
      cbv zeta.
      match goal with |- context [spawnParticles ?r ?a ?c ?d ?n ?h] =>
        destruct (spawnParticles_shape r a c d n h) as (new & k & -> & _) end.
      cbn. auto.
  - unfold collideBullet. rewrite Ha. cbn. auto.
Qed.

Lemma collisions_heights rt g :
  map (fun e : Enemy => y e) (enemies (collisions rt g))
  = map (fun e : Enemy => y e) (enemies g).
Proof.
  unfold collisions.
  pose proof (forEach_inv
    (fun s => map (fun e : Enemy => y e) (enemies s)
              = map (fun e : Enemy => y e) (enemies g))
    (collideBullet rt)) as H.
  assert (Hstep : forall s a,
    map (fun e : Enemy => y e) (enemies s)
      = map (fun e : Enemy => y e) (enemies g) ->
    map (fun e : Enemy => y e) (enemies (fst (collideBullet rt s a)))
      = map (fun e : Enemy => y e) (enemies g)).
  { intros s a Hs.
    destruct (collideBullet_cases rt s a) as ([-> | ->] & _); [exact Hs|].
    rewrite map_map, <- Hs. apply map_ext. intros e.
    apply struck_standing_height. }
  specialize (H Hstep (bullets g) g eq_refl).
  destruct (forEach (collideBullet rt) g (bullets g)) as [g' bs].
  exact H.
Qed.

Lemma living_enemy_found (es : list Enemy) (e : Enemy) :
  In e es -> active e = true ->
  List.filter (fun a : Enemy => active a) es <> [].
Proof.
  intros Hin Ha Hnil.
  assert (Hf : In e (List.filter (fun a : Enemy => active a) es))
    by (apply filter_In; auto).
  rewrite Hnil in Hf. destruct Hf.
Qed.

Lemma finishing_touches g :
  let g' := cleanup (updateParticles g) in
  state g' = state g /\ calls g' = calls g /\ player g' = player g
  /\ enemies g' = enemies g /\ enemyDirection g' = enemyDirection g
  /\ enemySpeed g' = enemySpeed g /\ score g' = score g
  /\ bullets g' = List.filter (fun b : Bullet => active b) (bullets g).
Proof. cbv zeta. repeat split. Qed.

Lemma update_reaches_collisions rt dt g :
  state g = PLAYING ->
  livingEnemies (beforeEnemies g) <> [] ->
  update rt dt g = cleanup (updateParticles (collisions rt (atCollisions rt g))).
Proof.
  intros Hs Hl. rewrite (update_playing rt dt g Hs).
  unfold afterBullets, atCollisions.
  destruct (livingEnemies (beforeEnemies g)); [congruence | reflexivity].
Qed.

Lemma beforeEnemies_formation g :
  enemies (beforeEnemies g) = enemies g
  /\ enemyDirection (beforeEnemies g) = enemyDirection g
  /\ enemySpeed (beforeEnemies g) = enemySpeed g
  /\ score (beforeEnemies g) = score g
  /\ state (beforeEnemies g) = state g.
Proof.
  destruct (beforeEnemies_shape g) as (v & cd & bs & cs & -> & _).
  repeat split.
Qed.

Lemma living_before g (e : Enemy) :
  In e (enemies g) -> active e = true -> livingEnemies (beforeEnemies g) <> [].
Proof.
  intros Hin Ha. destruct (beforeEnemies_formation g) as (Ben & _).
  unfold livingEnemies. rewrite Ben. exact (living_enemy_found _ e Hin Ha).
Qed.

Lemma atCollisions_wall rt g (e0 : Enemy) :
  enemyDirection g = (-1)%Z -> 0 <= enemySpeed g ->
  In e0 (enemies g) -> active e0 = true -> x e0 == 0 ->
  enemyDirection (atCollisions rt g) = 1%Z
  /\ enemySpeed (atCollisions rt g) = enemySpeed g + 0.2
  /\ map (fun e : Enemy => y e) (enemies (atCollisions rt g))
     = map dropped (enemies g).
Proof.
  intros Hd Hsp Hin Ha Hx. unfold atCollisions.
  destruct (beforeEnemies_formation g) as (Ben & Bdi & Bsp & _ & _).
  rewrite <- Ben, <- Bsp. rewrite <- Ben in Hin. rewrite <- Bdi in Hd.
  rewrite <- Bsp in Hsp.
  exact (enemyLogic_wall rt (getDifficultyMultipliers g) (beforeEnemies g) e0
           Hin Ha Hx Hd Hsp).
Qed.

(** C5.  In a call of [update] in PLAYING with the formation moving left
    ([enemyDirection] -1, [enemySpeed] not negative) and an active enemy at
    x = 0, [enemyDirection] ends at +1, [enemySpeed] is raised by exactly
    0.2, and the y of every enemy that was active is raised by exactly 20,
    the other enemies staying at their height. *)
Theorem wall_bounce rt dt g (e0 : Enemy) :
  state g = PLAYING ->
  enemyDirection g = (-1)%Z -> 0 <= enemySpeed g ->
  In e0 (enemies g) -> active e0 = true -> x e0 == 0 ->
  let g' := update rt dt g in
  enemyDirection g' = 1%Z
  /\ enemySpeed g' = enemySpeed g + 0.2
  /\ map (fun e : Enemy => y e) (enemies g')
     = map (fun e : Enemy => if active e then y e + 20 else y e) (enemies g).
Proof.
  intros Hs Hd Hsp Hin Ha Hx. cbv zeta.
  change (map (fun e : Enemy => if active e then y e + 20 else y e) (enemies g))
    with (map dropped (enemies g)).
  destruct (atCollisions_wall rt g e0 Hd Hsp Hin Ha Hx) as (Wd & Ws & Wy).
  rewrite (update_reaches_collisions rt dt g Hs (living_before g e0 Hin Ha)).
  destruct (finishing_touches (collisions rt (atCollisions rt g)))
    as (_ & _ & _ & Fe & Fd & Fs & _).
  pose proof (collisions_formation rt (atCollisions rt g)) as Hf.
  pose proof (collisions_heights rt (atCollisions rt g)) as Hh.
  unfold formation in Hf.
  revert Fe Fd Fs Hf Hh Wd Ws Wy.
  generalize (cleanup (updateParticles (collisions rt (atCollisions rt g)))).
  generalize (collisions rt (atCollisions rt g)).
  generalize (atCollisions rt g).
  clear. intros g1 g2 g3 Fe Fd Fs Hf Hh Wd Ws Wy.
  rewrite Fe, Fd, Fs, Hh, Wy. split; [congruence | split; [congruence | reflexivity]].
Qed.

Lemma wall_bounce_witness :
  let g' := update (constantRuntime (1 / 2)) 16 wallState in
  x cornerEnemy == 0
  /\ enemyDirection g' = 1%Z /\ enemySpeed g' = enemySpeed wallState + 0.2.
Proof.
  cbv zeta.
  assert (Hx : x cornerEnemy == 0) by reflexivity.
  assert (Hin : In cornerEnemy (enemies wallState))
    by (vm_compute; left; reflexivity).
  assert (Hsp : 0 <= enemySpeed wallState) by (vm_compute; discriminate).
  destruct (wall_bounce (constantRuntime (1 / 2)) 16 wallState cornerEnemy
              eq_refl eq_refl Hsp Hin eq_refl Hx) as (D & S & _).
  repeat split; assumption.
Defined.

(** ** One bullet, several enemies *)

Lemma scoreUpdates_killCalls k : forall s,
  scoreUpdates (killCalls s k)
  = map (fun j => (s + 100 * Z.of_nat j)%Z) (seq 1 k).
Proof.
  induction k as [|k IH]; intros s; [reflexivity|].
  cbn [killCalls scoreUpdates]. rewrite IH.
  cbn [seq map]. f_equal; try lia.
  rewrite <- (seq_shift k 1), map_map. apply map_ext. intros j. lia.
Qed.

Lemma struck_leaves_fewer b (es : list Enemy) :
  (length (List.filter (fun e : Enemy => active e) (map (struck b) es))
   + length (List.filter (hitBy b) es)
   = length (List.filter (fun e : Enemy => active e) es))%nat.
Proof.
  induction es as [|e es IH]; [reflexivity|].
  cbn [map List.filter]. unfold struck at 1, hitBy at 1 2.
  destruct (active e) eqn:Ha; cbn [andb].
  - destruct (overlaps b e); simpl; rewrite ?Ha; simpl; lia.
  - rewrite Ha. exact IH.
Qed.

Lemma collisions_single rt g b :
  bullets g = [b] ->
  collisions rt g
  = set_bullets [snd (collideBullet rt g b)] (fst (collideBullet rt g b)).
Proof.
  intros Hb. unfold collisions. rewrite Hb. simpl.
  now destruct (collideBullet rt g b).
Qed.

Lemma atCollisions_score rt g : score (atCollisions rt g) = score g.
Proof.
  unfold atCollisions.
  pose proof (enemyLogic_tally rt (getDifficultyMultipliers g) (beforeEnemies g))
    as H.
  destruct (beforeEnemies_formation g) as (_ & _ & _ & Hsc & _).
  unfold tally in H. congruence.
Qed.

(** C10.  In collision detection a player bullet is tested against every
    enemy even after it has hit one.  For an active player bullet [b] that
    overlaps [k] active enemies, the visit of [b] deactivates exactly those
    [k] enemies, raises the score by 100 k, invokes the score callback [k]
    times (with score + 100, ..., score + 100 k) and, when k is at least 1,
    leaves [b] inactive.  In a call of [update] in PLAYING that enters
    collision detection with [b] as its only bullet, these are the changes
    of the whole call to the score and the enemies. *)
Theorem bullet_hits_every_overlapping_enemy rt g (b : Bullet) :
  active b = true -> isPlayerBullet b = true ->
  let k := length (List.filter (hitBy b) (enemies g)) in
  let r := collideBullet rt g b in
  (enemies (fst r) = map (struck b) (enemies g)
   /\ (length (List.filter (fun e : Enemy => active e) (enemies (fst r))) + k
       = length (List.filter (fun e : Enemy => active e) (enemies g)))%nat
   /\ score (fst r) = (score g + 100 * Z.of_nat k)%Z
   /\ calls (fst r) = calls g ++ killCalls (score g) k
   /\ scoreUpdates (killCalls (score g) k)
      = map (fun j => (score g + 100 * Z.of_nat j)%Z) (seq 1 k)
   /\ length (scoreUpdates (killCalls (score g) k)) = k
   /\ ((1 <= k)%nat -> active (snd r) = false))
  /\ (forall dt g0,
        state g0 = PLAYING -> livingEnemies (beforeEnemies g0) <> [] ->
        g = atCollisions rt g0 -> bullets g = [b] ->
        score (update rt dt g0) = (score g0 + 100 * Z.of_nat k)%Z
        /\ enemies (update rt dt g0) = map (struck b) (enemies g)
        /\ calls (update rt dt g0) = calls g ++ killCalls (score g0) k).
Proof.
  intros Ha Hp. cbv zeta.
  destruct (collideBullet_player rt g b Ha Hp)
    as (E1 & E2 & E3 & E4 & _ & _ & _).
  split.
  - split; [exact E1|].
    split; [rewrite E1; apply struck_leaves_fewer|].
    split; [exact E3|]. split; [exact E4|].
    split; [apply scoreUpdates_killCalls|].
    split; [now rewrite scoreUpdates_killCalls, length_map, length_seq|].
    intros Hk. rewrite E2.
    destruct (0 <? length (List.filter (hitBy b) (enemies g)))%nat eqn:Hz;
      [reflexivity|].
    apply Nat.ltb_ge in Hz. lia.
  - intros dt g0 Hs Hl Hg Hb.
    rewrite (update_reaches_collisions rt dt g0 Hs Hl), <- Hg.
    rewrite (collisions_single rt g b Hb).
    change (score (fst (collideBullet rt g b))
              = (score g0 + 100 * Z.of_nat (length (List.filter (hitBy b) (enemies g))))%Z
            /\ enemies (fst (collideBullet rt g b)) = map (struck b) (enemies g)
            /\ calls (fst (collideBullet rt g b))
               = calls g ++ killCalls (score g0)
                                      (length (List.filter (hitBy b) (enemies g)))).
    rewrite E1, E3, E4, Hg, (atCollisions_score rt g0). auto.
Qed.

Lemma bullet_hits_every_overlapping_enemy_witness :
  let rt := constantRuntime (1 / 2) in
  let g' := update rt 16 stackedState in
  length (List.filter (hitBy (risingBullet 110))
                      (enemies (atCollisions rt stackedState))) = 2%nat
  /\ score g' = 200%Z
  /\ map (fun e : Enemy => active e) (enemies g') = [false; false]
  /\ scoreUpdates (calls g') = [100; 200]%Z.
Proof.
  cbv zeta.
  assert (Hk : length (List.filter (hitBy (risingBullet 110))
                 (enemies (atCollisions (constantRuntime (1 / 2)) stackedState)))
               = 2%nat) by (vm_compute; reflexivity).
  split; [exact Hk|].
  destruct (bullet_hits_every_overlapping_enemy (constantRuntime (1 / 2))
              (atCollisions (constantRuntime (1 / 2)) stackedState)
              (risingBullet 110) eq_refl eq_refl) as (_ & H).
  destruct (H 16 stackedState eq_refl) as (Hsc & Hen & Hca).
  - vm_compute. discriminate.
  - reflexivity.
  - vm_compute. reflexivity.
  - rewrite Hk in Hsc, Hca.
    rewrite Hsc, Hen, Hca. vm_compute. auto.
Defined.

(** ** Collision detection: an enemy bullet *)


Lemma collideBullet_calls rt g (b : Bullet) :
  exists cs, calls (fst (collideBullet rt g b)) = calls g ++ cs.
Proof.
  destruct (active b) eqn:Ha.
  - destruct (isPlayerBullet b) eqn:Hp.
    + destruct (collideBullet_player rt g b Ha Hp)
        as (_ & _ & _ & E4 & _).
      eexists. exact E4.
    + unfold collideBullet. rewrite Ha, Hp. cbn [negb].
      destruct (overlaps b (player g)).
      * cbv zeta.
        match goal with |- context [spawnParticles ?r ?a ?c ?d ?n ?h] =>
          destruct (spawnParticles_shape r a c d n h) as (new & k & -> & _) end.
        cbn. rewrite <- app_assoc. eexists. reflexivity.
      * exists []. now rewrite app_nil_r.
  - unfold collideBullet. rewrite Ha. exists []. now rewrite app_nil_r.
Qed.










(** * Further properties of the engine *)

(** ** The state machine *)

Lemma enemyTick_state rt m (s : GameEngine * bool) (e : Enemy) :
  state (fst (fst (enemyTick rt m s e))) = state (fst s)
  \/ state (fst (fst (enemyTick rt m s e))) = GAME_OVER.
Proof.
  destruct s as [g hw]. unfold enemyTick, Math_random, emit. cbv zeta.
  cbn [fst snd].
  destruct (Qleb (y (player g)) _);
    match goal with |- context [Qltb ?a ?b] => destruct (Qltb a b) end;
    cbn; auto.
Qed.

Lemma enemyLogic_state rt m g :
  state (enemyLogic rt m g) = state g \/ state (enemyLogic rt m g) = GAME_OVER.
Proof.
  unfold enemyLogic.
  pose proof (forEach_inv
    (fun s : GameEngine * bool =>
       state (fst s) = state g \/ state (fst s) = GAME_OVER)
    (onLiving (enemyTick rt m))) as H.
  assert (Hstep : forall (s : GameEngine * bool) (a : Enemy),
    (state (fst s) = state g \/ state (fst s) = GAME_OVER) ->
    state (fst (fst (onLiving (enemyTick rt m) s a))) = state g
    \/ state (fst (fst (onLiving (enemyTick rt m) s a))) = GAME_OVER).
  { intros s a Hs. unfold onLiving. destruct (active a); [|exact Hs].
    destruct (enemyTick_state rt m s a) as [E | E]; rewrite E; auto. }
  specialize (H Hstep (enemies g) (g, false) (or_introl eq_refl)).
  destruct (forEach (onLiving (enemyTick rt m)) (g, false) (enemies g))
    as [[g' hw] es].
  cbn [fst] in H. destruct hw; exact H.
Qed.

Lemma collisions_state rt g :
  state (collisions rt g) = state g \/ state (collisions rt g) = GAME_OVER.
Proof.
  unfold collisions.
  pose proof (forEach_inv
    (fun s => state s = state g \/ state s = GAME_OVER)
    (collideBullet rt)) as H.
  assert (Hstep : forall s (a : Bullet),
    (state s = state g \/ state s = GAME_OVER) ->
    state (fst (collideBullet rt s a)) = state g
    \/ state (fst (collideBullet rt s a)) = GAME_OVER).
  { intros s a Hs.
    destruct (collideBullet_cases rt s a) as (_ & [E | E] & _); rewrite E; auto. }
  specialize (H Hstep (bullets g) g (or_introl eq_refl)).
  destruct (forEach (collideBullet rt) g (bullets g)) as [g' bs]. exact H.
Qed.

Lemma livingEnemies_before g : livingEnemies (beforeEnemies g) = livingEnemies g.
Proof.
  destruct (beforeEnemies_formation g) as (Ben & _).
  unfold livingEnemies. now rewrite Ben.
Qed.

Lemma atCollisions_state rt g :
  state (atCollisions rt g) = state g \/ state (atCollisions rt g) = GAME_OVER.
Proof.
  unfold atCollisions.
  destruct (beforeEnemies_formation g) as (_ & _ & _ & _ & Bst).
  rewrite <- Bst. apply enemyLogic_state.
Qed.

(** X1.  The transitions of [update].  From COUNTDOWN the state stays
    COUNTDOWN or becomes PLAYING.  From PLAYING the call ends in VICTORY
    exactly when no enemy is active as it starts, and otherwise in PLAYING
    or GAME_OVER; it never goes back to START or COUNTDOWN. *)
Theorem update_transitions rt dt g :
  (state g = COUNTDOWN ->
     state (update rt dt g) = COUNTDOWN \/ state (update rt dt g) = PLAYING)
  /\ (state g = PLAYING ->
        (livingEnemies g = [] /\ state (update rt dt g) = VICTORY)
        \/ (livingEnemies g <> []
            /\ (state (update rt dt g) = PLAYING
                \/ state (update rt dt g) = GAME_OVER))).
Proof.
  split.
  - intros Hs.
    destruct (Qlt_le_dec (countdownTimer g + dt) 1000) as [Hlt | Hge].
    + rewrite (update_countdown_wait rt dt g Hs Hlt). left. exact Hs.
    + destruct (countdown_step rt dt g Hs Hge) as (_ & _ & E).
      destruct (countdownValue g - 1 <=? 0)%Z; destruct E as [E _]; auto.
  - intros Hs. destruct (livingEnemies g) eqn:Hl.
    + left. split; [reflexivity|].
      rewrite (update_playing rt dt g Hs). unfold afterBullets.
      rewrite livingEnemies_before, Hl. reflexivity.
    + right. split; [discriminate|].
      assert (Hb : livingEnemies (beforeEnemies g) <> [])
        by (rewrite livingEnemies_before, Hl; discriminate).
      rewrite (update_reaches_collisions rt dt g Hs Hb).
      destruct (finishing_touches (collisions rt (atCollisions rt g)))
        as (-> & _).
      pose proof (collisions_state rt (atCollisions rt g)) as Hc.
      pose proof (atCollisions_state rt g) as He.
      revert Hc He.
      generalize (collisions rt (atCollisions rt g)).
      generalize (atCollisions rt g).
      clear - Hs. intros g2 g3 Hc He.
      destruct Hc as [Hc | Hc]; [|auto].
      destruct He as [He | He]; [left | right]; congruence.
Qed.

Lemma update_transitions_witness :
  let rt := constantRuntime (1 / 2) in
  state sessionEngine = PLAYING /\ livingEnemies sessionEngine <> []
  /\ (state (update rt 16 sessionEngine) = PLAYING
      \/ state (update rt 16 sessionEngine) = GAME_OVER).
Proof.
  cbv zeta.
  assert (Hs : state sessionEngine = PLAYING) by (vm_compute; reflexivity).
  assert (Hl : livingEnemies sessionEngine <> []) by (vm_compute; discriminate).
  split; [exact Hs|]. split; [exact Hl|].
  destruct (update_transitions (constantRuntime (1 / 2)) 16 sessionEngine)
    as [_ H].
  destruct (H Hs) as [[Hnil _] | [_ H']]; [contradiction | exact H'].
Defined.

Lemma countdown_frame rt dt g :
  state g = COUNTDOWN ->
  let g' := update rt dt g in
  player g' = player g /\ enemies g' = enemies g /\ bullets g' = bullets g
  /\ particles g' = particles g /\ score g' = score g
  /\ enemySpeed g' = enemySpeed g /\ enemyDirection g' = enemyDirection g
  /\ gwidth g' = gwidth g /\ gheight g' = gheight g /\ rngPos g' = rngPos g.
Proof.
  intros Hs. cbv zeta.
  destruct (Qlt_le_dec (countdownTimer g + dt) 1000) as [Hlt | Hge].
  - rewrite (update_countdown_wait rt dt g Hs Hlt). repeat split.
  - rewrite (update_countdown_tick rt dt g Hs Hge). cbv zeta.
    destruct (countdownValue g - 1 <=? 0)%Z; repeat split.
Qed.

(** X2.  The countdown is decoupled from the physics: a call of [update] in
    COUNTDOWN leaves the player, the enemies, the bullets, the particles,
    the score, the speed and direction of the formation and the surface as
    they are, and draws no random number. *)
Theorem countdown_moves_nothing rt dt g :
  state g = COUNTDOWN ->
  let g' := update rt dt g in
  player g' = player g /\ enemies g' = enemies g /\ bullets g' = bullets g
  /\ particles g' = particles g /\ score g' = score g
  /\ enemySpeed g' = enemySpeed g /\ enemyDirection g' = enemyDirection g
  /\ gwidth g' = gwidth g /\ gheight g' = gheight g /\ rngPos g' = rngPos g.
Proof. apply countdown_frame. Qed.

Lemma countdown_moves_nothing_witness :
  let rt := constantRuntime (1 / 2) in
  let g := start rt HARD 0 0 (newGameEngine 800 600) in
  state g = COUNTDOWN /\ enemies (update rt 1000 g) = enemies g
  /\ player (update rt 1000 g) = player g.
Proof.
  cbv zeta.
  assert (Hs : state (start (constantRuntime (1 / 2)) HARD 0 0
                            (newGameEngine 800 600)) = COUNTDOWN)
    by (vm_compute; reflexivity).
  split; [exact Hs|].
  destruct (countdown_moves_nothing (constantRuntime (1 / 2)) 1000 _ Hs)
    as (Hp & He & _).
  split; [exact He | exact Hp].
Defined.

(** ** The formation *)

Lemma laterEnemy_refl e : laterEnemy e e.
Proof. split; [reflexivity | auto]. Qed.

Lemma laterEnemy_trans e1 e2 e3 :
  laterEnemy e1 e2 -> laterEnemy e2 e3 -> laterEnemy e1 e3.
Proof.
  intros [A1 A2] [B1 B2]. split; [congruence | auto].
Qed.

Lemma later_refl (es : list Enemy) : Forall2 laterEnemy es es.
Proof. induction es; constructor; [apply laterEnemy_refl | assumption]. Qed.

Lemma later_trans (l1 : list Enemy) : forall l2 l3,
  Forall2 laterEnemy l1 l2 -> Forall2 laterEnemy l2 l3 ->
  Forall2 laterEnemy l1 l3.
Proof.
  induction l1 as [|a l1 IH]; intros l2 l3 H12 H23.
  - inversion H12; subst. inversion H23; subst. constructor.
  - inversion H12; subst. inversion H23; subst. constructor.
    + eapply laterEnemy_trans; eassumption.
    + eapply IH; eassumption.
Qed.

Lemma forEach_Forall2 {S A : Type} (R : A -> A -> Prop) (f : S -> A -> S * A) :
  (forall s a, R a (snd (f s a))) ->
  forall l s, Forall2 R l (snd (forEach f s l)).
Proof.
  intros Hf l. induction l as [|a l IH]; intros s; simpl; [constructor|].
  specialize (Hf s a). destruct (f s a) as [s1 a'].
  specialize (IH s1). destruct (forEach f s1 l) as [s2 l''].
  simpl in *. now constructor.
Qed.

Lemma enemyTick_later rt m (s : GameEngine * bool) (e : Enemy) :
  laterEnemy e (snd (onLiving (enemyTick rt m) s e)).
Proof.
  unfold onLiving. destruct (active e) eqn:Ha; [|apply laterEnemy_refl].
  destruct s as [g hw]. unfold enemyTick, Math_random. cbv zeta.
  split; [reflexivity | intros _; exact Ha].
Qed.

Lemma dropEnemy_later (s : unit) (e : Enemy) :
  laterEnemy e (snd (onLiving dropEnemy s e)).
Proof.
  unfold onLiving. destruct (active e) eqn:Ha; [|apply laterEnemy_refl].
  split; [reflexivity | intros _; exact Ha].
Qed.

Lemma struck_later b (e : Enemy) : laterEnemy e (struck b e).
Proof.
  unfold struck. destruct (hitBy b e); [|apply laterEnemy_refl].
  split; [reflexivity | simpl; discriminate].
Qed.

Lemma map_later (f : Enemy -> Enemy) (es : list Enemy) :
  (forall e, laterEnemy e (f e)) -> Forall2 laterEnemy es (map f es).
Proof.
  intros Hf. induction es; simpl; constructor; [apply Hf | assumption].
Qed.

Lemma enemyLogic_later rt m g :
  Forall2 laterEnemy (enemies g) (enemies (enemyLogic rt m g)).
Proof.
  unfold enemyLogic.
  pose proof (forEach_Forall2 laterEnemy (onLiving (enemyTick rt m))
                (enemyTick_later rt m) (enemies g) (g, false)) as H.
  destruct (forEach (onLiving (enemyTick rt m)) (g, false) (enemies g))
    as [[g' hw] es].
  cbn [snd] in H. destruct hw; cbv zeta;
    cbn [enemies set_enemies set_enemyDirection set_enemySpeed]; [|exact H].
  eapply later_trans; [exact H|].
  apply (forEach_Forall2 laterEnemy (onLiving dropEnemy) dropEnemy_later).
Qed.

Lemma collisions_later rt g :
  Forall2 laterEnemy (enemies g) (enemies (collisions rt g)).
Proof.
  unfold collisions.
  pose proof (forEach_inv
    (fun s => Forall2 laterEnemy (enemies g) (enemies s))
    (collideBullet rt)) as H.
  assert (Hstep : forall s (a : Bullet),
    Forall2 laterEnemy (enemies g) (enemies s) ->
    Forall2 laterEnemy (enemies g) (enemies (fst (collideBullet rt s a)))).
  { intros s a Hs.
    destruct (collideBullet_cases rt s a) as ([-> | ->] & _); [exact Hs|].
    eapply later_trans; [exact Hs|]. apply map_later. apply struck_later. }
  specialize (H Hstep (bullets g) g (later_refl _)).
  destruct (forEach (collideBullet rt) g (bullets g)) as [g' bs]. exact H.
Qed.

Lemma update_victory rt dt g :
  state g = PLAYING -> livingEnemies g = [] ->
  update rt dt g
  = emit (onStateUpdate VICTORY) (set_state VICTORY (beforeEnemies g)).
Proof.
  intros Hs Hl. rewrite (update_playing rt dt g Hs). unfold afterBullets.
  rewrite livingEnemies_before, Hl. reflexivity.
Qed.

Lemma atCollisions_later rt g :
  Forall2 laterEnemy (enemies g) (enemies (atCollisions rt g)).
Proof.
  unfold atCollisions.
  destruct (beforeEnemies_formation g) as (Ben & _).
  rewrite <- Ben at 1. apply enemyLogic_later.
Qed.

Lemma update_later rt dt g :
  Forall2 laterEnemy (enemies g) (enemies (update rt dt g)).
Proof.
  destruct (state g) eqn:Hs.
  - rewrite (update_idle rt dt g) by auto. apply later_refl.
  - destruct (countdown_frame rt dt g Hs) as (_ & -> & _).
    apply later_refl.
  - destruct (livingEnemies g) eqn:Hl.
    + rewrite (update_victory rt dt g Hs Hl).
      destruct (beforeEnemies_formation g) as (Ben & _).
      revert Ben. generalize (beforeEnemies g). clear. intros g1 Ben.
      cbn [enemies emit set_calls set_state]. rewrite Ben.
      apply later_refl.
    + assert (Hb : livingEnemies (beforeEnemies g) <> [])
        by (rewrite livingEnemies_before, Hl; discriminate).
      rewrite (update_reaches_collisions rt dt g Hs Hb).
      destruct (finishing_touches (collisions rt (atCollisions rt g)))
        as (_ & _ & _ & -> & _).
      eapply later_trans; [apply atCollisions_later | apply collisions_later].
  - rewrite (update_idle rt dt g) by auto. apply later_refl.
  - rewrite (update_idle rt dt g) by auto. apply later_refl.
Qed.

Lemma updates_later rt dts g :
  Forall2 laterEnemy (enemies g) (enemies (updates rt dts g)).
Proof.
  revert g. unfold updates.
  induction dts as [|dt dts IH]; intros g; simpl; [apply later_refl|].
  eapply later_trans; [apply (update_later rt dt g) | apply IH].
Qed.

(** X3.  Through any run of [update] calls the enemy collection keeps its
    length and its order; every enemy keeps its grid cell, its size and its
    colour, and an enemy that is inactive never becomes active again. *)
Theorem formation_only_fades rt dts g :
  let g' := updates rt dts g in
  length (enemies g') = length (enemies g)
  /\ Forall2 laterEnemy (enemies g) (enemies g').
Proof.
  cbv zeta. pose proof (updates_later rt dts g) as H.
  split; [symmetry; eapply Forall2_length; exact H | exact H].
Qed.

(** ** Score and kills *)

Lemma activeCount_later (es es' : list Enemy) :
  Forall2 laterEnemy es es' -> (activeCount es' <= activeCount es)%nat.
Proof.
  unfold activeCount. induction 1 as [|e e' es es' [_ He] _ IH]; simpl; [lia|].
  destruct (active e') eqn:Ha'.
  - rewrite (He eq_refl). simpl. lia.
  - destruct (active e); simpl; lia.
Qed.

Lemma activeCount_actives (es es' : list Enemy) :
  map (fun e : Enemy => active e) es' = map (fun e : Enemy => active e) es ->
  activeCount es' = activeCount es.
Proof.
  unfold activeCount. revert es'.
  induction es as [|e es IH]; intros [|e' es'] H; simpl in *;
    try discriminate; [reflexivity|].
  injection H as Ha Hrest. rewrite Ha.
  destruct (active e); simpl; now rewrite (IH es' Hrest).
Qed.

Lemma enemyLogic_actives rt m g :
  map (fun e : Enemy => active e) (enemies (enemyLogic rt m g))
  = map (fun e : Enemy => active e) (enemies g).
Proof.
  unfold enemyLogic.
  pose proof (forEach_map standing standing (onLiving (enemyTick rt m))
                (enemyTick_standing rt m) (enemies g) (g, false)) as Hst.
  destruct (forEach (onLiving (enemyTick rt m)) (g, false) (enemies g))
    as [[g' hw] es].
  cbn [snd] in Hst.
  apply (f_equal (map snd)) in Hst. rewrite !map_map in Hst. cbn in Hst.
  destruct hw; cbv zeta;
    cbn [enemies set_enemies set_enemyDirection set_enemySpeed]; [|exact Hst].
  pose proof (forEach_map standing (fun e : Enemy => (dropped e, active e))
                (onLiving dropEnemy) dropEnemy_dropped es tt) as Hdr.
  apply (f_equal (map snd)) in Hdr. rewrite !map_map in Hdr. cbn in Hdr.
  now rewrite Hdr.
Qed.

Lemma collideBullet_conserves rt g (b : Bullet) :
  (score (fst (collideBullet rt g b))
   + 100 * Z.of_nat (activeCount (enemies (fst (collideBullet rt g b)))))%Z
  = (score g + 100 * Z.of_nat (activeCount (enemies g)))%Z.
Proof.
  destruct (active b) eqn:Ha.
  - destruct (isPlayerBullet b) eqn:Hp.
    + destruct (collideBullet_player rt g b Ha Hp)
        as (E1 & _ & E3 & _).
      rewrite E1, E3. unfold activeCount.
      pose proof (struck_leaves_fewer b (enemies g)) as H. lia.
    + unfold collideBullet. rewrite Ha, Hp. cbn [negb].
      destruct (overlaps b (player g)); [|reflexivity].
      cbv zeta.
      match goal with |- context [spawnParticles ?r ?a ?c ?d ?n ?h] =>
        destruct (spawnParticles_shape r a c d n h) as (new & k & -> & _) end.
      reflexivity.
  - unfold collideBullet. rewrite Ha. reflexivity.
Qed.

Lemma collisions_conserves rt g :
  (score (collisions rt g)
   + 100 * Z.of_nat (activeCount (enemies (collisions rt g))))%Z
  = (score g + 100 * Z.of_nat (activeCount (enemies g)))%Z.
Proof.
  unfold collisions.
  pose proof (forEach_inv
    (fun s => (score s + 100 * Z.of_nat (activeCount (enemies s)))%Z
              = (score g + 100 * Z.of_nat (activeCount (enemies g)))%Z)
    (collideBullet rt)) as H.
  assert (Hstep : forall s (a : Bullet),
    (score s + 100 * Z.of_nat (activeCount (enemies s)))%Z
      = (score g + 100 * Z.of_nat (activeCount (enemies g)))%Z ->
    (score (fst (collideBullet rt s a))
     + 100 * Z.of_nat (activeCount (enemies (fst (collideBullet rt s a)))))%Z
      = (score g + 100 * Z.of_nat (activeCount (enemies g)))%Z).
  { intros s a Hs. now rewrite collideBullet_conserves. }
  specialize (H Hstep (bullets g) g eq_refl).
  destruct (forEach (collideBullet rt) g (bullets g)) as [g' bs]. exact H.
Qed.

Lemma atCollisions_conserves rt g :
  score (atCollisions rt g) = score g
  /\ activeCount (enemies (atCollisions rt g)) = activeCount (enemies g).
Proof.
  split; [apply atCollisions_score|].
  unfold atCollisions. apply activeCount_actives.
  rewrite enemyLogic_actives.
  destruct (beforeEnemies_formation g) as (Ben & _). now rewrite Ben.
Qed.

Lemma update_conserves rt dt g :
  (score (update rt dt g)
   + 100 * Z.of_nat (activeCount (enemies (update rt dt g))))%Z
  = (score g + 100 * Z.of_nat (activeCount (enemies g)))%Z.
Proof.
  destruct (state g) eqn:Hs.
  - now rewrite (update_idle rt dt g) by auto.
  - destruct (countdown_frame rt dt g Hs) as (_ & -> & _ & _ & -> & _).
    reflexivity.
  - destruct (livingEnemies g) eqn:Hl.
    + rewrite (update_victory rt dt g Hs Hl).
      destruct (beforeEnemies_formation g) as (Ben & _ & _ & Bsc & _).
      revert Ben Bsc. generalize (beforeEnemies g). clear. intros g1 Ben Bsc.
      cbn [enemies score emit set_calls set_state]. now rewrite Ben, Bsc.
    + assert (Hb : livingEnemies (beforeEnemies g) <> [])
        by (rewrite livingEnemies_before, Hl; discriminate).
      rewrite (update_reaches_collisions rt dt g Hs Hb).
      destruct (finishing_touches (collisions rt (atCollisions rt g)))
        as (_ & _ & _ & -> & _ & _ & -> & _).
      rewrite collisions_conserves.
      destruct (atCollisions_conserves rt g) as (-> & ->). reflexivity.
  - now rewrite (update_idle rt dt g) by auto.
  - now rewrite (update_idle rt dt g) by auto.
Qed.

Lemma updates_conserve rt dts g :
  (score (updates rt dts g)
   + 100 * Z.of_nat (activeCount (enemies (updates rt dts g))))%Z
  = (score g + 100 * Z.of_nat (activeCount (enemies g)))%Z.
Proof.
  revert g. unfold updates.
  induction dts as [|dt dts IH]; intros g; simpl; [reflexivity|].
  rewrite IH. apply update_conserves.
Qed.

(** X4.  Over any run of [update] calls the score grows by exactly 100 for
    every enemy that goes from active to inactive: the score plus 100 times
    the number of active enemies is conserved, and the score never
    decreases. *)
Theorem score_counts_kills rt dts g :
  let g' := updates rt dts g in
  (score g' + 100 * Z.of_nat (activeCount (enemies g')))%Z
  = (score g + 100 * Z.of_nat (activeCount (enemies g)))%Z
  /\ (score g <= score g')%Z.
Proof.
  cbv zeta. pose proof (updates_conserve rt dts g) as H.
  split; [exact H|].
  pose proof (activeCount_later _ _ (updates_later rt dts g)) as Hl. lia.
Qed.

(** ** Loss by contact *)

Lemma enemyTick_calls rt m (s : GameEngine * bool) (e : Enemy) :
  exists cs, calls (fst (fst (onLiving (enemyTick rt m) s e)))
             = calls (fst s) ++ cs.
Proof.
  unfold onLiving. destruct (active e).
  - destruct s as [g hw]. unfold enemyTick, Math_random, emit. cbv zeta.
    cbn [fst snd].
    destruct (Qleb (y (player g)) _);
      match goal with |- context [Qltb ?a ?b] => destruct (Qltb a b) end;
      cbn; rewrite <- ?app_assoc; eexists; try reflexivity;
      symmetry; apply app_nil_r.
  - exists []. now rewrite app_nil_r.
Qed.

Lemma enemyTick_contact rt m g hw (e : Enemy) :
  active e = true -> y (player g) <= y e + height e ->
  let g' := fst (fst (onLiving (enemyTick rt m) (g, hw) e)) in
  state g' = GAME_OVER
  /\ In playExplosion (calls g') /\ In (onStateUpdate GAME_OVER) (calls g').
Proof.
  intros Ha Hy. cbv zeta. unfold onLiving. rewrite Ha.
  unfold enemyTick, Math_random, emit. cbv zeta. cbn [fst snd].
  apply Qleb_le in Hy.
  replace (Qleb (y (player g)) (y (onEnemy (setX (x e + enemySpeed g * inject_Z (enemyDirection g))) e) + height (onEnemy (setX (x e + enemySpeed g * inject_Z (enemyDirection g))) e)))
    with true by (symmetry; exact Hy).
  match goal with |- context [Qltb ?a ?b] => destruct (Qltb a b) end;
    cbn; rewrite <- app_assoc; repeat split;
    apply in_or_app; right; simpl; auto.
Qed.

Lemma enemyLogic_calls_grow rt m g :
  exists cs, calls (enemyLogic rt m g) = calls g ++ cs.
Proof.
  unfold enemyLogic.
  pose proof (forEach_inv
    (fun s : GameEngine * bool => exists cs, calls (fst s) = calls g ++ cs)
    (onLiving (enemyTick rt m))) as H.
  assert (Hstep : forall (s : GameEngine * bool) (a : Enemy),
    (exists cs, calls (fst s) = calls g ++ cs) ->
    exists cs, calls (fst (fst (onLiving (enemyTick rt m) s a)))
               = calls g ++ cs).
  { intros s a (cs & Hs). destruct (enemyTick_calls rt m s a) as (cs' & ->).
    rewrite Hs, <- app_assoc. eexists. reflexivity. }
  specialize (H Hstep (enemies g) (g, false)
                (ex_intro _ [] (eq_sym (app_nil_r _)))).
  destruct (forEach (onLiving (enemyTick rt m)) (g, false) (enemies g))
    as [[g' hw] es].
  cbn [fst] in H. destruct hw; exact H.
Qed.

Lemma enemyLogic_contact rt m g (e : Enemy) :
  In e (enemies g) -> active e = true -> y (player g) <= y e + height e ->
  let g' := enemyLogic rt m g in
  state g' = GAME_OVER
  /\ In playExplosion (calls g') /\ In (onStateUpdate GAME_OVER) (calls g').
Proof.
  intros Hin Ha Hy. cbv zeta. unfold enemyLogic.
  pose proof (forEach_reaches
    (fun s : GameEngine * bool => player (fst s) = player g)
    (fun s : GameEngine * bool =>
       state (fst s) = GAME_OVER
       /\ In playExplosion (calls (fst s))
       /\ In (onStateUpdate GAME_OVER) (calls (fst s)))
    (onLiving (enemyTick rt m)) e) as H.
  assert (H' : state (fst (fst (forEach (onLiving (enemyTick rt m)) (g, false)
                                        (enemies g)))) = GAME_OVER
               /\ In playExplosion
                     (calls (fst (fst (forEach (onLiving (enemyTick rt m))
                                               (g, false) (enemies g)))))
               /\ In (onStateUpdate GAME_OVER)
                     (calls (fst (fst (forEach (onLiving (enemyTick rt m))
                                               (g, false) (enemies g)))))).
  { apply H; try assumption; try reflexivity.
    - intros [h w] b Hs. cbn [fst] in Hs.
      pose proof (enemyLoop_frame rt m h w [b]) as (Ft & _).
      simpl in Ft.
      destruct (onLiving (enemyTick rt m) (h, w) b) as [[h' w'] b'].
      cbn [fst] in *. unfold tally, surroundings in Ft. congruence.
    - intros s b (Q1 & Q2 & Q3).
      destruct (enemyTick_calls rt m s b) as (cs & Hc).
      assert (Hst : state (fst (fst (onLiving (enemyTick rt m) s b)))
                    = GAME_OVER).
      { unfold onLiving. destruct (active b); [|exact Q1].
        destruct (enemyTick_state rt m s b) as [E | E]; congruence. }
      rewrite Hc. split; [exact Hst|].
      split; apply in_or_app; left; assumption.
    - intros [h w] Hs. cbn [fst] in Hs.
      apply enemyTick_contact; [exact Ha | now rewrite Hs]. }
  destruct (forEach (onLiving (enemyTick rt m)) (g, false) (enemies g))
    as [[g' hw] es].
  cbn [fst] in H'. destruct hw; exact H'.
Qed.

Lemma collisions_calls_grow rt g :
  exists cs, calls (collisions rt g) = calls g ++ cs.
Proof.
  unfold collisions.
  pose proof (forEach_inv
    (fun s => exists cs, calls s = calls g ++ cs) (collideBullet rt)) as H.
  assert (Hstep : forall s (a : Bullet),
    (exists cs, calls s = calls g ++ cs) ->
    exists cs, calls (fst (collideBullet rt s a)) = calls g ++ cs).
  { intros s a (cs & Hs). destruct (collideBullet_calls rt s a) as (cs' & ->).
    rewrite Hs, <- app_assoc. eexists. reflexivity. }
  specialize (H Hstep (bullets g) g (ex_intro _ [] (eq_sym (app_nil_r _)))).
  destruct (forEach (collideBullet rt) g (bullets g)) as [g' bs]. exact H.
Qed.

Lemma atCollisions_contact rt g (e : Enemy) :
  In e (enemies g) -> active e = true -> y (player g) <= y e + height e ->
  state (atCollisions rt g) = GAME_OVER
  /\ In playExplosion (calls (atCollisions rt g))
  /\ In (onStateUpdate GAME_OVER) (calls (atCollisions rt g)).
Proof.
  intros Hin Ha Hy. unfold atCollisions.
  apply (enemyLogic_contact rt (getDifficultyMultipliers g) (beforeEnemies g) e).
  - destruct (beforeEnemies_formation g) as (Ben & _). now rewrite Ben.
  - exact Ha.
  - destruct (beforeEnemies_shape g) as (v & cd & bs & cs & -> & _).
    exact Hy.
Qed.

(** X5.  Loss by contact.  If, when [update] is called in PLAYING, the
    bottom edge of some active enemy is at or below the player's y, the call
    ends in GAME_OVER, having played the explosion and invoked the state
    callback with GAME_OVER; where the enemy stands horizontally does not
    matter. *)
Theorem contact_ends_game rt dt g (e : Enemy) :
  state g = PLAYING ->
  In e (enemies g) -> active e = true -> y (player g) <= y e + height e ->
  let g' := update rt dt g in
  state g' = GAME_OVER
  /\ In playExplosion (calls g') /\ In (onStateUpdate GAME_OVER) (calls g').
Proof.
  intros Hs Hin Ha Hy. cbv zeta.
  rewrite (update_reaches_collisions rt dt g Hs (living_before g e Hin Ha)).
  destruct (finishing_touches (collisions rt (atCollisions rt g)))
    as (-> & -> & _).
  destruct (atCollisions_contact rt g e Hin Ha Hy) as (Cs & Ce & Cc).
  pose proof (collisions_state rt (atCollisions rt g)) as Hst.
  destruct (collisions_calls_grow rt (atCollisions rt g)) as (cs & Hcs).
  revert Cs Ce Cc Hst Hcs.
  generalize (collisions rt (atCollisions rt g)).
  generalize (atCollisions rt g).
  clear. intros g1 g2 Cs Ce Cc Hst Hcs.
  split; [destruct Hst; congruence|].
  rewrite Hcs. split; apply in_or_app; left; assumption.
Qed.

Lemma contact_ends_game_witness :
  let g' := update (constantRuntime (1 / 2)) 16 landedSession in
  y (player landedSession) <= y landedEnemy + height landedEnemy
  /\ ~ overlaps landedEnemy (player landedSession) = true
  /\ state g' = GAME_OVER.
Proof.
  cbv zeta.
  assert (Hy : y (player landedSession) <= y landedEnemy + height landedEnemy)
    by (vm_compute; discriminate).
  split; [exact Hy|]. split; [vm_compute; discriminate|].
  assert (Hs : state landedSession = PLAYING) by (vm_compute; reflexivity).
  assert (Hin : In landedEnemy (enemies landedSession))
    by (vm_compute; left; reflexivity).
  assert (Ha : active landedEnemy = true) by reflexivity.
  destruct (contact_ends_game (constantRuntime (1 / 2)) 16 landedSession
              landedEnemy Hs Hin Ha Hy) as (H & _).
  exact H.
Defined.

(** ** Purging *)

Lemma tickParticle_active (p : Particle) :
  active (tickParticle p) = true ->
  active p = true /\ (0 < life (tickParticle p))%Z
  /\ 0.2 <= width (tickParticle p).
Proof.
  unfold tickParticle. cbv zeta.
  match goal with |- context [if ?c then _ else _] => destruct c eqn:E end.
  - cbn. discriminate.
  - apply orb_false_elim in E as [E1 E2].
    apply Z.leb_gt in E1. apply Qltb_ge in E2.
    cbn in *. auto.
Qed.

Lemma finishing_particles g :
  particles (cleanup (updateParticles g))
  = List.filter (fun p : Particle => active p) (map tickParticle (particles g)).
Proof. reflexivity. Qed.

(** X6.  A call of [update] in PLAYING that gets past the victory test
    leaves no inactive member in the bullet and particle collections: every
    bullet is active, and every particle is active, has a positive life and
    a radius of at least 0.2. *)
Theorem update_purges rt dt g :
  state g = PLAYING -> livingEnemies g <> [] ->
  let g' := update rt dt g in
  Forall (fun b : Bullet => active b = true) (bullets g')
  /\ Forall (fun p : Particle =>
               active p = true /\ (0 < life p)%Z /\ 0.2 <= width p)
            (particles g').
Proof.
  intros Hs Hl. cbv zeta.
  assert (Hb : livingEnemies (beforeEnemies g) <> [])
    by (rewrite livingEnemies_before; exact Hl).
  rewrite (update_reaches_collisions rt dt g Hs Hb).
  rewrite finishing_particles.
  destruct (finishing_touches (collisions rt (atCollisions rt g)))
    as (_ & _ & _ & _ & _ & _ & _ & ->).
  generalize (collisions rt (atCollisions rt g)). clear. intros g1.
  split; apply List.Forall_forall.
  - intros b Hb. apply filter_In in Hb. apply Hb.
  - intros p Hp. apply filter_In in Hp as [Hin Hact].
    apply in_map_iff in Hin as (q & <- & _).
    split; [exact Hact | apply tickParticle_active; exact Hact].
Qed.

Lemma update_purges_witness :
  let g' := update (constantRuntime (1 / 2)) 16 stackedState in
  livingEnemies stackedState <> []
  /\ bullets g' = []
  /\ Forall (fun p : Particle => active p = true) (particles g').
Proof.
  cbv zeta.
  assert (Hl : livingEnemies stackedState <> []) by (vm_compute; discriminate).
  split; [exact Hl|]. split; [vm_compute; reflexivity|].
  assert (Hs : state stackedState = PLAYING) by reflexivity.
  destruct (update_purges (constantRuntime (1 / 2)) 16 stackedState
              Hs Hl) as (_ & Hp).
  revert Hp. generalize (particles (update (constantRuntime (1 / 2)) 16
                                           stackedState)).
  clear. intros ps Hp.
  induction Hp as [|p ps [Hp _] _ IH]; constructor; assumption.
Defined.

(** ** The decay of a particle *)

Lemma tickParticle_step (p : Particle) :
  life (tickParticle p) = (life p - 1)%Z
  /\ width (tickParticle p) = width p * 0.96
  /\ dx (tickParticle p) = dx p * 0.95
  /\ dy (tickParticle p) = dy p * 0.95
  /\ x (tickParticle p) = x p + dx p
  /\ y (tickParticle p) = y p + dy p
  /\ maxLife (tickParticle p) = maxLife p
  /\ (active p = false -> active (tickParticle p) = false)
  /\ ((life p <= 1)%Z -> active (tickParticle p) = false).
Proof.
  unfold tickParticle. cbv zeta.
  match goal with |- context [if ?c then _ else _] => destruct c eqn:E end;
    cbn; repeat split; auto.
  intros Hl. apply orb_false_elim in E as [E1 _].
  apply Z.leb_gt in E1. cbn in E1. lia.
Qed.

Lemma ticks_inactive n : forall p : Particle,
  active p = false -> active (ticks n p) = false.
Proof.
  induction n as [|n IH]; intros p Hp; [exact Hp|].
  simpl. apply IH.
  destruct (tickParticle_step p) as (_ & _ & _ & _ & _ & _ & _ & H & _).
  exact (H Hp).
Qed.

Lemma ticks_life n : forall p : Particle,
  life (ticks n p) = (life p - Z.of_nat n)%Z
  /\ maxLife (ticks n p) = maxLife p.
Proof.
  induction n as [|n IH]; intros p; simpl.
  - split; [lia | reflexivity].
  - destruct (IH (tickParticle p)) as [-> ->].
    destruct (tickParticle_step p) as (-> & _ & _ & _ & _ & _ & -> & _).
    split; [lia | reflexivity].
Qed.

Lemma ticks_expire n : forall p : Particle,
  (1 <= n)%nat -> (life p <= Z.of_nat n)%Z -> active (ticks n p) = false.
Proof.
  induction n as [|n IH]; intros p Hn Hl; [lia|].
  simpl. destruct (Z_le_gt_dec (life p) 1) as [H1 | H1].
  - apply ticks_inactive.
    destruct (tickParticle_step p) as (_ & _ & _ & _ & _ & _ & _ & _ & H).
    exact (H H1).
  - apply IH; [lia|].
    destruct (tickParticle_step p) as (-> & _). lia.
Qed.

Lemma ticks_shrink n : forall p : Particle,
  0 <= width p ->
  0 <= width (ticks n p) /\ width (ticks n p) <= width p.
Proof.
  induction n as [|n IH]; intros p Hw; simpl; [lra|].
  destruct (tickParticle_step p) as (_ & Hwd & _).
  assert (H0 : 0 <= width (tickParticle p)) by (rewrite Hwd; lra).
  destruct (IH (tickParticle p) H0) as [A B].
  split; [exact A|]. rewrite Hwd in B. lra.
Qed.

Lemma Qpower_next (q : Q) (n : nat) :
  ~ q == 0 -> q ^ Z.of_nat (S n) == q * q ^ Z.of_nat n.
Proof.
  intros Hq. rewrite Nat2Z.inj_succ. unfold Z.succ.
  rewrite Z.add_comm. rewrite (Qpower_plus q 1 (Z.of_nat n) Hq).
  reflexivity.
Qed.

Lemma ticks_scale n : forall p : Particle,
  width (ticks n p) == width p * 0.96 ^ Z.of_nat n
  /\ dx (ticks n p) == dx p * 0.95 ^ Z.of_nat n
  /\ dy (ticks n p) == dy p * 0.95 ^ Z.of_nat n.
Proof.
  induction n as [|n IH]; intros p.
  - change (ticks 0 p) with p. change (Z.of_nat 0) with 0%Z.
    rewrite !Qpower_0_r. repeat split; ring.
  - change (ticks (S n) p) with (ticks n (tickParticle p)).
    destruct (IH (tickParticle p)) as (A & B & C).
    destruct (tickParticle_step p) as (_ & Hw & Hdx & Hdy & _).
    rewrite Hw in A. rewrite Hdx in B. rewrite Hdy in C.
    rewrite A, B, C.
    rewrite (Qpower_next 0.96 n) by discriminate.
    rewrite (Qpower_next 0.95 n) by discriminate.
    repeat split; ring.
Qed.

Lemma tickParticle_survives (p : Particle) :
  active (tickParticle p) = true
  <-> active p = true /\ (1 < life p)%Z /\ 0.2 <= width p * 0.96.
Proof.
  unfold tickParticle. cbv zeta.
  match goal with |- context [if ?c then _ else _] => destruct c eqn:E end;
    cbn; cbn in E.
  - split; [discriminate|]. intros (_ & Hl & Hw).
    apply orb_true_iff in E as [E | E].
    + apply Z.leb_le in E. lia.
    + apply Qltb_lt in E. lra.
  - apply orb_false_elim in E as [E1 E2].
    apply Z.leb_gt in E1. apply Qltb_ge in E2.
    split.
    + intros H. split; [exact H|]. split; [lia | exact E2].
    + intros (H & _). exact H.
Qed.

(** X7.  The decay of a particle.  One round of the particle loop moves
    the particle by its velocity, lowers the life by one, scales the
    velocity by 0.95 and the radius by 0.96, and leaves the particle active
    exactly when it was active, its life was above 1 and its scaled radius
    is at least 0.2.  After [n] rounds the radius is [0.96 ^ n] and the
    velocity [0.95 ^ n] of what they were, the life is [n] less, and the
    radius has not grown; a particle that is inactive stays so, and once
    [n] reaches the life the particle is inactive: a particle as emitted
    (life 45) is inactive after 45 rounds, whatever its radius. *)
Theorem particle_expires (p : Particle) (n : nat) :
  0 <= width p ->
  (x (tickParticle p) = x p + dx p /\ y (tickParticle p) = y p + dy p
   /\ life (tickParticle p) = (life p - 1)%Z
   /\ dx (tickParticle p) = dx p * 0.95 /\ dy (tickParticle p) = dy p * 0.95
   /\ width (tickParticle p) = width p * 0.96
   /\ (active (tickParticle p) = true
       <-> active p = true /\ (1 < life p)%Z /\ 0.2 <= width p * 0.96))
  /\ (width (ticks n p) == width p * 0.96 ^ Z.of_nat n
      /\ dx (ticks n p) == dx p * 0.95 ^ Z.of_nat n
      /\ dy (ticks n p) == dy p * 0.95 ^ Z.of_nat n)
  /\ life (ticks n p) = (life p - Z.of_nat n)%Z
  /\ (0 <= width (ticks n p) /\ width (ticks n p) <= width p)
  /\ (active p = false -> active (ticks n p) = false)
  /\ ((1 <= n)%nat -> (life p <= Z.of_nat n)%Z -> active (ticks n p) = false)
  /\ (life p = PARTICLE_LIFE -> active (ticks 45 p) = false).
Proof.
  intros Hw.
  split.
  { destruct (tickParticle_step p) as (A & B & C & D & E & F & _).
    repeat (split; [assumption|]). apply tickParticle_survives. }
  split; [apply ticks_scale|].
  split; [apply ticks_life|].
  split; [now apply ticks_shrink|].
  split; [apply ticks_inactive|].
  split; [apply ticks_expire|].
  intros Hl. apply ticks_expire; [lia | rewrite Hl; reflexivity].
Qed.

Lemma particle_expires_witness :
  (0 <= width freshSpark
   /\ width (tickParticle freshSpark) == 4.32
   /\ dx (tickParticle freshSpark) == 2.85
   /\ x (tickParticle freshSpark) == 103
   /\ width (ticks 2 freshSpark) == 4.5 * 0.96 ^ 2
   /\ width (ticks 2 freshSpark) == 4.1472
   /\ life (ticks 44 freshSpark) = 1%Z
   /\ active (ticks 44 freshSpark) = true
   /\ active (ticks 45 freshSpark) = false)
  /\ (0 <= width dimSpark /\ life (tickParticle dimSpark) = 44%Z
      /\ width (tickParticle dimSpark) == 0.192
      /\ active (tickParticle dimSpark) = false).
Proof.
  assert (Hw : 0 <= width freshSpark) by (vm_compute; discriminate).
  assert (Hd : 0 <= width dimSpark) by (vm_compute; discriminate).
  destruct (particle_expires freshSpark 2 Hw)
    as ((Hx & _ & _ & Hdx & _ & Hwd & _) & (Hsc & _) & _).
  destruct (particle_expires freshSpark 44 Hw) as (_ & _ & Hl & _).
  destruct (particle_expires freshSpark 45 Hw)
    as (_ & _ & _ & _ & _ & _ & He).
  destruct (particle_expires dimSpark 1 Hd)
    as ((_ & _ & Hdl & _ & _ & Hdw & Hda) & _).
  split.
  - split; [exact Hw|].
    split; [rewrite Hwd; vm_compute; reflexivity|].
    split; [rewrite Hdx; vm_compute; reflexivity|].
    split; [rewrite Hx; vm_compute; reflexivity|].
    split; [exact Hsc|].
    split; [rewrite Hsc; vm_compute; reflexivity|].
    split; [exact Hl|].
    split; [vm_compute; reflexivity | exact (He eq_refl)].
  - split; [exact Hd|]. split; [exact Hdl|].
    split; [rewrite Hdw; vm_compute; reflexivity|].
    destruct (active (tickParticle dimSpark)) eqn:Ea; [|reflexivity].
    destruct Hda as [Hda _]. destruct (Hda eq_refl) as (_ & _ & Hlim).
    vm_compute in Hlim. exfalso. apply Hlim. reflexivity.
Defined.

(** ** The player's fire *)

Lemma shots_app (l l' : list Call) : shots (l ++ l') = (shots l + shots l')%nat.
Proof.
  induction l as [|c l IH]; simpl; [reflexivity|].
  destruct c; simpl; rewrite IH; reflexivity.
Qed.

Lemma shots_killCalls k : forall s, shots (killCalls s k) = 0%nat.
Proof. induction k as [|k IH]; intros s; simpl; auto. Qed.

Lemma enemyTick_shots rt m (s : GameEngine * bool) (e : Enemy) :
  shots (calls (fst (fst (onLiving (enemyTick rt m) s e))))
  = shots (calls (fst s)).
Proof.
  unfold onLiving. destruct (active e); [|reflexivity].
  destruct s as [g hw]. unfold enemyTick, Math_random, emit. cbv zeta.
  cbn [fst snd].
  destruct (Qleb (y (player g)) _);
    match goal with |- context [Qltb ?a ?b] => destruct (Qltb a b) end;
    cbn; rewrite ?shots_app; simpl; lia.
Qed.

Lemma enemyLogic_shots rt m g :
  shots (calls (enemyLogic rt m g)) = shots (calls g).
Proof.
  unfold enemyLogic.
  pose proof (forEach_inv
    (fun s : GameEngine * bool => shots (calls (fst s)) = shots (calls g))
    (onLiving (enemyTick rt m))) as H.
  assert (Hstep : forall (s : GameEngine * bool) (a : Enemy),
    shots (calls (fst s)) = shots (calls g) ->
    shots (calls (fst (fst (onLiving (enemyTick rt m) s a))))
    = shots (calls g)).
  { intros s a Hs. now rewrite enemyTick_shots. }
  specialize (H Hstep (enemies g) (g, false) eq_refl).
  destruct (forEach (onLiving (enemyTick rt m)) (g, false) (enemies g))
    as [[g' hw] es].
  cbn [fst] in H. destruct hw; exact H.
Qed.

Lemma collideBullet_shots rt g (b : Bullet) :
  shots (calls (fst (collideBullet rt g b))) = shots (calls g).
Proof.
  destruct (active b) eqn:Ha.
  - destruct (isPlayerBullet b) eqn:Hp.
    + destruct (collideBullet_player rt g b Ha Hp) as (_ & _ & _ & -> & _).
      rewrite shots_app, shots_killCalls. lia.
    + unfold collideBullet. rewrite Ha, Hp. cbn [negb].
      destruct (overlaps b (player g)); [|reflexivity].
      cbv zeta.
      match goal with |- context [spawnParticles ?r ?a ?c ?d ?n ?h] =>
        destruct (spawnParticles_shape r a c d n h) as (new & k & -> & _) end.
      cbn. rewrite !shots_app. simpl. lia.
  - unfold collideBullet. rewrite Ha. reflexivity.
Qed.

Lemma collisions_shots rt g :
  shots (calls (collisions rt g)) = shots (calls g).
Proof.
  unfold collisions.
  pose proof (forEach_inv
    (fun s => shots (calls s) = shots (calls g)) (collideBullet rt)) as H.
  assert (Hstep : forall s (a : Bullet),
    shots (calls s) = shots (calls g) ->
    shots (calls (fst (collideBullet rt s a))) = shots (calls g)).
  { intros s a Hs. now rewrite collideBullet_shots. }
  specialize (H Hstep (bullets g) g eq_refl).
  destruct (forEach (collideBullet rt) g (bullets g)) as [g' bs]. exact H.
Qed.

Lemma afterBullets_shots rt m g :
  shots (calls (afterBullets rt m g)) = shots (calls g).
Proof.
  unfold afterBullets. destruct (livingEnemies g).
  - cbn. rewrite shots_app. simpl. lia.
  - destruct (finishing_touches (collisions rt (enemyLogic rt m g)))
      as (_ & -> & _).
    now rewrite collisions_shots, enemyLogic_shots.
Qed.

Lemma playerShoot_exact g :
  cooldown (player (playerShoot g))
  = (if fires g then 15
     else if 0 <? cooldown (player g) then cooldown (player g) - 1
          else cooldown (player g))%Z
  /\ playerBase (player (playerShoot g)) = playerBase (player g)
  /\ calls (playerShoot g) = (if fires g then calls g ++ [playShoot] else calls g)
  /\ bullets (playerShoot g)
     = (if fires g then bullets g ++ [noseBullet (player g)] else bullets g).
Proof.
  unfold playerShoot, fires, fireKeyDown.
  destruct (0 <? cooldown (player g))%Z eqn:Hpos; cbv zeta.
  - replace (keyDown (set_player (setCooldown (cooldown (player g) - 1)
                                               (player g)) g) "Space"
             || keyDown (set_player (setCooldown (cooldown (player g) - 1)
                                                 (player g)) g) "ArrowUp"
             || keyDown (set_player (setCooldown (cooldown (player g) - 1)
                                                 (player g)) g) "KeyW")
      with (keyDown g "Space" || keyDown g "ArrowUp" || keyDown g "KeyW")
      by reflexivity.
    replace (cooldown (player (set_player (setCooldown (cooldown (player g) - 1)
                                                       (player g)) g)))
      with (cooldown (player g) - 1)%Z by reflexivity.
    replace (cooldown (player g) - 1 <=? 0)%Z
      with (cooldown (player g) <=? 1)%Z
      by (apply Z.leb_gt in Hpos || idtac;
          destruct (cooldown (player g) <=? 1)%Z eqn:E1;
          destruct (cooldown (player g) - 1 <=? 0)%Z eqn:E2;
          try reflexivity;
          rewrite ?Z.leb_le, ?Z.leb_gt in *; lia).
    destruct (keyDown g "Space" || keyDown g "ArrowUp" || keyDown g "KeyW");
      destruct (cooldown (player g) <=? 1)%Z; repeat split.
  - replace (cooldown (player g) <=? 1)%Z with (cooldown (player g) <=? 0)%Z
      by (apply Z.ltb_ge in Hpos;
          destruct (cooldown (player g) <=? 1)%Z eqn:E1;
          destruct (cooldown (player g) <=? 0)%Z eqn:E2;
          try reflexivity;
          rewrite ?Z.leb_le, ?Z.leb_gt in *; lia).
    destruct (keyDown g "Space" || keyDown g "ArrowUp" || keyDown g "KeyW");
      destruct (cooldown (player g) <=? 0)%Z; repeat split.
Qed.

Lemma movePlayer_fires g :
  fires (movePlayer g) = fires g
  /\ cooldown (player (movePlayer g)) = cooldown (player g)
  /\ calls (movePlayer g) = calls g /\ bullets (movePlayer g) = bullets g
  /\ gheight (movePlayer g) = gheight g.
Proof.
  destruct (movePlayer_shape g) as (v & ->). repeat split.
Qed.

Lemma beforeEnemies_fire g :
  cooldown (player (beforeEnemies g))
  = (if fires g then 15
     else if 0 <? cooldown (player g) then cooldown (player g) - 1
          else cooldown (player g))%Z
  /\ calls (beforeEnemies g)
     = (if fires g then calls g ++ [playShoot] else calls g)
  /\ bullets (beforeEnemies g)
     = map (moveBullet (gheight g))
           (bullets g ++ (if fires g then [noseBullet (player (movePlayer g))]
                          else [])).
Proof.
  unfold beforeEnemies, updateBullets.
  destruct (playerShoot_exact (movePlayer g)) as (Hcd & Hbase & Hca & Hbu).
  destruct (movePlayer_fires g) as (Hf & Hc & Hcs & Hbs & Hh).
  rewrite Hf, Hc in Hcd. rewrite Hf, Hcs in Hca. rewrite Hf, Hbs in Hbu.
  assert (Hgh : gheight (playerShoot (movePlayer g)) = gheight g).
  { destruct (playerShoot_shape (movePlayer g)) as (cd & bs & cs & -> & _).
    exact Hh. }
  revert Hcd Hca Hbu Hgh. generalize (playerShoot (movePlayer g)).
  intros g1 Hcd Hca Hbu Hgh.
  cbn [player calls bullets set_bullets]. rewrite Hcd, Hca, Hbu, Hgh.
  split; [reflexivity|]. split; [reflexivity|].
  destruct (fires g); [reflexivity | now rewrite app_nil_r].
Qed.

(** X8.  The player's fire.  A call of [update] in PLAYING fires for the
    player exactly when a fire key (Space, ArrowUp or KeyW) is held and the
    cooldown is at most 1 as the call starts.  When it fires it calls
    [playShoot] once, leaves the cooldown at 15 and adds one bullet at the
    middle of the ship's top edge, moved once with the other bullets; when
    it does not, no [playShoot] is called and a positive cooldown goes down
    by one.  With a cooldown of 2 or more no key makes it fire. *)
Theorem player_fire_control rt dt g :
  state g = PLAYING ->
  let g' := update rt dt g in
  cooldown (player g')
  = (if fires g then 15
     else if 0 <? cooldown (player g) then cooldown (player g) - 1
          else cooldown (player g))%Z
  /\ shots (calls g') = (shots (calls g) + (if fires g then 1 else 0))%nat
  /\ bullets (beforeEnemies g)
     = map (moveBullet (gheight g))
           (bullets g ++ (if fires g then [noseBullet (player (movePlayer g))]
                          else []))
  /\ ((2 <= cooldown (player g))%Z -> fires g = false).
Proof.
  intros Hs. cbv zeta. rewrite (update_playing rt dt g Hs).
  destruct (beforeEnemies_fire g) as (Hcd & Hca & Hbu).
  pose proof (afterBullets_surroundings rt (getDifficultyMultipliers g)
                (beforeEnemies g)) as Hsur.
  pose proof (afterBullets_shots rt (getDifficultyMultipliers g)
                (beforeEnemies g)) as Hsh.
  split; [|split; [|split]].
  - unfold surroundings in Hsur.
    assert (Hp : player (afterBullets rt (getDifficultyMultipliers g)
                                      (beforeEnemies g))
                 = player (beforeEnemies g)) by congruence.
    rewrite Hp. exact Hcd.
  - rewrite Hsh, Hca. destruct (fires g); [|lia].
    rewrite shots_app. reflexivity.
  - exact Hbu.
  - intros Hc. unfold fires.
    assert (E : (cooldown (player g) <=? 1)%Z = false) by (apply Z.leb_gt; lia).
    rewrite E. apply andb_false_r.
Qed.

Lemma player_fire_control_witness :
  let rt := constantRuntime (1 / 2) in
  let g1 := update rt 16 firingSession in
  let g2 := update rt 16 g1 in
  state firingSession = PLAYING
  /\ (fires firingSession = true /\ cooldown (player g1) = 15%Z
      /\ shots (calls g1) = 1%nat)
  /\ (fires g1 = false /\ cooldown (player g2) = 14%Z
      /\ shots (calls g2) = 1%nat).
Proof.
  cbv zeta.
  assert (Hs : state firingSession = PLAYING) by (vm_compute; reflexivity).
  assert (Hf : fires firingSession = true) by (vm_compute; reflexivity).
  assert (Hc : shots (calls firingSession) = 0%nat) by (vm_compute; reflexivity).
  destruct (player_fire_control (constantRuntime (1 / 2)) 16 firingSession Hs)
    as (C1 & S1 & _ & _).
  rewrite Hf in C1, S1. rewrite Hc in S1.
  split; [exact Hs|]. split; [auto|].
  assert (Hs1 : state (update (constantRuntime (1 / 2)) 16 firingSession)
                = PLAYING) by (vm_compute; reflexivity).
  destruct (player_fire_control (constantRuntime (1 / 2)) 16 _ Hs1)
    as (C2 & S2 & _ & R2).
  assert (Hf1 : fires (update (constantRuntime (1 / 2)) 16 firingSession)
                = false) by (apply R2; rewrite C1; lia).
  rewrite Hf1, C1 in C2. rewrite Hf1, S1 in S2.
  split; [exact Hf1|]. split; [exact C2 | exact S2].
Defined.

(** ** The enemies' fire *)

Lemma enemyTick_fire rt m g hw (e : Enemy) :
  let r := enemyTick rt m (g, hw) e in
  rngPos (fst (fst r)) = S (rngPos g)
  /\ score (fst (fst r)) = score g
  /\ exists new,
       bullets (fst (fst r)) = bullets g ++ new
       /\ (length new <= 1)%nat /\ Forall (firedBy m) new
       /\ (fireThreshold m g <= randomAt rt (rngPos g) -> new = []).
Proof.
  cbv zeta. unfold enemyTick, Math_random, emit. cbv zeta. cbn [fst snd].
  destruct (Qleb (y (player g)) _);
    match goal with |- context [Qltb ?a ?b] =>
      change b with (fireThreshold m g);
      change a with (randomAt rt (rngPos g))
    end;
    destruct (Qltb (randomAt rt (rngPos g)) (fireThreshold m g)) eqn:E;
    (split; [reflexivity|]); (split; [reflexivity|]).
  1,3: eexists; (split; [reflexivity|]); (split; [simpl; lia|]);
       (split; [constructor; [repeat split | constructor]|]);
       intros Hle; apply Qltb_lt in E; exfalso;
       exact (Qlt_not_le _ _ E Hle).
  all: exists []; (split; [symmetry; apply app_nil_r|]);
       (split; [simpl; lia|]); split; [constructor | reflexivity].
Qed.

Lemma enemyLoop_fire rt m es : forall g hw,
  let r := forEach (onLiving (enemyTick rt m)) (g, hw) es in
  rngPos (fst (fst r)) = (rngPos g + activeCount es)%nat
  /\ score (fst (fst r)) = score g
  /\ exists new,
       bullets (fst (fst r)) = bullets g ++ new
       /\ (length new <= activeCount es)%nat /\ Forall (firedBy m) new
       /\ ((forall n, fireThreshold m g <= randomAt rt n) -> new = []).
Proof.
  induction es as [|e es IH]; intros g hw; cbv zeta.
  - simpl. split; [unfold activeCount; simpl; lia|]. split; [reflexivity|].
    exists []. rewrite app_nil_r. repeat split; auto.
  - change (forEach (onLiving (enemyTick rt m)) (g, hw) (e :: es))
      with (let '(s1, a') := onLiving (enemyTick rt m) (g, hw) e in
            let '(s2, l'') := forEach (onLiving (enemyTick rt m)) s1 es in
            (s2, a' :: l'')).
    unfold activeCount. cbn [List.filter].
    destruct (active e) eqn:Ha.
    + replace (onLiving (enemyTick rt m) (g, hw) e)
        with (enemyTick rt m (g, hw) e)
        by (unfold onLiving; now rewrite Ha).
      destruct (enemyTick_fire rt m g hw e)
        as (Hr & Hs & new1 & Hb & Hl1 & Hf1 & Hn1).
      destruct (enemyTick rt m (g, hw) e) as [[g1 hw1] e1].
      cbn [fst snd] in *.
      specialize (IH g1 hw1). cbv zeta in IH.
      destruct (forEach (onLiving (enemyTick rt m)) (g1, hw1) es)
        as [[g2 hw2] es2].
      cbn [fst snd] in *.
      destruct IH as (Ir & Is & new2 & Ib & Il2 & If2 & In2).
      unfold activeCount in *.
      split; [rewrite Ir, Hr; simpl; lia|]. split; [congruence|].
      exists (new1 ++ new2). rewrite Ib, Hb, <- app_assoc.
      split; [reflexivity|].
      split; [rewrite length_app; simpl; lia|].
      split; [apply Forall_app; split; assumption|].
      intros Hall. rewrite (Hn1 (Hall _)).
      assert (Hthr : fireThreshold m g1 = fireThreshold m g)
        by (unfold fireThreshold; now rewrite Hs).
      rewrite In2; [reflexivity|]. intros n. rewrite Hthr. apply Hall.
    + replace (onLiving (enemyTick rt m) (g, hw) e) with ((g, hw), e)
        by (unfold onLiving; now rewrite Ha).
      specialize (IH g hw). cbv zeta in IH.
      destruct (forEach (onLiving (enemyTick rt m)) (g, hw) es)
        as [[g2 hw2] es2].
      cbn [fst snd] in *. exact IH.
Qed.

Lemma multipliers_range g :
  let m := getDifficultyMultipliers g in
  0 < speed m /\ speed m <= 1 /\ freq m = speed m.
Proof.
  cbv zeta. unfold getDifficultyMultipliers.
  destruct (difficulty g); cbn; repeat split; try reflexivity;
    try (intro H; discriminate H).
Qed.

Lemma enemyLogic_fire rt m g :
  rngPos (enemyLogic rt m g) = (rngPos g + activeCount (enemies g))%nat
  /\ exists new,
       bullets (enemyLogic rt m g) = bullets g ++ new
       /\ (length new <= activeCount (enemies g))%nat
       /\ Forall (firedBy m) new
       /\ ((forall n, fireThreshold m g <= randomAt rt n) -> new = []).
Proof.
  unfold enemyLogic.
  pose proof (enemyLoop_fire rt m (enemies g) g false) as (Hr & _ & Hb).
  destruct (forEach (onLiving (enemyTick rt m)) (g, false) (enemies g))
    as [[g1 hw] es].
  cbn [fst] in Hr, Hb. destruct hw; split; assumption.
Qed.

(** X9.  The enemies' fire.  The enemy phase of [update] draws exactly one
    random number for each active enemy, in the order of the collection.  It
    appends at most one bullet per active enemy, none when every draw is at
    or above 0.001 (1 + score / 500) times the frequency multiplier; each
    appended bullet is an enemy's, active, 3 by 10, and falls with speed
    7 / 1.5 times the speed multiplier, which is positive and at most 1. *)
Theorem enemy_fire rt g :
  let m := getDifficultyMultipliers g in
  let g' := enemyLogic rt m g in
  rngPos g' = (rngPos g + activeCount (enemies g))%nat
  /\ (exists new,
        bullets g' = bullets g ++ new
        /\ (length new <= activeCount (enemies g))%nat
        /\ Forall (firedBy m) new
        /\ ((forall n, fireThreshold m g <= randomAt rt n) -> new = []))
  /\ (0 < speed m /\ speed m <= 1 /\ freq m = speed m).
Proof.
  cbv zeta.
  destruct (enemyLogic_fire rt (getDifficultyMultipliers g) g) as (Hr & Hb).
  split; [exact Hr|]. split; [exact Hb | apply multipliers_range].
Qed.

Lemma enemy_fire_witness :
  let rt := constantRuntime (1 / 2) in
  let m := getDifficultyMultipliers sessionEngine in
  (forall n, fireThreshold m sessionEngine <= randomAt rt n)
  /\ bullets (enemyLogic rt m sessionEngine) = bullets sessionEngine
  /\ rngPos (enemyLogic rt m sessionEngine) = (rngPos sessionEngine + 32)%nat.
Proof.
  cbv zeta.
  assert (Hall : forall n,
            fireThreshold (getDifficultyMultipliers sessionEngine) sessionEngine
            <= randomAt (constantRuntime (1 / 2)) n)
    by (intros n; vm_compute; discriminate).
  split; [exact Hall|].
  destruct (enemy_fire (constantRuntime (1 / 2)) sessionEngine)
    as (Hr & (new & Hb & _ & _ & Hn) & _).
  rewrite (Hn Hall), app_nil_r in Hb.
  split; [exact Hb|]. rewrite Hr. vm_compute. reflexivity.
Defined.

(** ** The march of the formation *)

Lemma enemyTick_march rt m g hw (e : Enemy) :
  let r := enemyTick rt m (g, hw) e in
  snd (fst r)
  = (touchesWall (gwidth g) (enemySpeed g) (enemyDirection g) e || hw)
  /\ x (snd r) = x e + enemySpeed g * inject_Z (enemyDirection g)
  /\ y (snd r) = y e /\ active (snd r) = active e
  /\ gwidth (fst (fst r)) = gwidth g
  /\ enemySpeed (fst (fst r)) = enemySpeed g
  /\ enemyDirection (fst (fst r)) = enemyDirection g.
Proof.
  cbv zeta.
  pose proof (enemyTick_frame rt m (g, hw) e) as Hfr.
  unfold tally, surroundings in Hfr. cbn [fst] in Hfr.
  assert (Hw : gwidth (fst (fst (enemyTick rt m (g, hw) e))) = gwidth g)
    by congruence.
  assert (Hsp : enemySpeed (fst (fst (enemyTick rt m (g, hw) e)))
                = enemySpeed g) by congruence.
  assert (Hd : enemyDirection (fst (fst (enemyTick rt m (g, hw) e)))
               = enemyDirection g) by congruence.
  clear Hfr. split; [|repeat split; assumption].
  unfold enemyTick, Math_random. cbv zeta. cbn [fst snd].
  change ((if touchesWall (gwidth g) (enemySpeed g) (enemyDirection g) e
           then true else hw)
          = (touchesWall (gwidth g) (enemySpeed g) (enemyDirection g) e || hw)).
  destruct (touchesWall (gwidth g) (enemySpeed g) (enemyDirection g) e);
    reflexivity.
Qed.

Lemma enemyLoop_march rt m es : forall g hw,
  let r := forEach (onLiving (enemyTick rt m)) (g, hw) es in
  snd (fst r)
  = (existsb (fun e : Enemy =>
                active e
                && touchesWall (gwidth g) (enemySpeed g) (enemyDirection g) e)
             es || hw)
  /\ map (fun e : Enemy => (x e, y e, active e)) (snd r)
     = map (fun e : Enemy =>
              (if active e
               then x e + enemySpeed g * inject_Z (enemyDirection g)
               else x e, y e, active e)) es.
Proof.
  induction es as [|e es IH]; intros g hw; cbv zeta; [split; reflexivity|].
  change (forEach (onLiving (enemyTick rt m)) (g, hw) (e :: es))
    with (let '(s1, a') := onLiving (enemyTick rt m) (g, hw) e in
          let '(s2, l'') := forEach (onLiving (enemyTick rt m)) s1 es in
          (s2, a' :: l'')).
  cbn [existsb map].
  destruct (active e) eqn:Ha.
  - replace (onLiving (enemyTick rt m) (g, hw) e)
      with (enemyTick rt m (g, hw) e)
      by (unfold onLiving; now rewrite Ha).
    destruct (enemyTick_march rt m g hw e)
      as (Hf & Hx & Hy & Hact & Hw & Hsp & Hd).
    destruct (enemyTick rt m (g, hw) e) as [[g1 hw1] e1].
    cbn [fst snd] in *.
    specialize (IH g1 hw1). cbv zeta in IH.
    destruct (forEach (onLiving (enemyTick rt m)) (g1, hw1) es)
      as [[g2 hw2] es2].
    cbn [fst snd] in *. destruct IH as (If & Im).
    rewrite Hw, Hsp, Hd in If. rewrite Hsp, Hd in Im.
    split.
    + rewrite If, Hf. cbn [andb].
      destruct (touchesWall (gwidth g) (enemySpeed g) (enemyDirection g) e);
        destruct (existsb _ es); destruct hw; reflexivity.
    + cbn [map]. rewrite Im, Hx, Hy, Hact, Ha. reflexivity.
  - replace (onLiving (enemyTick rt m) (g, hw) e) with ((g, hw), e)
      by (unfold onLiving; now rewrite Ha).
    specialize (IH g hw). cbv zeta in IH.
    destruct (forEach (onLiving (enemyTick rt m)) (g, hw) es)
      as [[g2 hw2] es2].
    cbn [fst snd] in *. destruct IH as (If & Im).
    split; [exact If|]. cbn [map]. now rewrite Im, Ha.
Qed.

Lemma dropEnemy_place (s : unit) (e : Enemy) :
  (x (snd (onLiving dropEnemy s e)), y (snd (onLiving dropEnemy s e)))
  = (x e, if active e then y e + ENEMY_DROP else y e).
Proof.
  unfold onLiving. destruct (active e); reflexivity.
Qed.

Lemma enemyLogic_march rt m g :
  let g' := enemyLogic rt m g in
  enemyDirection g'
  = (if formationTouchesWall g then enemyDirection g * -1
     else enemyDirection g)%Z
  /\ enemySpeed g'
     = (if formationTouchesWall g then enemySpeed g + 0.2 else enemySpeed g)
  /\ map place (enemies g') = map (marched g) (enemies g).
Proof.
  cbv zeta. unfold enemyLogic.
  pose proof (enemyLoop_frame rt m g false (enemies g)) as (_ & Fd & Fs).
  pose proof (enemyLoop_march rt m (enemies g) g false) as (Hf & Hm).
  rewrite orb_false_r in Hf. fold (formationTouchesWall g) in Hf.
  destruct (forEach (onLiving (enemyTick rt m)) (g, false) (enemies g))
    as [[g1 hw] es1].
  cbn [fst snd] in *. subst hw.
  assert (Hplace : forall (wall : bool) (k : Enemy -> Q),
    (forall e : Enemy, k e = if wall then y e + ENEMY_DROP else y e) ->
    map (fun t : Q * Q * bool =>
           (fst (fst t), if snd t then
                           (if wall then snd (fst t) + ENEMY_DROP
                            else snd (fst t))
                         else snd (fst t)))
        (map (fun e : Enemy =>
                (if active e
                 then x e + enemySpeed g * inject_Z (enemyDirection g)
                 else x e, y e, active e)) (enemies g))
    = map (fun e : Enemy =>
             if active e
             then (x e + enemySpeed g * inject_Z (enemyDirection g), k e)
             else (x e, y e)) (enemies g)).
  { intros wall k Hk. rewrite map_map. apply map_ext. intros e. cbn.
    rewrite Hk. destruct (active e); reflexivity. }
  destruct (formationTouchesWall g) eqn:Hwall; cbv zeta;
    cbn [enemyDirection enemySpeed enemies set_enemies set_enemyDirection
         set_enemySpeed].
  - rewrite Fd, Fs. split; [reflexivity|]. split; [reflexivity|].
    pose proof (forEach_map
      (fun e : Enemy => (x e, y e))
      (fun e : Enemy => (x e, if active e then y e + ENEMY_DROP else y e))
      (onLiving dropEnemy) dropEnemy_place es1 tt) as Hdr.
    unfold place. rewrite Hdr.
    transitivity
      (map (fun t : Q * Q * bool =>
              (fst (fst t), if snd t then snd (fst t) + ENEMY_DROP
                            else snd (fst t)))
           (map (fun e : Enemy => (x e, y e, active e)) es1)).
    { rewrite map_map. apply map_ext. intros e. reflexivity. }
    rewrite Hm, map_map. apply map_ext. intros e. unfold marched.
    rewrite Hwall. cbn. destruct (active e); reflexivity.
  - split; [exact Fd|]. split; [exact Fs|].
    unfold place.
    transitivity
      (map (fun t : Q * Q * bool => fst t)
           (map (fun e : Enemy => (x e, y e, active e)) es1)).
    { rewrite map_map. apply map_ext. intros e. reflexivity. }
    rewrite Hm, map_map. apply map_ext. intros e. unfold marched.
    rewrite Hwall. cbn. destruct (active e); reflexivity.
Qed.

Lemma struck_place b (e : Enemy) : place (struck b e) = place e.
Proof. unfold struck. now destruct (hitBy b e). Qed.

Lemma collisions_places rt g :
  map place (enemies (collisions rt g)) = map place (enemies g).
Proof.
  unfold collisions.
  pose proof (forEach_inv
    (fun s => map place (enemies s) = map place (enemies g))
    (collideBullet rt)) as H.
  assert (Hstep : forall s (a : Bullet),
    map place (enemies s) = map place (enemies g) ->
    map place (enemies (fst (collideBullet rt s a)))
    = map place (enemies g)).
  { intros s a Hs.
    destruct (collideBullet_cases rt s a) as ([-> | ->] & _); [exact Hs|].
    rewrite map_map, <- Hs. apply map_ext. intros e. apply struck_place. }
  specialize (H Hstep (bullets g) g eq_refl).
  destruct (forEach (collideBullet rt) g (bullets g)) as [g' bs]. exact H.
Qed.

Lemma atCollisions_march rt g :
  enemyDirection (atCollisions rt g)
  = (if formationTouchesWall g then enemyDirection g * -1
     else enemyDirection g)%Z
  /\ enemySpeed (atCollisions rt g)
     = (if formationTouchesWall g then enemySpeed g + 0.2 else enemySpeed g)
  /\ map place (enemies (atCollisions rt g)) = map (marched g) (enemies g).
Proof.
  unfold atCollisions.
  destruct (enemyLogic_march rt (getDifficultyMultipliers g) (beforeEnemies g))
    as (Hd & Hs & Hm).
  rewrite Hd, Hs, Hm.
  destruct (beforeEnemies_shape g) as (v & cd & bs & cs & -> & _).
  repeat split.
Qed.

(** X10.  The march of the formation.  In a call of [update] in PLAYING
    with an active enemy, every active enemy moves by [enemySpeed] times
    [enemyDirection] along x and the inactive ones stay.  If after that
    move some active enemy is at or beyond the left edge while the
    formation moves left, or has its right edge at or beyond the width
    while it moves right, the direction is reversed, the speed grows by
    0.2 and every active enemy goes down by 20; otherwise direction, speed
    and heights are unchanged. *)
Theorem formation_march rt dt g :
  state g = PLAYING -> livingEnemies g <> [] ->
  let g' := update rt dt g in
  enemyDirection g'
  = (if formationTouchesWall g then enemyDirection g * -1
     else enemyDirection g)%Z
  /\ enemySpeed g'
     = (if formationTouchesWall g then enemySpeed g + 0.2 else enemySpeed g)
  /\ map place (enemies g') = map (marched g) (enemies g).
Proof.
  intros Hs Hl. cbv zeta.
  assert (Hb : livingEnemies (beforeEnemies g) <> [])
    by (rewrite livingEnemies_before; exact Hl).
  rewrite (update_reaches_collisions rt dt g Hs Hb).
  destruct (finishing_touches (collisions rt (atCollisions rt g)))
    as (_ & _ & _ & -> & -> & -> & _).
  pose proof (collisions_formation rt (atCollisions rt g)) as Hf.
  rewrite (collisions_places rt (atCollisions rt g)).
  destruct (atCollisions_march rt g) as (Md & Ms & Mm).
  unfold formation in Hf.
  revert Hf Md Ms Mm.
  generalize (collisions rt (atCollisions rt g)).
  generalize (atCollisions rt g).
  clear. intros g1 g2 Hf Md Ms Mm.
  rewrite Mm. split; [congruence | split; [congruence | reflexivity]].
Qed.

Lemma formation_march_witness :
  let rt := constantRuntime (1 / 2) in
  (formationTouchesWall sessionEngine = false
   /\ enemyDirection (update rt 16 sessionEngine) = 1%Z
   /\ enemySpeed (update rt 16 sessionEngine) = 1)
  /\ (formationTouchesWall wallState = true
      /\ enemyDirection (update rt 16 wallState) = 1%Z
      /\ enemySpeed (update rt 16 wallState) = 1 + 0.2).
Proof.
  cbv zeta. split.
  - assert (Hs : state sessionEngine = PLAYING) by (vm_compute; reflexivity).
    assert (Hl : livingEnemies sessionEngine <> [])
      by (vm_compute; discriminate).
    assert (Hw : formationTouchesWall sessionEngine = false)
      by (vm_compute; reflexivity).
    destruct (formation_march (constantRuntime (1 / 2)) 16 sessionEngine Hs Hl)
      as (Hd & Hsp & _).
    rewrite Hw in Hd, Hsp.
    split; [exact Hw|]. split; [rewrite Hd | rewrite Hsp];
      vm_compute; reflexivity.
  - assert (Hs : state wallState = PLAYING) by reflexivity.
    assert (Hl : livingEnemies wallState <> []) by (vm_compute; discriminate).
    assert (Hw : formationTouchesWall wallState = true)
      by (vm_compute; reflexivity).
    destruct (formation_march (constantRuntime (1 / 2)) 16 wallState Hs Hl)
      as (Hd & Hsp & _).
    rewrite Hw in Hd, Hsp.
    split; [exact Hw|]. split; [rewrite Hd | rewrite Hsp]; reflexivity.
Defined.

(** ** A new session *)

Lemma resetEntities_grid g : enemies (resetEntities g) = grid (gwidth g).
Proof. reflexivity. Qed.

Lemma grid_wellPlaced w : Forall (wellPlaced w) (grid w).
Proof.
  apply List.Forall_forall. intros e He. unfold grid in He.
  apply in_flat_map in He as (r & Hr & He).
  apply in_map_iff in He as (c & <- & Hc).
  apply in_seq in Hr. apply in_seq in Hc.
  assert (Hrq : 0 <= inject_Z (Z.of_nat r) /\ inject_Z (Z.of_nat r) <= 3).
  { split; [change 0 with (inject_Z 0) | change 3 with (inject_Z 3)];
      rewrite <- Zle_Qle; lia. }
  assert (Hcq : 0 <= inject_Z (Z.of_nat c) /\ inject_Z (Z.of_nat c) <= 7).
  { split; [change 0 with (inject_Z 0) | change 7 with (inject_Z 7)];
      rewrite <- Zle_Qle; lia. }
  unfold wellPlaced, newEnemy. cbn [x y width height active enemyBase].
  revert Hrq Hcq. generalize (inject_Z (Z.of_nat r)) (inject_Z (Z.of_nat c)).
  intros qr qc [R0 R1] [C0 C1].
  split; [reflexivity|]. split; [reflexivity|]. split; [reflexivity|].
  split; [lra|]. split; [lra|].
  intros Hw. unfold Qdiv. change (/ 2) with (1 # 2). split; lra.
Qed.

Lemma grid_cells w :
  length (grid w) = 32%nat /\ NoDup (map gridCell (grid w)).
Proof.
  split; [reflexivity|].
  change (map gridCell (grid w))
    with (flat_map (fun r => map (fun c => (Z.of_nat r, Z.of_nat c)) (seq 0 8))
                   (seq 0 4)).
  apply (bool_decide_unpack _). vm_compute. reflexivity.
Qed.

(** X11.  The grid of a new session.  [resetEntities] empties the bullets
    and the particles, sets speed and direction of the formation to 1,
    centres the player ([x = width / 2 - 20]) and builds 32 active enemies,
    30 by 20, one per cell of 4 rows and 8 columns, between y = 60 and
    y = 200; on a surface at least 400 wide they all lie within the
    surface.  The player's y and cooldown are left as they are. *)
Theorem resetEntities_grid_fits g :
  let g' := resetEntities g in
  bullets g' = [] /\ particles g' = []
  /\ enemySpeed g' = 1 /\ enemyDirection g' = 1%Z
  /\ x (player g') = gwidth g / 2 - 20 /\ active (player g') = true
  /\ y (player g') = y (player g) /\ cooldown (player g') = cooldown (player g)
  /\ length (enemies g') = 32%nat
  /\ NoDup (map gridCell (enemies g'))
  /\ Forall (wellPlaced (gwidth g)) (enemies g').
Proof.
  cbv zeta. rewrite resetEntities_grid.
  destruct (grid_cells (gwidth g)) as [Hl Hn].
  repeat split; try assumption. apply grid_wellPlaced.
Qed.

Lemma resetEntities_grid_fits_witness :
  let g' := resetEntities (newGameEngine 800 600) in
  400 <= gwidth (newGameEngine 800 600)
  /\ Forall (fun e : Enemy => 0 <= x e /\ x e + width e <= 800) (enemies g').
Proof.
  cbv zeta.
  assert (Hw : 400 <= gwidth (newGameEngine 800 600))
    by (vm_compute; discriminate).
  split; [exact Hw|].
  destruct (resetEntities_grid_fits (newGameEngine 800 600))
    as (_ & _ & _ & _ & _ & _ & _ & _ & _ & _ & H).
  revert H. generalize (enemies (resetEntities (newGameEngine 800 600))).
  intros es H. induction H as [|e es He _ IH]; constructor; [|exact IH].
  destruct He as (_ & _ & _ & _ & _ & Hx). exact (Hx Hw).
Defined.

Lemma draw_shape rt g :
  match state g with
  | PLAYING | COUNTDOWN =>
      exists n, draw rt g = emit paint (set_rngPos n g)
                /\ (rngPos g < n <= rngPos g + 2)%nat
  | _ => draw rt g = emit paint g
  end.
Proof.
  unfold draw, Math_random.
  destruct (state g); try reflexivity;
    cbv zeta; destruct (Qltb 0.2 (randomAt rt (rngPos g)));
    eexists; (split; [reflexivity | cbn; lia]).
Qed.

Lemma loop_countdown_shape rt now g :
  state g = COUNTDOWN ->
  countdownTimer g + (now - lastFrameTime g) < 1000 ->
  exists n,
    loop rt now g
    = emit requestAnimationFrame
        (emit paint
           (set_rngPos n
              (set_countdownTimer (countdownTimer g + (now - lastFrameTime g))
                 (set_lastFrameTime now g)))).
Proof.
  intros Hs Hlt. unfold loop. cbv zeta.
  set (gs := set_lastFrameTime now g).
  assert (Hst : state gs = COUNTDOWN) by exact Hs.
  rewrite (update_countdown_wait rt _ gs Hst) by exact Hlt.
  set (gu := set_countdownTimer _ gs).
  pose proof (draw_shape rt gu) as Hd.
  assert (Hus : state gu = COUNTDOWN) by exact Hs.
  rewrite Hus in Hd. destruct Hd as (n & -> & _).
  exists n. cbn [state emit set_calls set_rngPos]. rewrite Hus. reflexivity.
Qed.

(** X12.  A new session.  [start(difficulty)] (with the two clock readings
    less than a second apart) resets the score to 0, empties the bullets and
    the particles, rebuilds the 32 enemies, all active, resets speed and
    direction of the formation to 1 and stores the difficulty, whatever the
    engine held before.  It calls, in this order, the sound manager's
    [resume], the state callback with COUNTDOWN, the score callback with 0,
    one paint and one [requestAnimationFrame].  It does not reset the
    player's cooldown, nor the size of the surface. *)
Theorem start_resets rt d t0 t1 g :
  t0 <= t1 -> t1 < t0 + 1000 ->
  let g' := start rt d t0 t1 g in
  score g' = 0%Z /\ bullets g' = [] /\ particles g' = []
  /\ enemies g' = grid (gwidth g)
  /\ activeCount (enemies g') = 32%nat
  /\ enemySpeed g' = 1 /\ enemyDirection g' = 1%Z /\ difficulty g' = d
  /\ calls g'
     = calls g ++ [soundResume; onStateUpdate COUNTDOWN; onScoreUpdate 0;
                   paint; requestAnimationFrame]
  /\ cooldown (player g') = cooldown (player g)
  /\ gwidth g' = gwidth g /\ gheight g' = gheight g.
Proof.
  intros H0 H1. cbv zeta. rewrite start_loop.
  destruct (loop_countdown_shape rt t1 (startSetup d t0 g) eq_refl)
    as (n & ->).
  { change (0 + (t1 - t0) < 1000). lra. }
  split; [reflexivity|]. split; [reflexivity|]. split; [reflexivity|].
  split; [reflexivity|].
  split; [reflexivity|].
  split; [reflexivity|]. split; [reflexivity|]. split; [reflexivity|].
  split.
  { cbn [calls emit set_calls set_rngPos set_countdownTimer set_lastFrameTime].
    change (calls (startSetup d t0 g))
      with (((calls g ++ [soundResume]) ++ [onStateUpdate COUNTDOWN])
            ++ [onScoreUpdate 0]).
    rewrite <- !app_assoc. reflexivity. }
  repeat split.
Qed.

Lemma start_resets_witness :
  let g' := start (constantRuntime (1 / 2)) EASY 5 9 landedSession in
  (5 <= 9 /\ 9 < 5 + 1000)
  /\ score g' = 0%Z /\ activeCount (enemies g') = 32%nat
  /\ difficulty g' = EASY.
Proof.
  cbv zeta.
  assert (H0 : 5 <= 9) by (vm_compute; discriminate).
  assert (H1 : 9 < 5 + 1000) by reflexivity.
  split; [split; assumption|].
  destruct (start_resets (constantRuntime (1 / 2)) EASY 5 9 landedSession H0 H1)
    as (Hs & _ & _ & _ & Ha & _ & _ & Hd & _).
  split; [exact Hs|]. split; [exact Ha | exact Hd].
Defined.

(** X13.  The score of a session.  After [start] and any run of [update]
    calls the score is 100 times the number of enemies of the grid that are
    no longer active; it lies between 0 and 3200. *)
Theorem session_score rt d t0 t1 g dts :
  t0 <= t1 -> t1 < t0 + 1000 ->
  let g' := updates rt dts (start rt d t0 t1 g) in
  score g' = (100 * (32 - Z.of_nat (activeCount (enemies g'))))%Z
  /\ (0 <= score g' <= 3200)%Z.
Proof.
  intros H0 H1. cbv zeta.
  pose proof (updates_conserve rt dts (start rt d t0 t1 g)) as Hc.
  pose proof (activeCount_later _ _ (updates_later rt dts (start rt d t0 t1 g)))
    as Hl.
  assert (Hs : score (start rt d t0 t1 g) = 0%Z
               /\ activeCount (enemies (start rt d t0 t1 g)) = 32%nat).
  { rewrite start_loop.
    destruct (loop_countdown_shape rt t1 (startSetup d t0 g) eq_refl)
      as (n & ->).
    { change (0 + (t1 - t0) < 1000). lra. }
    split; reflexivity. }
  destruct Hs as [Hs Ha]. rewrite Hs, Ha in Hc. rewrite Ha in Hl.
  revert Hc Hl. generalize (updates rt dts (start rt d t0 t1 g)).
  clear. intros g' Hc Hl. lia.
Qed.

Lemma session_score_witness :
  let rt := constantRuntime (1 / 2) in
  let g' := updates rt [1000; 1000; 1000; 16; 16]
                    (start rt HARD 0 0 (newGameEngine 800 600)) in
  (0 <= 0 /\ 0 < 0 + 1000)
  /\ score g' = (100 * (32 - Z.of_nat (activeCount (enemies g'))))%Z.
Proof.
  cbv zeta.
  assert (H0 : 0 <= 0) by (vm_compute; discriminate).
  assert (H1 : 0 < 0 + 1000) by reflexivity.
  split; [split; assumption|].
  apply (session_score (constantRuntime (1 / 2)) HARD 0 0
           (newGameEngine 800 600) [1000; 1000; 1000; 16; 16] H0 H1).
Defined.

(** ** The loop driver *)

Lemma loop_unfold rt now g :
  loop rt now g
  = let g2 := draw rt (update rt (now - lastFrameTime g)
                              (set_lastFrameTime now g)) in
    match state g2 with
    | PLAYING | COUNTDOWN => emit requestAnimationFrame g2
    | GAME_OVER | VICTORY => draw rt g2
    | START => g2
    end.
Proof. reflexivity. Qed.

Lemma loop_tail rt h :
  let g2 := draw rt h in
  let g' := match state g2 with
            | PLAYING | COUNTDOWN => emit requestAnimationFrame g2
            | GAME_OVER | VICTORY => draw rt g2
            | START => g2
            end in
  state g' = state h
  /\ enemies g' = enemies h /\ bullets g' = bullets h
  /\ particles g' = particles h /\ score g' = score h /\ player g' = player h
  /\ match state h with
     | PLAYING | COUNTDOWN =>
         calls g' = calls h ++ [paint; requestAnimationFrame]
     | GAME_OVER | VICTORY =>
         calls g' = calls h ++ [paint; paint] /\ rngPos g' = rngPos h
     | START => calls g' = calls h ++ [paint] /\ rngPos g' = rngPos h
     end.
Proof.
  cbv zeta. pose proof (draw_shape rt h) as Hd.
  destruct (state h) eqn:Hs.
  - rewrite Hd. cbn [state emit set_calls]. rewrite Hs. repeat split.
    exact Hs.
  - destruct Hd as (n & -> & _). cbn [state emit set_calls set_rngPos].
    rewrite Hs. cbn. rewrite <- app_assoc. repeat split; assumption.
  - destruct Hd as (n & -> & _). cbn [state emit set_calls set_rngPos].
    rewrite Hs. cbn. rewrite <- app_assoc. repeat split; assumption.
  - rewrite Hd. cbn [state emit set_calls]. rewrite Hs.
    pose proof (draw_shape rt (emit paint h)) as Hd2.
    replace (state (emit paint h)) with GAME_OVER in Hd2 by (symmetry; exact Hs).
    rewrite Hd2. cbn. rewrite <- app_assoc. repeat split; assumption.
  - rewrite Hd. cbn [state emit set_calls]. rewrite Hs.
    pose proof (draw_shape rt (emit paint h)) as Hd2.
    replace (state (emit paint h)) with VICTORY in Hd2 by (symmetry; exact Hs).
    rewrite Hd2. cbn. rewrite <- app_assoc. repeat split; assumption.
Qed.

(** X14.  The frame loop.  One run of [loop] calls [update] with the time
    elapsed since the last frame and then paints; painting changes neither
    the state nor the entities.  If the state after [update] is COUNTDOWN or
    PLAYING the run paints once and requests the next frame; if it is
    GAME_OVER or VICTORY it paints twice and requests no frame, so the loop
    stops; in START it paints once and requests no frame. *)
Theorem loop_schedules rt now g :
  let g1 := update rt (now - lastFrameTime g) (set_lastFrameTime now g) in
  let g' := loop rt now g in
  state g' = state g1
  /\ enemies g' = enemies g1 /\ bullets g' = bullets g1
  /\ particles g' = particles g1 /\ score g' = score g1
  /\ player g' = player g1
  /\ match state g1 with
     | PLAYING | COUNTDOWN =>
         calls g' = calls g1 ++ [paint; requestAnimationFrame]
     | GAME_OVER | VICTORY =>
         calls g' = calls g1 ++ [paint; paint] /\ rngPos g' = rngPos g1
     | START => calls g' = calls g1 ++ [paint] /\ rngPos g' = rngPos g1
     end.
Proof.
  cbv zeta. rewrite loop_unfold.
  apply (loop_tail rt (update rt (now - lastFrameTime g)
                              (set_lastFrameTime now g))).
Qed.

(** ** Back to the menu *)

Lemma updates_idle rt dts g :
  state g = START \/ state g = GAME_OVER \/ state g = VICTORY ->
  updates rt dts g = g.
Proof.
  intros Hs. unfold updates. induction dts as [|dt dts IH]; [reflexivity|].
  simpl. rewrite (update_idle rt dt g Hs). exact IH.
Qed.

(** X15.  [resetToMenu] sets the state to START, empties the enemies, the
    bullets and the particles and paints once, drawing no random number; it
    keeps the score and the player as they are.  Every [update] call after
    it is a no-op. *)
Theorem resetToMenu_clears rt g :
  let g' := resetToMenu rt g in
  state g' = START
  /\ enemies g' = [] /\ bullets g' = [] /\ particles g' = []
  /\ calls g' = calls g ++ [paint] /\ rngPos g' = rngPos g
  /\ score g' = score g /\ player g' = player g
  /\ forall dts, updates rt dts g' = g'.
Proof.
  cbv zeta.
  assert (E : resetToMenu rt g
              = emit paint (set_enemies [] (set_particles []
                              (set_bullets [] (set_state START g)))))
    by reflexivity.
  rewrite E. repeat split.
  intros dts. apply updates_idle. left. reflexivity.
Qed.

(** ** Resizing *)

Lemma resize_behaviour w h g :
  let g' := resize w h g in
  gwidth g' = w /\ gheight g' = h
  /\ y (player g') = h - 60
  /\ x (player g')
     = (if Qltb w (x (player g)) then w - width (player g) else x (player g))
  /\ width (player g') = width (player g)
  /\ cooldown (player g') = cooldown (player g)
  /\ enemies g' = enemies g /\ bullets g' = bullets g
  /\ state g' = state g /\ calls g' = calls g.
Proof.
  cbv zeta. unfold resize. cbv zeta.
  replace (Qltb (gwidth (set_gheight h (set_gwidth w g)))
                (x (player (set_gheight h (set_gwidth w g)))))
    with (Qltb w (x (player g))) by reflexivity.
  destruct (Qltb w (x (player g))); repeat split.
Qed.

(** ** A kill *)

(** X16.  A kill.  When the collision loop tests a player bullet against an
    active enemy that it overlaps, the enemy and the bullet become
    inactive, the explosion is played, exactly 25 particles are emitted at
    the centre of the enemy with the enemy's colour as base colour, and the
    score grows by 100 and is reported to the score callback; the enemy
    stays where it is in the collection. *)
Theorem kill_burst rt g (b : Bullet) (e : Enemy) :
  RuntimeOk rt -> hitBy b e = true ->
  let r := hitEnemy rt (g, b) e in
  snd r = onEnemy (setActive false) e
  /\ snd (fst r) = onBullet (setActive false) b
  /\ score (fst (fst r)) = (score g + 100)%Z
  /\ calls (fst (fst r))
     = calls g ++ [playExplosion; onScoreUpdate (score g + 100)]
  /\ exists new,
       particles (fst (fst r)) = particles g ++ new /\ length new = 25%nat
       /\ Forall (spawnedBy rt (x e + width e / 2) (y e + height e / 2)
                            (color e)) new.
Proof.
  intros Hrt H. cbv zeta. unfold hitBy in H.
  apply andb_prop in H as [Ha Ho].
  unfold hitEnemy. rewrite Ha, Ho. cbv zeta. cbn [negb].
  destruct (spawnParticles_spec rt
              (x (onEnemy (setActive false) e)
               + width (onEnemy (setActive false) e) / 2)
              (y (onEnemy (setActive false) e)
               + height (onEnemy (setActive false) e) / 2)
              (color (onEnemy (setActive false) e)) 25
              (emit playExplosion g) Hrt) as (new & n & -> & Hlen & Hall).
  cbn [fst snd]. split; [reflexivity|]. split; [reflexivity|].
  split; [reflexivity|].
  split; [cbn; now rewrite <- app_assoc|].
  exists new. split; [reflexivity|]. split; [exact Hlen | exact Hall].
Qed.

Lemma kill_burst_witness :
  let rt := constantRuntime (1 / 2) in
  let b := risingBullet 110 in
  let e := mkEnemy (mkEntity 100 100 30 20 0 0 "#39ff14" true) 0 0 in
  let r := hitEnemy rt (stackedState, b) e in
  hitBy b e = true
  /\ score (fst (fst r)) = 100%Z
  /\ length (particles (fst (fst r))) = 25%nat.
Proof.
  cbv zeta.
  assert (Hh : hitBy (risingBullet 110)
                 (mkEnemy (mkEntity 100 100 30 20 0 0 "#39ff14" true) 0 0)
               = true) by (vm_compute; reflexivity).
  split; [exact Hh|].
  destruct (kill_burst (constantRuntime (1 / 2)) stackedState
              (risingBullet 110)
              (mkEnemy (mkEntity 100 100 30 20 0 0 "#39ff14" true) 0 0)
              constantRuntime_ok Hh)
    as (_ & _ & Hs & _ & new & Hp & Hl & _).
  split; [exact Hs|]. rewrite Hp. rewrite length_app, Hl. reflexivity.
Defined.

(** ** Bullets on the surface *)

Lemma moveBullet_range h (b : Bullet) :
  active (moveBullet h b) = true ->
  0 <= y (moveBullet h b) /\ y (moveBullet h b) <= h.
Proof.
  unfold moveBullet. cbv zeta.
  match goal with |- context [if ?c then _ else _] => destruct c eqn:E end.
  - cbn. discriminate.
  - intros _. apply orb_false_elim in E as [E1 E2].
    apply Qltb_ge in E1. apply Qltb_ge in E2. split; assumption.
Qed.

Lemma collideBullet_bullet rt g (b : Bullet) :
  snd (collideBullet rt g b) = b
  \/ snd (collideBullet rt g b) = onBullet (setActive false) b.
Proof.
  destruct (active b) eqn:Ha.
  - destruct (isPlayerBullet b) eqn:Hp.
    + destruct (collideBullet_player rt g b Ha Hp) as (_ & -> & _).
      destruct (0 <? _)%nat; auto.
    + unfold collideBullet. rewrite Ha, Hp. cbn [negb].
      destruct (overlaps b (player g)); cbn; auto.
  - unfold collideBullet. rewrite Ha. cbn. auto.
Qed.

Lemma collisions_bullets rt g :
  Forall2 (fun b b' : Bullet => b' = b \/ b' = onBullet (setActive false) b)
          (bullets g) (bullets (collisions rt g)).
Proof.
  unfold collisions.
  pose proof (forEach_Forall2
    (fun b b' : Bullet => b' = b \/ b' = onBullet (setActive false) b)
    (collideBullet rt) (collideBullet_bullet rt) (bullets g) g) as H.
  destruct (forEach (collideBullet rt) g (bullets g)) as [g' bs]. exact H.
Qed.

Lemma enemyTick_muzzle rt m g hw (e : Enemy) :
  let r := enemyTick rt m (g, hw) e in
  enemySpeed (fst (fst r)) = enemySpeed g
  /\ enemyDirection (fst (fst r)) = enemyDirection g
  /\ (bullets (fst (fst r)) = bullets g
      \/ bullets (fst (fst r))
         = bullets g ++ [muzzleBullet m (enemySpeed g) (enemyDirection g) e]).
Proof.
  cbv zeta. unfold enemyTick, Math_random, emit, muzzleBullet. cbv zeta.
  cbn [fst snd].
  destruct (Qleb (y (player g)) _);
    match goal with |- context [Qltb ?a ?b] => destruct (Qltb a b) end;
    (split; [reflexivity|]); (split; [reflexivity|]);
    first [left; reflexivity | right; reflexivity].
Qed.

Lemma enemyLoop_muzzle rt m es : forall g hw,
  let r := forEach (onLiving (enemyTick rt m)) (g, hw) es in
  enemySpeed (fst (fst r)) = enemySpeed g
  /\ enemyDirection (fst (fst r)) = enemyDirection g
  /\ exists new,
       bullets (fst (fst r)) = bullets g ++ new
       /\ Forall (fun b : Bullet =>
                    exists e : Enemy,
                      In e es /\ active e = true
                      /\ b = muzzleBullet m (enemySpeed g) (enemyDirection g) e)
                 new.
Proof.
  induction es as [|e es IH]; intros g hw; cbv zeta.
  - simpl. split; [reflexivity|]. split; [reflexivity|].
    exists []. rewrite app_nil_r. split; [reflexivity | constructor].
  - change (forEach (onLiving (enemyTick rt m)) (g, hw) (e :: es))
      with (let '(s1, a') := onLiving (enemyTick rt m) (g, hw) e in
            let '(s2, l'') := forEach (onLiving (enemyTick rt m)) s1 es in
            (s2, a' :: l'')).
    destruct (active e) eqn:Ha.
    + replace (onLiving (enemyTick rt m) (g, hw) e)
        with (enemyTick rt m (g, hw) e)
        by (unfold onLiving; now rewrite Ha).
      destruct (enemyTick_muzzle rt m g hw e) as (Hs & Hd & Hb).
      destruct (enemyTick rt m (g, hw) e) as [[g1 hw1] e1].
      cbn [fst snd] in *.
      specialize (IH g1 hw1). cbv zeta in IH.
      destruct (forEach (onLiving (enemyTick rt m)) (g1, hw1) es)
        as [[g2 hw2] es2].
      cbn [fst snd] in *.
      destruct IH as (Is & Id & new2 & Ib & If2).
      rewrite Hs, Hd in *.
      split; [exact Is|]. split; [exact Id|].
      assert (Hrest : Forall (fun b : Bullet =>
                exists e0 : Enemy,
                  In e0 (e :: es) /\ active e0 = true
                  /\ b = muzzleBullet m (enemySpeed g) (enemyDirection g) e0)
                new2).
      { revert If2. apply List.Forall_impl.
        intros b (e0 & Hin & Hact & Heq). exists e0.
        split; [now right | split; assumption]. }
      destruct Hb as [Hb | Hb]; rewrite Ib, Hb.
      * exists new2. split; [reflexivity | exact Hrest].
      * exists (muzzleBullet m (enemySpeed g) (enemyDirection g) e :: new2).
        rewrite <- app_assoc. split; [reflexivity|].
        constructor; [|exact Hrest].
        exists e. split; [now left | split; [exact Ha | reflexivity]].
    + replace (onLiving (enemyTick rt m) (g, hw) e) with ((g, hw), e)
        by (unfold onLiving; now rewrite Ha).
      specialize (IH g hw). cbv zeta in IH.
      destruct (forEach (onLiving (enemyTick rt m)) (g, hw) es)
        as [[g2 hw2] es2].
      cbn [fst snd] in *.
      destruct IH as (Is & Id & new2 & Ib & If2).
      split; [exact Is|]. split; [exact Id|].
      exists new2. split; [exact Ib|].
      revert If2. apply List.Forall_impl.
      intros b (e0 & Hin & Hact & Heq). exists e0.
      split; [now right | split; assumption].
Qed.

Lemma enemyLogic_muzzle rt m g :
  exists new,
    bullets (enemyLogic rt m g) = bullets g ++ new
    /\ Forall (shotFrom m g) new.
Proof.
  unfold enemyLogic.
  pose proof (enemyLoop_muzzle rt m (enemies g) g false) as (_ & _ & Hb).
  destruct (forEach (onLiving (enemyTick rt m)) (g, false) (enemies g))
    as [[g1 hw] es].
  cbn [fst] in Hb. destruct hw; exact Hb.
Qed.

Lemma shotFrom_before m g (b : Bullet) :
  shotFrom m (beforeEnemies g) b -> shotFrom m g b.
Proof.
  destruct (beforeEnemies_formation g) as (He & Hd & Hs & _).
  unfold shotFrom. rewrite He, Hd, Hs. exact (fun H => H).
Qed.

Lemma atCollisions_bullets rt g :
  Forall (bulletInPlay (getDifficultyMultipliers g) g)
         (bullets (atCollisions rt g)).
Proof.
  unfold atCollisions.
  destruct (enemyLogic_muzzle rt (getDifficultyMultipliers g) (beforeEnemies g))
    as (new & -> & Hf).
  destruct (beforeEnemies_fire g) as (_ & _ & ->).
  apply Forall_app. split.
  - apply List.Forall_forall. intros b Hin.
    apply in_map_iff in Hin as (b0 & <- & Hin0).
    intros Hact. right. split; [exact (moveBullet_range _ _ Hact)|].
    exists b0. split; [reflexivity|].
    apply in_app_or in Hin0 as [Hin0 | Hin0]; [now left|].
    destruct (fires g); [|destruct Hin0].
    destruct Hin0 as [<- | []]. now right.
  - revert Hf. apply List.Forall_impl. intros b Hb' _. left.
    exact (shotFrom_before _ _ _ Hb').
Qed.

(** X17.  Bullets that leave the surface are purged.  After a call of
    [update] in PLAYING that gets past the victory test every bullet in the
    collection is active, and it is either a bullet that an active enemy has
    fired in this call, from the middle of the bottom edge of the enemy, or
    a bullet that the call has moved (one that was in the collection, or the
    one the player has fired in the call) and that lies vertically on the
    surface (0 <= y <= height); every player bullet is of the second kind.
    A bullet of the collection whose move takes it above the top or below
    the bottom of the surface is not in the collection after the call. *)
Theorem bullets_stay_on_surface rt dt g :
  state g = PLAYING -> livingEnemies g <> [] ->
  let g' := update rt dt g in
  Forall (fun b : Bullet =>
            active b = true
            /\ (shotFrom (getDifficultyMultipliers g) g b
                \/ movedOnSurface g b)
            /\ (isPlayerBullet b = true -> movedOnSurface g b))
         (bullets g')
  /\ (forall b0 : Bullet,
        y b0 + dy b0 < 0 \/ gheight g < y b0 + dy b0 ->
        active (moveBullet (gheight g) b0) = false
        /\ ~ In (moveBullet (gheight g) b0) (bullets g')).
Proof.
  intros Hs Hl. cbv zeta.
  assert (Hb : livingEnemies (beforeEnemies g) <> [])
    by (rewrite livingEnemies_before; exact Hl).
  rewrite (update_reaches_collisions rt dt g Hs Hb).
  destruct (finishing_touches (collisions rt (atCollisions rt g)))
    as (_ & _ & _ & _ & _ & _ & _ & ->).
  pose proof (collisions_bullets rt (atCollisions rt g)) as H2.
  pose proof (atCollisions_bullets rt g) as H1.
  revert H1 H2.
  generalize (bullets (collisions rt (atCollisions rt g))).
  generalize (bullets (atCollisions rt g)).
  generalize (getDifficultyMultipliers g).
  clear. intros m bs bs' H1 H2.
  split.
  - apply List.Forall_forall. intros b Hin.
    apply filter_In in Hin as [Hin Hact].
    assert (Hplay : bulletInPlay m g b).
    { clear Hact. induction H2 as [|b0 b0' l l' Hr _ IH]; [destruct Hin|].
      inversion H1 as [|? ? Hb0 Hrest]; subst.
      destruct Hin as [<- | Hin]; [|exact (IH Hrest Hin)].
      destruct Hr as [-> | ->]; [exact Hb0|].
      intros Habs. cbn in Habs. discriminate. }
    specialize (Hplay Hact).
    split; [exact Hact|]. split; [exact Hplay|].
    intros Hp. destruct Hplay as [(e & _ & _ & ->) | Hy];
      [cbn in Hp; discriminate Hp | exact Hy].
  - intros b0 Hout.
    assert (Hoff : active (moveBullet (gheight g) b0) = false).
    { unfold moveBullet. cbv zeta.
      match goal with |- context [if ?c then _ else _] =>
        destruct c eqn:E end; [reflexivity|].
      apply orb_false_elim in E as [E1 E2].
      apply Qltb_ge in E1. apply Qltb_ge in E2. cbn in E1, E2.
      destruct Hout as [Hout | Hout]; lra. }
    split; [exact Hoff|].
    intros Hin. apply filter_In in Hin as [_ Hact]. congruence.
Qed.

Lemma bullets_stay_on_surface_witness :
  let g' := update (constantRuntime 0) 16 crossfireSession in
  state crossfireSession = PLAYING
  /\ livingEnemies crossfireSession <> []
  /\ length (bullets crossfireSession) = 4%nat
  /\ length (bullets g') = 34%nat
  /\ length (List.filter (fun b : Bullet => isPlayerBullet b) (bullets g'))
     = 1%nat
  /\ Forall (fun b : Bullet =>
               active b = true
               /\ (shotFrom (getDifficultyMultipliers crossfireSession)
                            crossfireSession b
                   \/ movedOnSurface crossfireSession b))
            (bullets g').
Proof.
  cbv zeta.
  assert (Hl : livingEnemies crossfireSession <> [])
    by (vm_compute; discriminate).
  assert (Hs : state crossfireSession = PLAYING) by (vm_compute; reflexivity).
  split; [exact Hs|]. split; [exact Hl|].
  split; [vm_compute; reflexivity|]. split; [vm_compute; reflexivity|].
  split; [vm_compute; reflexivity|].
  destruct (bullets_stay_on_surface (constantRuntime 0) 16
              crossfireSession Hs Hl) as [H _].
  revert H.
  generalize (bullets (update (constantRuntime 0) 16 crossfireSession)).
  intros bs H.
  induction H as [|b bs (Hb & Ho & _) _ IH]; constructor;
    [split; assumption | assumption].
Defined.

(** ** What [update] never writes *)

(** X18.  [update] never changes the size of the surface, the keys, the
    difficulty or the time of the last frame, and of the player it changes
    only x and the cooldown: y, size, colour and the [active] flag are as
    before, in every state. *)
Theorem update_keeps_surroundings rt dt g :
  let g' := update rt dt g in
  gwidth g' = gwidth g /\ gheight g' = gheight g /\ keys g' = keys g
  /\ difficulty g' = difficulty g /\ lastFrameTime g' = lastFrameTime g
  /\ y (player g') = y (player g) /\ width (player g') = width (player g)
  /\ height (player g') = height (player g)
  /\ color (player g') = color (player g)
  /\ active (player g') = active (player g).
Proof.
  cbv zeta. destruct (state g) eqn:Hs.
  - rewrite (update_idle rt dt g) by auto. repeat split.
  - destruct (Qlt_le_dec (countdownTimer g + dt) 1000) as [Hlt | Hge].
    + rewrite (update_countdown_wait rt dt g Hs Hlt). repeat split.
    + rewrite (update_countdown_tick rt dt g Hs Hge). cbv zeta.
      destruct (countdownValue g - 1 <=? 0)%Z; repeat split.
  - rewrite (update_playing rt dt g Hs).
    pose proof (afterBullets_surroundings rt (getDifficultyMultipliers g)
                  (beforeEnemies g)) as Hsur.
    destruct (beforeEnemies_shape g) as (v & cd & bs & cs & Hb & _).
    rewrite Hb in Hsur. unfold surroundings in Hsur. cbn in Hsur.
    injection Hsur as Hgw Hgh Hpl Hk Hd _ Hlf _.
    rewrite <- Hb in Hgw, Hgh, Hpl, Hk, Hd, Hlf.
    rewrite Hgw, Hgh, Hpl, Hk, Hd, Hlf. repeat split.
  - rewrite (update_idle rt dt g) by auto. repeat split.
  - rewrite (update_idle rt dt g) by auto. repeat split.
Qed.

(** ** The player's movement *)

Lemma movePlayer_exact g :
  x (player (movePlayer g))
  == Qmax 0 (Qmin (gwidth g - width (player g))
                  (x (player g) + PLAYER_SPEED * (rightHeld g - leftHeld g))).
Proof.
  unfold movePlayer, leftHeld, rightHeld.
  destruct (keyDown g "ArrowLeft" || keyDown g "KeyA"); cbv zeta;
    match goal with |- context [if ?c then _ else _] =>
      let b := fresh "b" in
      assert (exists b, c = b) as [b Hb] by (eexists; reflexivity);
      rewrite Hb;
      replace (keyDown g "ArrowRight" || keyDown g "KeyD") with b
        by (rewrite <- Hb; reflexivity);
      destruct b
    end;
    cbn [x player set_player onPlayer setX playerBase width gwidth];
    apply Q.max_compat; try reflexivity;
    apply Q.min_compat; try reflexivity;
    unfold PLAYER_SPEED; ring.
Qed.

(** X19.  The player's movement.  A call of [update] in PLAYING moves the
    player by 5 to the right when ArrowRight or KeyD is held and by 5 to
    the left when ArrowLeft or KeyA is held (both at once cancel), and then
    clamps x to [0, width - player.width]: x is never negative after the
    call, and on a surface narrower than the player it is 0. *)
Theorem player_moves rt dt g :
  state g = PLAYING ->
  let g' := update rt dt g in
  x (player g')
  == Qmax 0 (Qmin (gwidth g - width (player g))
                  (x (player g) + PLAYER_SPEED * (rightHeld g - leftHeld g)))
  /\ 0 <= x (player g')
  /\ (gwidth g < width (player g) -> x (player g') == 0).
Proof.
  intros Hs. cbv zeta. rewrite (update_playing rt dt g Hs).
  pose proof (afterBullets_surroundings rt (getDifficultyMultipliers g)
                (beforeEnemies g)) as Hsur.
  assert (Hp : player (afterBullets rt (getDifficultyMultipliers g)
                                    (beforeEnemies g))
               = player (beforeEnemies g))
    by (unfold surroundings in Hsur; congruence).
  rewrite Hp.
  assert (Hx : x (player (beforeEnemies g)) = x (player (movePlayer g))).
  { unfold beforeEnemies, updateBullets.
    destruct (playerShoot_exact (movePlayer g)) as (_ & Hbase & _).
    change (x (playerBase (player (playerShoot (movePlayer g))))
            = x (playerBase (player (movePlayer g)))).
    now rewrite Hbase. }
  rewrite Hx. pose proof (movePlayer_exact g) as He.
  split; [exact He|]. split.
  - rewrite He. apply Q.le_max_l.
  - intros Hn. rewrite He. apply Q.max_l.
    eapply Qle_trans; [apply Q.le_min_l | lra].
Qed.

Lemma player_moves_witness :
  let g' := update (constantRuntime (1 / 2)) 16 sessionEngine in
  state sessionEngine = PLAYING /\ x (player g') == 380.
Proof.
  cbv zeta.
  assert (Hs : state sessionEngine = PLAYING) by (vm_compute; reflexivity).
  split; [exact Hs|].
  destruct (player_moves (constantRuntime (1 / 2)) 16 sessionEngine Hs)
    as (H & _).
  rewrite H. vm_compute. reflexivity.
Defined.

(** ** The component *)

(** X20.  [handleResize] never makes the surface larger than 800 by 600 nor
    larger than the window less 32; in a window of at least 832 by 632 the
    surface is exactly 800 by 600.  The player is put at y = height - 60.
    The component paints once when the state is START, GAME_OVER or
    VICTORY and not at all in COUNTDOWN and PLAYING; the state is kept. *)
Theorem handleResize_bounds rt iw ih g :
  let g' := handleResize rt iw ih g in
  (gwidth g' <= 800 /\ gwidth g' <= iw - 32)
  /\ (gheight g' <= 600 /\ gheight g' <= ih - 32)
  /\ (832 <= iw -> gwidth g' == 800) /\ (632 <= ih -> gheight g' == 600)
  /\ y (player g') = gheight g' - 60
  /\ state g' = state g
  /\ calls g' = match state g with
                | PLAYING | COUNTDOWN => calls g
                | _ => calls g ++ [paint]
                end.
Proof.
  cbv zeta. unfold handleResize. cbv zeta.
  destruct (resize_behaviour (Qmin (iw - 32) 800) (Qmin (ih - 32) 600) g)
    as (Hw & Hh & Hy & _ & _ & _ & _ & _ & Hs & Hc).
  revert Hw Hh Hy Hs Hc.
  generalize (resize (Qmin (iw - 32) 800) (Qmin (ih - 32) 600) g).
  intros g1 Hw Hh Hy Hs Hc.
  assert (Hfin : forall g2,
            gwidth g2 = gwidth g1 -> gheight g2 = gheight g1 ->
            y (player g2) = y (player g1) ->
            (gwidth g2 <= 800 /\ gwidth g2 <= iw - 32)
            /\ (gheight g2 <= 600 /\ gheight g2 <= ih - 32)
            /\ (832 <= iw -> gwidth g2 == 800)
            /\ (632 <= ih -> gheight g2 == 600)
            /\ y (player g2) = gheight g2 - 60).
  { intros g2 E1 E2 E3. rewrite E1, E2, E3, Hw, Hh, Hy.
    split; [split; [apply Q.le_min_r | apply Q.le_min_l]|].
    split; [split; [apply Q.le_min_r | apply Q.le_min_l]|].
    split; [intros Hi; apply Q.min_r; lra|].
    split; [intros Hi; apply Q.min_r; lra | reflexivity]. }
  pose proof (draw_shape rt g1) as Hd. rewrite Hs in *.
  destruct (state g) eqn:Hst.
  - rewrite Hd. destruct (Hfin (emit paint g1) eq_refl eq_refl eq_refl)
      as (A & B & C & D & E).
    cbn [state calls emit set_calls]. rewrite Hs, Hc. repeat split; tauto.
  - destruct (Hfin g1 eq_refl eq_refl eq_refl) as (A & B & C & D & E).
    rewrite Hs, Hc. repeat split; tauto.
  - destruct (Hfin g1 eq_refl eq_refl eq_refl) as (A & B & C & D & E).
    rewrite Hs, Hc. repeat split; tauto.
  - rewrite Hd. destruct (Hfin (emit paint g1) eq_refl eq_refl eq_refl)
      as (A & B & C & D & E).
    cbn [state calls emit set_calls]. rewrite Hs, Hc. repeat split; tauto.
  - rewrite Hd. destruct (Hfin (emit paint g1) eq_refl eq_refl eq_refl)
      as (A & B & C & D & E).
    cbn [state calls emit set_calls]. rewrite Hs, Hc. repeat split; tauto.
Qed.

Lemma handleResize_bounds_witness :
  let g' := handleResize (constantRuntime (1 / 2)) 1920 1080
                         (newGameEngine 300 150) in
  (832 <= 1920 /\ 632 <= 1080)
  /\ gwidth g' == 800 /\ gheight g' == 600.
Proof.
  cbv zeta.
  assert (Hw : 832 <= 1920) by (vm_compute; discriminate).
  assert (Hh : 632 <= 1080) by (vm_compute; discriminate).
  split; [split; assumption|].
  destruct (handleResize_bounds (constantRuntime (1 / 2)) 1920 1080
              (newGameEngine 300 150)) as (_ & _ & A & B & _).
  split; [exact (A Hw) | exact (B Hh)].
Defined.

Lemma highScoreEffect_cases st sc hs :
  ((st = GAME_OVER \/ st = VICTORY) /\ (hs < sc)%Z
   /\ highScoreEffect st sc hs = (sc, Some sc))
  \/ (~ ((st = GAME_OVER \/ st = VICTORY) /\ (hs < sc)%Z)
      /\ highScoreEffect st sc hs = (hs, None)).
Proof.
  unfold highScoreEffect.
  destruct st;
    try (right; split; [intros [[H | H] _]; discriminate H | reflexivity]).
  - destruct (hs <? sc)%Z eqn:E.
    + apply Z.ltb_lt in E. left. auto.
    + apply Z.ltb_ge in E. right. split; [intros [_ H]; lia | reflexivity].
  - destruct (hs <? sc)%Z eqn:E.
    + apply Z.ltb_lt in E. left. auto.
    + apply Z.ltb_ge in E. right. split; [intros [_ H]; lia | reflexivity].
Qed.

(** X21.  The high score.  The effect of the component changes the high
    score only in GAME_OVER and VICTORY, and then to the larger of the
    score and the old high score.  It writes to the storage exactly when the
    state is one of the two and the score is strictly greater than the high
    score: then it does write, the value written is the score, and the
    score is the new high score; in the three other states, and when the
    score is not greater, it writes nothing and keeps the high score.  The
    high score never decreases, and running the effect again on the new
    high score changes nothing. *)
Theorem highScore_keeps_maximum st sc hs :
  let r := highScoreEffect st sc hs in
  (hs <= fst r)%Z
  /\ (st = GAME_OVER \/ st = VICTORY -> fst r = Z.max hs sc)
  /\ (st = START \/ st = COUNTDOWN \/ st = PLAYING -> r = (hs, None))
  /\ (forall v, snd r = Some v
                <-> (st = GAME_OVER \/ st = VICTORY) /\ (hs < sc)%Z /\ v = sc)
  /\ (st = GAME_OVER \/ st = VICTORY -> (hs < sc)%Z -> r = (sc, Some sc))
  /\ ((sc <= hs)%Z -> r = (hs, None))
  /\ (snd r = None
      <-> ~ ((st = GAME_OVER \/ st = VICTORY) /\ (hs < sc)%Z))
  /\ highScoreEffect st sc (fst r) = (fst r, None).
Proof.
  cbv zeta.
  destruct (highScoreEffect_cases st sc hs) as [(T & L & ->) | (N & ->)];
    cbn [fst snd].
  - split; [lia|]. split; [intros _; lia|].
    split; [intros [H | [H | H]]; destruct T as [T | T]; congruence|].
    split.
    { intros v. split.
      - intros H. injection H as <-. auto.
      - intros (_ & _ & ->). reflexivity. }
    split; [reflexivity|]. split; [intros H; lia|].
    split; [split; [discriminate | intros H; destruct (H (conj T L))]|].
    destruct (highScoreEffect_cases st sc sc) as [(_ & H & _) | (_ & ->)];
      [lia | reflexivity].
  - split; [lia|].
    split.
    { intros T. destruct (Z_lt_le_dec hs sc) as [L | L];
        [destruct (N (conj T L)) | lia]. }
    split; [reflexivity|].
    split.
    { intros v. split.
      - discriminate.
      - intros (T & L & _). destruct (N (conj T L)). }
    split; [intros T L; destruct (N (conj T L))|].
    split; [reflexivity|]. split; [split; [intros _; exact N | reflexivity]|].
    destruct (highScoreEffect_cases st sc hs) as [(T & L & _) | (_ & ->)];
      [destruct (N (conj T L)) | reflexivity].
Qed.

Lemma highScore_keeps_maximum_witness :
  highScoreEffect GAME_OVER 1200 800 = (1200, Some 1200)%Z
  /\ highScoreEffect VICTORY 300 800 = (800, None)%Z
  /\ highScoreEffect PLAYING 1200 800 = (800, None)%Z
  /\ fst (highScoreEffect VICTORY 300 800) = Z.max 800 300.
Proof.
  destruct (highScore_keeps_maximum GAME_OVER 1200 800)
    as (_ & _ & _ & _ & A & _).
  destruct (highScore_keeps_maximum VICTORY 300 800)
    as (_ & B & _ & _ & _ & C & _).
  destruct (highScore_keeps_maximum PLAYING 1200 800) as (_ & _ & D & _).
  split; [apply A; [left; reflexivity | reflexivity]|].
  split; [apply C; discriminate|].
  split; [apply D; right; right; reflexivity|].
  apply B. right. reflexivity.
Defined.

